(** * semspec-ts: segments, references, navigation and graph validators

    A shallow embedding of the parsing and validation core of the
    repository, with the properties its specification states about it.

    Conventions of the embedding:
    - a JavaScript string is a [string]: a sequence of code units, here
      the 8-bit ones ([ascii]); indices and lengths are [Z], so that the
      [-1] of [indexOf] and [length - 1] read as in the source;
    - [throw new Error(msg)] is the [Err msg] of a [result];
    - a [Set<string>] is a [gset string], a [Map<string, V>] a
      [gmap string V]; an object iterated with [Object.entries] is the
      list of its entries in iteration order;
    - a JavaScript number is a binary64 [float]. *)

From Stdlib Require Import ZArith Ascii String List Bool Lia Floats.
From stdpp Require Import base option list relations gmap strings pretty.

Import ListNotations.
Local Open Scope string_scope.
Local Open Scope list_scope.
Local Open Scope Z_scope.

(* stdpp freezes [String.append] under [simpl]; the proofs below compute with it. *)
Local Arguments String.append s1 s2 : simpl nomatch.

(** ** Results of code that may throw *)

Inductive result (A : Type) : Type :=
| Ok (a : A)
| Err (msg : string).
Arguments Ok {A} a.
Arguments Err {A} msg.

Definition bind {A B} (r : result A) (k : A -> result B) : result B :=
  match r with
  | Ok a => k a
  | Err m => Err m
  end.

Definition is_ok {A} (r : result A) : bool :=
  match r with Ok _ => true | Err _ => false end.

(** ** JavaScript string primitives *)

Module JsString.

Definition len (s : string) : Z := Z.of_nat (String.length s).

Fixpoint indexOf_from (c : ascii) (s : string) (i : Z) : Z :=
  match s with
  | EmptyString => -1
  | String x r => if Ascii.eqb x c then i else indexOf_from c r (i + 1)
  end.

(** [s.indexOf(c)] for a one-character needle. *)
Definition indexOf (s : string) (c : ascii) : Z := indexOf_from c s 0.

Fixpoint lastIndexOf_from (c : ascii) (s : string) (i : Z) (found : Z) : Z :=
  match s with
  | EmptyString => found
  | String x r =>
      lastIndexOf_from c r (i + 1) (if Ascii.eqb x c then i else found)
  end.

(** [s.lastIndexOf(c)] for a one-character needle. *)
Definition lastIndexOf (s : string) (c : ascii) : Z :=
  lastIndexOf_from c s 0 (-1).

(** [s.startsWith(p)] *)
Fixpoint startsWith (s p : string) {struct p} : bool :=
  match p with
  | EmptyString => true
  | String c p' =>
      match s with
      | String x s' => Ascii.eqb x c && startsWith s' p'
      | EmptyString => false
      end
  end.

Definition clamp (s : string) (i : Z) : nat :=
  Z.to_nat (Z.max 0 (Z.min i (len s))).

(** [s.substring(a, b)]: both ends clamped to the string, swapped when
    out of order. *)
Definition substring (s : string) (a b : Z) : string :=
  let a' := clamp s a in
  let b' := clamp s b in
  String.substring (Nat.min a' b') (Nat.max a' b' - Nat.min a' b') s.

(** [s.substring(a)]. *)
Definition substringFrom (s : string) (a : Z) : string :=
  substring s a (len s).

Fixpoint contains (c : ascii) (s : string) : bool :=
  match s with
  | EmptyString => false
  | String x r => Ascii.eqb x c || contains c r
  end.

(** White space and line terminators among the 8-bit code units: what
    [\s] matches and [trim] removes (tab, LF, VT, FF, CR, space, NBSP). *)
Definition isSpace (c : ascii) : bool :=
  let n := nat_of_ascii c in
  ((9 <=? n)%nat && (n <=? 13)%nat) || (n =? 32)%nat || (n =? 160)%nat.

Fixpoint trimStart (s : string) : string :=
  match s with
  | String c r => if isSpace c then trimStart r else s
  | EmptyString => EmptyString
  end.

Fixpoint trimEnd (s : string) : string :=
  match s with
  | EmptyString => EmptyString
  | String c r =>
      match trimEnd r with
      | EmptyString => if isSpace c then EmptyString else String c EmptyString
      | r' => String c r'
      end
  end.

Definition trim (s : string) : string := trimEnd (trimStart s).

(** [s.split(sep)] for a one-character separator: never the empty list. *)
Fixpoint split (sep : ascii) (s : string) : list string :=
  match s with
  | EmptyString => [EmptyString]
  | String c r =>
      if Ascii.eqb c sep then EmptyString :: split sep r
      else match split sep r with
           | h :: t => String c h :: t
           | [] => [String c EmptyString]
           end
  end.

(** [parts.join(sep)]. *)
Definition join (sep : string) (parts : list string) : string :=
  String.concat sep parts.

Definition LF : ascii := "010"%char.
Definition CR : ascii := "013"%char.
Definition DQUOTE : ascii := "034"%char.

End JsString.

(** ** JavaScript array primitives *)

Module JsArray.

(** A relative index of [slice]: a negative index counts from the end. *)
Definition relative (n i : Z) : Z :=
  if i <? 0 then Z.max (n + i) 0 else Z.min i n.

(** [l.slice(a, b)] *)
Definition slice {A} (l : list A) (a b : Z) : list A :=
  let n := Z.of_nat (length l) in
  let from := relative n a in
  let to := relative n b in
  take (Z.to_nat (to - from)) (drop (Z.to_nat from) l).

(** [l.slice(a)] *)
Definition sliceFrom {A} (l : list A) (a : Z) : list A :=
  slice l a (Z.of_nat (length l)).

End JsArray.

(** ** A JavaScript [Map] with string keys: the entries in insertion order *)

Module JsMap.

Definition t (V : Type) : Type := list (string * V).

(** [m.set(k, v)]: a key already present keeps its place. *)
Fixpoint set {V} (k : string) (v : V) (m : t V) : t V :=
  match m with
  | [] => [(k, v)]
  | (k', v') :: r =>
      if String.eqb k' k then (k, v) :: r else (k', v') :: set k v r
  end.

Definition get {V} (k : string) (m : t V) : option V :=
  option_map snd (List.find (fun e => String.eqb (fst e) k) m).

Definition has {V} (k : string) (m : t V) : bool :=
  existsb (fun e => String.eqb (fst e) k) m.

Definition values {V} (m : t V) : list V := List.map snd m.

End JsMap.

(** ** Plain JavaScript objects used as records

    A lookup [record[k]] on a plain object also finds the members that
    every object inherits from [Object.prototype]; each of them is a
    function or an object, hence truthy. *)

Module JsObject.

(** [Object.getOwnPropertyNames(Object.prototype)] *)
Definition prototypeMembers : list string :=
  ["constructor"; "__defineGetter__"; "__defineSetter__"; "hasOwnProperty";
   "__lookupGetter__"; "__lookupSetter__"; "isPrototypeOf"; "propertyIsEnumerable";
   "toString"; "valueOf"; "__proto__"; "toLocaleString"].

Definition inherited (k : string) : bool :=
  existsb (String.eqb k) prototypeMembers.

(** [k] is the key of an entry of the record itself. *)
Definition ownKey {V} (record : list (string * V)) (k : string) : bool :=
  existsb (fun e => String.eqb (fst e) k) record.

(** [record[k]] is truthy, for a record whose values are objects: the
    record has an entry with the key [k], or [k] names an inherited
    member. *)
Definition truthyAt {V} (record : list (string * V)) (k : string) : bool :=
  ownKey record k || inherited k.

End JsObject.

(** ** The regular expressions of the source, as deterministic matchers

    Every pattern of the source is a sequence of literals, white-space
    runs and negated-quote runs in which each run is followed by a
    character outside the run's class, so the greedy left-to-right match
    below is the only one a backtracking engine can find. A matcher takes
    the text at the position tried and returns the text after the match. *)

Module Regex.

(** A literal. *)
Fixpoint lit (p s : string) {struct p} : option string :=
  match p with
  | EmptyString => Some s
  | String c p' =>
      match s with
      | String x s' => if Ascii.eqb x c then lit p' s' else None
      | EmptyString => None
      end
  end.

(** [\s*] *)
Definition spaces0 (s : string) : string := JsString.trimStart s.

(** [\s+] *)
Definition spaces1 (s : string) : option string :=
  match s with
  | String c r => if JsString.isSpace c then Some (spaces0 r) else None
  | EmptyString => None
  end.

(** The longest run of characters other than the double quote, and the
    text after it. *)
Fixpoint notQuote0 (s : string) : string * string :=
  match s with
  | String c r =>
      if Ascii.eqb c JsString.DQUOTE then (EmptyString, s)
      else let '(run, rest) := notQuote0 r in (String c run, rest)
  | EmptyString => (EmptyString, EmptyString)
  end.

(** A captured non-empty quote-free run and the quote that closes it. *)
Definition quoted (s : string) : option (string * string) :=
  match notQuote0 s with
  | (EmptyString, _) => None
  | (run, String _ rest) => Some (run, rest)
  | (_, EmptyString) => None
  end.

(** One match: where it begins, the matched text and the captures. *)
Record Match := {
  index : Z;
  matched : string;
  groups : list (option string)
}.

(** What a matcher reports at a position: the captures and the text left. *)
Definition matcher := string -> option (list (option string) * string).

Definition matchedText (s rest : string) : string :=
  String.substring 0 (String.length s - String.length rest) s.

(** The [while ((match = RE.exec(content)))] loop of a global pattern:
    all matches from left to right, the search resuming where the last
    match ended. [skip] counts the characters of the last match still to
    pass over. *)
Fixpoint execAll_from (m : matcher) (s : string) (pos : Z) (skip : nat) : list Match :=
  match s with
  | EmptyString => []
  | String _ r =>
      match skip with
      | S k => execAll_from m r (pos + 1) k
      | O =>
          match m s with
          | Some (gs, rest) =>
              let txt := matchedText s rest in
              {| index := pos; matched := txt; groups := gs |}
                :: execAll_from m r (pos + 1) (String.length txt - 1)
          | None => execAll_from m r (pos + 1) 0
          end
      end
  end.

Definition execAll (m : matcher) (s : string) : list Match := execAll_from m s 0 0.

(** [s.match(re)] for a pattern without the global flag: the leftmost match. *)
Fixpoint search (m : matcher) (s : string) : option (list (option string)) :=
  match m s with
  | Some (gs, _) => Some gs
  | None =>
      match s with
      | String _ r => search m r
      | EmptyString => None
      end
  end.

(** The first capture, [match[1]]; the patterns here always set it. *)
Definition group1 (mt : Match) : string :=
  match groups mt with
  | Some g :: _ => g
  | _ => EmptyString
  end.

End Regex.

(** ** Reference parser (references/parser.ts) *)

Module References.

Record SegmentRef := {
  project : option string;
  documentId : option string;
  segmentId : string;
  original : string
}.

Definition parseSegmentRef (ref : string) : option SegmentRef :=
  let original := ref in
  if JsString.startsWith ref "#" then
    Some {| project := None; documentId := None;
            segmentId := JsString.substringFrom ref 1;
            original := original |}
  else
    let hashIdx := JsString.lastIndexOf ref "#" in
    if (hashIdx =? -1) || (hashIdx =? JsString.len ref - 1) then None
    else
      let segmentId := JsString.substringFrom ref (hashIdx + 1) in
      let resourcePath := JsString.substring ref 0 hashIdx in
      if JsString.startsWith resourcePath "@" then
        let slashIdx := JsString.indexOf resourcePath "/" in
        if slashIdx =? -1 then None
        else
          Some {| project := Some (JsString.substring resourcePath 1 slashIdx);
                  documentId := Some (JsString.substringFrom resourcePath (slashIdx + 1));
                  segmentId := segmentId;
                  original := original |}
      else
        Some {| project := None; documentId := Some resourcePath;
                segmentId := segmentId; original := original |}.

Definition buildSegmentRef (project pageId segmentId : string) : string :=
  "@" +:+ project +:+ "/" +:+ pageId +:+ "#" +:+ segmentId.

Record ReferenceContext := {
  currentProject : option string;
  currentPage : option string
}.

Record ResolvedRef := {
  canonical : string;
  scope : string;
  res_project : string;
  page : string;
  segment : string
}.

(** [a || b] on an optional string: the empty string is falsy too. *)
Definition orElse (a b : option string) : option string :=
  match a with
  | Some EmptyString | None => b
  | Some _ => a
  end.

Definition truthy (a : option string) : option string := orElse a None.

Definition resolveReference (ref : string) (context : ReferenceContext) : result ResolvedRef :=
  match parseSegmentRef ref with
  | None => Err ("Invalid reference format: " +:+ ref)
  | Some parsed =>
      match truthy (orElse (project parsed) (currentProject context)) with
      | None => Err ("Cannot resolve project from reference: " +:+ ref)
      | Some project =>
          match truthy (orElse (documentId parsed) (currentPage context)) with
          | None => Err ("Cannot resolve page from reference: " +:+ ref)
          | Some page =>
              Ok {| canonical := buildSegmentRef project page (segmentId parsed);
                    scope := "@";
                    res_project := project;
                    page := page;
                    segment := segmentId parsed |}
          end
      end
  end.

End References.

(** *** Project and page references, and the kinds of a reference
    (the rest of references/parser.ts) *)

Module ReferenceForms.

Import References.

Record ProjectRef := {
  pr_scope : string;
  pr_project : string;
  pr_original : string
}.

Record PageRef := {
  pg_project : option string;
  pageId : string;
  pg_original : string
}.

Definition parseProjectRef (ref : string) : option ProjectRef :=
  let original := ref in
  if JsString.startsWith ref "@" then
    let project := JsString.substringFrom ref 1 in
    if String.eqb project EmptyString then None
    else Some {| pr_scope := "@"; pr_project := project; pr_original := original |}
  else
    let colonIdx := JsString.indexOf ref ":" in
    if colonIdx =? -1 then None
    else
      let scope := JsString.substring ref 0 (colonIdx + 1) in
      let project := JsString.substringFrom ref (colonIdx + 1) in
      if String.eqb project EmptyString then None
      else Some {| pr_scope := scope; pr_project := project; pr_original := original |}.

Definition parsePageRef (ref : string) : option PageRef :=
  let original := ref in
  if JsString.startsWith ref "@" then
    let slashIdx := JsString.indexOf ref "/" in
    if slashIdx =? -1 then None
    else Some {| pg_project := Some (JsString.substring ref 1 slashIdx);
                 pageId := JsString.substringFrom ref (slashIdx + 1);
                 pg_original := original |}
  else Some {| pg_project := None; pageId := ref; pg_original := original |}.

(** [ref.startsWith('@') || ref.includes(':')] *)
Definition isAbsoluteRef (ref : string) : bool :=
  JsString.startsWith ref "@" || JsString.contains ":" ref.

Definition isRelativeRef (ref : string) : bool :=
  negb (isAbsoluteRef ref) && negb (JsString.startsWith ref "#").

Definition isFragmentRef (ref : string) : bool :=
  JsString.startsWith ref "#".

End ReferenceForms.

(** ** Segments v1.0: marker ranges and frontmatter specs
    (primitives/segments: types.ts, parser.ts, validator.ts) *)

Module Segments.

Abbreviation number := PrimFloat.float.

(** A number in a condition: [0], [-0] and [NaN] are falsy. *)
Definition truthyNumber (x : number) : bool :=
  negb (PrimFloat.eqb x 0%float || negb (PrimFloat.eqb x x)).

Record ReturnConfig := { maxTokens : number }.

Record GenerateConfig := {
  gen_maxTokens : number;
  temperature : option number;
  iterations : option number
}.

(** A deserialised value where the code expects strings. *)
Inductive YamlItem :=
| ItemString (s : string)
| ItemOther.

(** [audienceRole] as deserialised: absent, one string, an array, or
    anything else. *)
Inductive AudienceRole :=
| RoleUndefined
| RoleString (s : string)
| RoleArray (items : list YamlItem)
| RoleOther.

(** A configuration object as deserialised: the key is absent
    ([undefined]), present without a value ([null], as YAML reads
    [generate:]), or given. *)
Inductive Config (A : Type) :=
| Absent
| Null
| Given (a : A).

Arguments Absent {A}.
Arguments Null {A}.
Arguments Given {A} a.

(** A configuration in a condition, [!!c]: only a given one is truthy. *)
Definition given {A} (c : Config A) : bool :=
  match c with Given _ => true | _ => false end.


Record SegmentSpec := {
  spec_id : string;
  spec_type : option string;
  audienceRole : AudienceRole;
  concepts : option (list string);
  boost : option number;
  return_ : Config ReturnConfig;
  generate : Config GenerateConfig
}.

Record SemcontextConfig := { cfg_segments : option (list SegmentSpec) }.

Record FrontmatterConfig := {
  fm_id : option string;
  title : option string;
  description : option string;
  semcontext : option SemcontextConfig
}.

Definition emptyFrontmatter : FrontmatterConfig :=
  {| fm_id := None; title := None; description := None; semcontext := None |}.

Record MarkerRange := {
  mr_id : string;
  startMarkerBegin : Z;
  startMarkerEnd : Z;
  endMarkerBegin : Z;
  endMarkerEnd : Z
}.

Record SegmentInstance := {
  id : string;
  spec : option SegmentSpec;
  body : string;
  startByte : Z;
  endByte : Z
}.

Record ParsedDoc := {
  frontmatter : FrontmatterConfig;
  segments : list SegmentInstance;
  frontmatterEndByte : Z;
  contentWithoutFrontmatter : string
}.

Record ValidationError := {
  segmentId : option string;
  field : option string;
  message : string
}.

(** [parsed.frontmatter.semcontext?.segments], [None] when it is undefined. *)
Definition specsOf (fm : FrontmatterConfig) : option (list SegmentSpec) :=
  match semcontext fm with
  | Some c => cfg_segments c
  | None => None
  end.

Definition keyAttr : string := "key=" +:+ String JsString.DQUOTE EmptyString.

(** [SEGMENT_START_RE]: the opening comment, the tag, [start], the key. *)
Definition SEGMENT_START_RE : Regex.matcher := fun s =>
  r ← Regex.lit "<!--" s;
  r ← Regex.lit "semcontext:segment" (Regex.spaces0 r);
  r ← Regex.spaces1 r;
  r ← Regex.lit "start" r;
  r ← Regex.spaces1 r;
  r ← Regex.lit keyAttr r;
  '(key, r) ← Regex.quoted r;
  r ← Regex.lit "-->" (Regex.spaces0 r);
  Some ([Some key], r).

(** [SEGMENT_END_RE] *)
Definition SEGMENT_END_RE : Regex.matcher := fun s =>
  r ← Regex.lit "<!--" s;
  r ← Regex.lit "semcontext:segment" (Regex.spaces0 r);
  r ← Regex.spaces1 r;
  r ← Regex.lit "end" r;
  r ← Regex.lit "-->" (Regex.spaces0 r);
  Some ([], r).

Definition optChar (c : ascii) (s : string) : string :=
  match s with
  | String x r => if Ascii.eqb x c then r else s
  | EmptyString => s
  end.

(** The closing fence of the frontmatter block: an optional CR, LF, three
    dashes, an optional CR, an optional LF. *)
Definition fenceClose (s : string) : option string :=
  r ← Regex.lit (String JsString.LF "---") (optChar JsString.CR s);
  Some (optChar JsString.LF (optChar JsString.CR r)).

(** The lazy body: the shortest text after which the closing fence matches. *)
Fixpoint lazyBody (s : string) : option (string * string) :=
  match fenceClose s with
  | Some rest => Some (EmptyString, rest)
  | None =>
      match s with
      | String c r =>
          match lazyBody r with
          | Some (b, rest) => Some (String c b, rest)
          | None => None
          end
      | EmptyString => None
      end
  end.

(** [FRONTMATTER_RE.exec(docText)]: the whole match and the YAML text. *)
Definition FRONTMATTER_RE (docText : string) : option (string * string) :=
  r ← Regex.lit "---" docText;
  r ← Regex.lit (String JsString.LF EmptyString) (optChar JsString.CR r);
  '(yamlText, rest) ← lazyBody r;
  Some (Regex.matchedText docText rest, yamlText).

Definition isItemString (i : YamlItem) : bool :=
  match i with ItemString _ => true | ItemOther => false end.

Definition normalizeAudienceRole (raw : AudienceRole) : AudienceRole :=
  match raw with
  | RoleUndefined => RoleUndefined
  | RoleString EmptyString => RoleUndefined
  | RoleString s => RoleArray [ItemString s]
  | RoleArray items => RoleArray (List.filter isItemString items)
  | RoleOther => RoleUndefined
  end.

(** The body of the normalising loop: [seg.audienceRole] is rewritten and
    a missing or falsy [seg.boost] becomes [1.0]. *)
Definition normalizeSpec (seg : SegmentSpec) : SegmentSpec :=
  {| spec_id := spec_id seg;
     spec_type := spec_type seg;
     audienceRole := normalizeAudienceRole (audienceRole seg);
     concepts := concepts seg;
     boost := match boost seg with
              | Some b => if truthyNumber b then Some b else Some 1%float
              | None => Some 1%float
              end;
     return_ := return_ seg;
     generate := generate seg |}.

Definition normalizeFrontmatter (fm : FrontmatterConfig) : FrontmatterConfig :=
  {| fm_id := fm_id fm; title := title fm; description := description fm;
     semcontext :=
       match semcontext fm with
       | Some c => Some {| cfg_segments := option_map (List.map normalizeSpec) (cfg_segments c) |}
       | None => None
       end |}.

Definition mismatchedMessage (nStart nEnd : nat) : string :=
  "Mismatched segment markers: found " +:+ pretty nStart +:+ " start markers and "
    +:+ pretty nEnd +:+ " end markers".

Definition orderingMessage : string :=
  "Segment end marker appears before start marker ends".

Definition nestedMessage (id2 id1 : string) : string :=
  "Nested segments not allowed: segment '" +:+ id2 +:+ "' starts before '"
    +:+ id1 +:+ "' ends".

Definition markerRange (start end_ : Regex.Match) (offsetAdjust : Z) : MarkerRange :=
  {| mr_id := Regex.group1 start;
     startMarkerBegin := Regex.index start + offsetAdjust;
     startMarkerEnd := Regex.index start + JsString.len (Regex.matched start) + offsetAdjust;
     endMarkerBegin := Regex.index end_ + offsetAdjust;
     endMarkerEnd := Regex.index end_ + JsString.len (Regex.matched end_) + offsetAdjust |}.

(** The nesting test of one iteration: [next] is [startMatches[i + 1]]
    when [i + 1 < startMatches.length]. *)
Definition nestedAt (start end_ : Regex.Match) (next : option Regex.Match) : option string :=
  match next with
  | Some nx =>
      if Regex.index nx <? Regex.index end_
      then Some (nestedMessage (Regex.group1 nx) (Regex.group1 start))
      else None
  | None => None
  end.

(** The pairing loop of [parseMarkers]: [start] and [end_] are the i-th
    matches, the head of [starts'] is [startMatches[i + 1]]. *)
Fixpoint pairMarkers (starts ends : list Regex.Match) (offsetAdjust : Z)
  : result (list MarkerRange) :=
  match starts, ends with
  | start :: starts', end_ :: ends' =>
      if Regex.index end_ <? Regex.index start + JsString.len (Regex.matched start)
      then Err orderingMessage
      else
        match nestedAt start end_ (head starts') with
        | Some msg => Err msg
        | None =>
            bind (pairMarkers starts' ends' offsetAdjust) (fun markers =>
            Ok (markerRange start end_ offsetAdjust :: markers))
        end
  | _, _ => Ok []
  end.

Definition parseMarkers (content : string) (offsetAdjust : Z) : result (list MarkerRange) :=
  let startMatches := Regex.execAll SEGMENT_START_RE content in
  let endMatches := Regex.execAll SEGMENT_END_RE content in
  if negb (length startMatches =? length endMatches)%nat
  then Err (mismatchedMessage (length startMatches) (length endMatches))
  else pairMarkers startMatches endMatches offsetAdjust.

Section Parse.

(** [yaml.parse], an external collaborator: it throws ([Err], with the
    text of the exception) or returns a value, falsy ([None]) or a
    configuration. *)
Variable yaml_parse : string -> result (option FrontmatterConfig).

(** Step 1 of [parseSegments]: the frontmatter, the offset where it ends
    and the content after it. *)
Definition extractFrontmatterBlock (docText : string)
  : result (FrontmatterConfig * Z * string) :=
  match FRONTMATTER_RE docText with
  | Some (m0, frontmatterYAML) =>
      match yaml_parse frontmatterYAML with
      | Ok v =>
          Ok (normalizeFrontmatter (default emptyFrontmatter v),
              JsString.len m0,
              JsString.substringFrom docText (JsString.len m0))
      | Err e => Err ("Failed to parse YAML frontmatter: " +:+ e)
      end
  | None => Ok (emptyFrontmatter, 0, docText)
  end.

(** [specMap]: later specs with the same id replace earlier ones. *)
Definition buildSpecMap (specs : list SegmentSpec) : gmap string SegmentSpec :=
  fold_left (fun m sp => <[spec_id sp := sp]> m) specs ∅.

Definition instanceOf (docText : string) (specMap : gmap string SegmentSpec)
  (marker : MarkerRange) : SegmentInstance :=
  {| id := mr_id marker;
     spec := specMap !! mr_id marker;
     body := JsString.trim
               (JsString.substring docText (startMarkerEnd marker) (endMarkerBegin marker));
     startByte := startMarkerEnd marker;
     endByte := endMarkerBegin marker |}.

Definition parseSegments (docText : string) : result ParsedDoc :=
  bind (extractFrontmatterBlock docText) (fun '(fm, fmEnd, content) =>
  let specMap := buildSpecMap (default [] (specsOf fm)) in
  bind (parseMarkers content fmEnd) (fun markers =>
  Ok {| frontmatter := fm;
        segments := List.map (instanceOf docText specMap) markers;
        frontmatterEndByte := fmEnd;
        contentWithoutFrontmatter := content |})).

End Parse.

(** *** validator.ts *)

Definition mkError (sid fld : option string) (msg : string) : ValidationError :=
  {| segmentId := sid; field := fld; message := msg |}.

Definition msgDuplicateSpec : string := "duplicate segment ID in frontmatter".
Definition msgEmptyId : string := "segment ID cannot be empty".
Definition msgNeither : string :=
  "segment must have either 'return' or 'generate' configuration".
Definition msgBoth : string :=
  "segment cannot have both 'return' and 'generate' configuration".
Definition msgMaxTokens : string := "max_tokens must be non-negative".
Definition msgTemperature : string := "temperature must be between 0.0 and 2.0".
Definition msgIterations : string := "iterations must be non-negative".
Definition msgBoost : string := "boost must be non-negative".
Definition msgDuplicateMarker : string := "duplicate segment ID in document markers".
Definition msgMarkerWithoutSpec : string :=
  "segment marker has no corresponding frontmatter spec".
Definition msgSpecWithoutMarker : string :=
  "frontmatter spec has no corresponding segment marker in document".

Definition when (b : bool) (e : ValidationError) : list ValidationError :=
  if b then [e] else [].

Definition isSome {A} (o : option A) : bool :=
  match o with Some _ => true | None => false end.

Definition negative (x : number) : bool := PrimFloat.ltb x 0%float.

Definition optNegative (x : option number) : bool :=
  match x with Some v => negative v | None => false end.

Definition badTemperature (g : GenerateConfig) : bool :=
  match temperature g with
  | Some t => PrimFloat.ltb t 0%float || PrimFloat.ltb 2%float t
  | None => false
  end.

(** The errors both validators push for the numeric ranges of a spec;
    only the strict one looks at [iterations]. *)
Definition rangeErrors (strict : bool) (sp : SegmentSpec) : list ValidationError :=
  let sid := Some (spec_id sp) in
  when (match return_ sp with Given r => negative (maxTokens r) | _ => false end)
       (mkError sid (Some "return.max_tokens") msgMaxTokens)
  ++ match generate sp with
     | Given g =>
         when (negative (gen_maxTokens g))
              (mkError sid (Some "generate.max_tokens") msgMaxTokens)
         ++ when (badTemperature g)
              (mkError sid (Some "generate.temperature") msgTemperature)
         ++ when (strict && optNegative (iterations g))
              (mkError sid (Some "generate.iterations") msgIterations)
     | _ => []
     end
  ++ when (optNegative (boost sp)) (mkError sid (Some "boost") msgBoost).

(** One iteration of the first loop of [validateSegments]. *)
Definition strictSpecErrors (seenIDs : gset string) (sp : SegmentSpec) : list ValidationError :=
  let sid := Some (spec_id sp) in
  when (bool_decide (spec_id sp ∈ seenIDs)) (mkError sid (Some "id") msgDuplicateSpec)
  ++ if String.eqb (spec_id sp) EmptyString
     then [mkError None (Some "id") msgEmptyId]
     else
       when (negb (given (return_ sp)) && negb (given (generate sp)))
            (mkError sid None msgNeither)
       ++ when (given (return_ sp) && given (generate sp)) (mkError sid None msgBoth)
       ++ rangeErrors true sp.

(** One iteration of the first loop of [validateLoose]. *)
Definition looseSpecErrors (seenIDs : gset string) (sp : SegmentSpec) : list ValidationError :=
  let sid := Some (spec_id sp) in
  when (bool_decide (spec_id sp ∈ seenIDs)) (mkError sid (Some "id") msgDuplicateSpec)
  ++ when (given (return_ sp) && given (generate sp)) (mkError sid None msgBoth)
  ++ rangeErrors false sp.

(** A loop over [items] that pushes [step seen x] onto [errors] and adds
    [key x] to the set of ids seen. *)
Definition scanWithSeen {A} (key : A -> string)
  (step : gset string -> A -> list ValidationError)
  (items : list A) (errors : list ValidationError)
  : list ValidationError * gset string :=
  fold_left (fun '(errs, seen) x => (errs ++ step seen x, {[key x]} ∪ seen))
            items (errors, ∅).

Definition strictMarkerErrors (markerIDs : gset string) (seg : SegmentInstance)
  : list ValidationError :=
  when (bool_decide (id seg ∈ markerIDs)) (mkError (Some (id seg)) None msgDuplicateMarker)
  ++ when (negb (isSome (spec seg))) (mkError (Some (id seg)) None msgMarkerWithoutSpec).

Definition looseMarkerErrors (markerIDs : gset string) (seg : SegmentInstance)
  : list ValidationError :=
  when (bool_decide (id seg ∈ markerIDs)) (mkError (Some (id seg)) None msgDuplicateMarker).

Definition orphanSpecErrors (markerIDs : gset string) (sp : SegmentSpec)
  : list ValidationError :=
  when (negb (bool_decide (spec_id sp ∈ markerIDs)))
       (mkError (Some (spec_id sp)) None msgSpecWithoutMarker).

Definition validateSegments (parsed : ParsedDoc) : list ValidationError :=
  let specs := default [] (specsOf (frontmatter parsed)) in
  let '(errors, _) := scanWithSeen spec_id strictSpecErrors specs [] in
  let '(errors, markerIDs) := scanWithSeen id strictMarkerErrors (segments parsed) errors in
  fold_left (fun errs sp => errs ++ orphanSpecErrors markerIDs sp) specs errors.

Definition validateStrict (parsed : ParsedDoc) : list ValidationError :=
  validateSegments parsed.

Definition validateLoose (parsed : ParsedDoc) : list ValidationError :=
  let specs := default [] (specsOf (frontmatter parsed)) in
  let '(errors, _) := scanWithSeen spec_id looseSpecErrors specs [] in
  let '(errors, _) := scanWithSeen id looseMarkerErrors (segments parsed) errors in
  errors.

End Segments.

(** *** Selections of a parsed document (primitives/segments/utils.ts) *)

Module SegmentUtils.

Import Segments.



End SegmentUtils.

(** ** Inline segment markers, scanned line by line (src/segments.ts) *)

Module LineSegments.

Record ParsedSegment := {
  key : string;
  type : option string;
  audience : option (list string);
  content : string;
  startLine : Z;
  endLine : Z
}.

(** The segment being collected, [currentSegment]. *)
Record OpenSegment := {
  open_key : string;
  open_type : option string;
  open_audience : option (list string);
  open_startLine : Z
}.

Definition attr (name : string) : string :=
  name +:+ "=" +:+ String JsString.DQUOTE EmptyString.

(** An optional attribute group (white space, the name, an equals sign
    and a quoted non-empty value): its capture, if it matched, and the
    text left. *)
Definition optionalAttr (name : string) (s : string) : option string * string :=
  match (r ← Regex.spaces1 s; r ← Regex.lit (attr name) r; Regex.quoted r) with
  | Some (v, r) => (Some v, r)
  | None => (None, s)
  end.

(** The start-marker pattern tested on each line. *)
Definition START_PATTERN : Regex.matcher := fun s =>
  r ← Regex.lit "<!--semcontext:segment" s;
  r ← Regex.spaces1 r;
  r ← Regex.lit "start" r;
  r ← Regex.spaces1 r;
  r ← Regex.lit (attr "key") r;
  '(k, r) ← Regex.quoted r;
  let '(ty, r) := optionalAttr "type" r in
  let '(au, r) := optionalAttr "audience" r in
  r ← Regex.lit "-->" (Regex.spaces0 r);
  Some ([Some k; ty; au], r).

Definition END_PATTERN : Regex.matcher := fun s =>
  r ← Regex.lit "<!--semcontext:segment" s;
  r ← Regex.spaces1 r;
  r ← Regex.lit "end" r;
  r ← Regex.lit "-->" (Regex.spaces0 r);
  Some ([], r).

(** What a line is to the scanner; the start pattern is tried first. *)
Inductive LineKind :=
| StartLine (k : string) (ty au : option string)
| EndLine
| TextLine.

Definition classify (line : string) : LineKind :=
  match Regex.search START_PATTERN line with
  | Some [Some k; ty; au] => StartLine k ty au
  | Some _ => TextLine
  | None =>
      match Regex.search END_PATTERN line with
      | Some _ => EndLine
      | None => TextLine
      end
  end.

Definition nestedError (lineNo : Z) : string :=
  "Nested segment markers not allowed at line " +:+ pretty lineNo.

Definition unmatchedError (lineNo : Z) : string :=
  "Unmatched end marker at line " +:+ pretty lineNo.

Definition unclosedError (k : string) : string :=
  "Unclosed segment marker: " +:+ k.

Definition splitAudience (a : string) : list string :=
  List.map JsString.trim (JsString.split "," a).

(** The variables of the loop: the line index, the segment being
    collected, its lines so far, and the segments closed so far. *)
Record ScanState := {
  i : Z;
  currentSegment : option OpenSegment;
  contentLines : list string;
  segments : list ParsedSegment
}.

Definition initialState : ScanState :=
  {| i := 0; currentSegment := None; contentLines := []; segments := [] |}.

(** One iteration of [for (let i = 0; i < lines.length; i++)]. *)
Definition stepLine (st : ScanState) (line : string) : result ScanState :=
  match classify line with
  | StartLine k ty au =>
      match currentSegment st with
      | Some _ => Err (nestedError (i st + 1))
      | None =>
          Ok {| i := i st + 1;
                currentSegment :=
                  Some {| open_key := k; open_type := ty;
                          open_audience := option_map splitAudience au;
                          open_startLine := i st + 1 |};
                contentLines := [];
                segments := segments st |}
      end
  | EndLine =>
      match currentSegment st with
      | None => Err (unmatchedError (i st + 1))
      | Some cur =>
          Ok {| i := i st + 1;
                currentSegment := None;
                contentLines := [];
                segments :=
                  segments st
                  ++ [{| key := open_key cur; type := open_type cur;
                         audience := open_audience cur;
                         content := JsString.join (String JsString.LF EmptyString)
                                                  (contentLines st);
                         startLine := open_startLine cur;
                         endLine := i st + 1 |}] |}
      end
  | TextLine =>
      Ok {| i := i st + 1;
            currentSegment := currentSegment st;
            contentLines :=
              match currentSegment st with
              | Some _ => contentLines st ++ [line]
              | None => contentLines st
              end;
            segments := segments st |}
  end.

Fixpoint scanLines (lines : list string) (st : ScanState) : result ScanState :=
  match lines with
  | [] => Ok st
  | line :: rest => bind (stepLine st line) (scanLines rest)
  end.

(** The check after the loop. *)
Definition finish (st : ScanState) : result (list ParsedSegment) :=
  match currentSegment st with
  | Some cur => Err (unclosedError (open_key cur))
  | None => Ok (segments st)
  end.

(** [parseSegments] on the lines of the document. *)
Definition parseLines (lines : list string) : result (list ParsedSegment) :=
  bind (scanLines lines initialState) finish.

Definition parseSegments (markdown : string) : result (list ParsedSegment) :=
  parseLines (JsString.split JsString.LF markdown).

Definition validateSegments (segments : list ParsedSegment) : list string :=
  fst (fold_left
         (fun '(errors, keys) seg =>
            (errors
               ++ (if bool_decide (key seg ∈ keys)
                   then ["Duplicate segment key: " +:+ key seg] else [])
               ++ (if String.eqb (key seg) EmptyString
                   then ["Segment missing required 'key' field"] else []),
             {[key seg]} ∪ keys))
         segments ([], (∅ : gset string))).

Definition findSegment (segments : list ParsedSegment) (k : string) : option ParsedSegment :=
  List.find (fun s => String.eqb (key s) k) segments.

End LineSegments.

(** *** The content of one segment (src/segments.ts, extractSegmentContent) *)

Module LineContent.

Import LineSegments.

(** [segment?.content || null]: an empty content is falsy. *)
Definition extractSegmentContent (markdown k : string) : result (option string) :=
  bind (parseSegments markdown) (fun segments =>
  Ok (match findSegment segments k with
      | Some segment =>
          match content segment with
          | EmptyString => None
          | c => Some c
          end
      | None => None
      end)).

End LineContent.

(** ** Page aggregation over external annotations (aggregatePageMetadata) *)

Module Aggregate.

Abbreviation number := PrimFloat.float.

Definition truthyNumber (x : number) : bool := Segments.truthyNumber x.

(** [string | string[]] *)
Inductive OneOrMany :=
| One (s : string)
| Many (l : list string).

Record TokenConfig := {
  max_tokens : option number;
  min_tokens : option number
}.

(** The fields of an annotated segment that the aggregation reads;
    [semantics] is the list of its entries. [generate] extends the token
    configuration with fields that are not read here. *)
Record AnnotatedSegment := {
  id : string;
  concepts : option OneOrMany;
  audience_role : option OneOrMany;
  boost : option number;
  semantics : option (list (string * list string));
  segment_checksum : option string;
  return_ : option TokenConfig;
  generate : option TokenConfig
}.

Record ExternalAnnotations := {
  version : string;
  source_file : string;
  page_semantics : option (list (string * list string));
  segments : list AnnotatedSegment
}.

Record TokenBudget := {
  total_return_max : number;
  total_return_min : number;
  total_generate_max : option number;
  total_generate_min : option number
}.

Record PageAggregation := {
  agg_concepts : list string;
  agg_audience_role : list string;
  agg_semantics : list (string * list string);
  token_budget : TokenBudget;
  average_boost : number;
  segment_count : nat;
  segment_checksums : list string;
  page_checksum : string
}.

(** [set.add(x)] on a [Set] kept in insertion order. *)
Definition setAdd (x : string) (set : list string) : list string :=
  if existsb (String.eqb x) set then set else set ++ [x].

Definition setAddAll (xs : list string) (set : list string) : list string :=
  fold_left (fun acc x => setAdd x acc) xs set.

(** [x ? (Array.isArray(x) ? x : [x]) : nothing]: an empty string is falsy. *)
Definition toList (x : option OneOrMany) : list string :=
  match x with
  | Some (Many l) => l
  | Some (One EmptyString) => []
  | Some (One s) => [s]
  | None => []
  end.

(** [values.forEach(v => semantics[key].add(v))] when [semantics[key]] exists. *)
Definition addSemantics (sem : list (string * list string)) (entry : string * list string)
  : list (string * list string) :=
  List.map (fun '(k, set) => if String.eqb k (fst entry) then (k, setAddAll (snd entry) set) else (k, set))
           sem.

Definition initialSemantics : list (string * list string) :=
  List.map (fun k => (k, []))
    ["tasks"; "problems"; "solutions"; "outcomes"; "validations"; "next_steps";
     "impacts"; "features"].

(** The accumulators of the loop over the segments. *)
Record Accum := {
  acc_concepts : list string;
  acc_audienceRoles : list string;
  acc_semantics : list (string * list string);
  totalReturnMax : number;
  totalReturnMin : number;
  totalGenerateMax : number;
  totalGenerateMin : number;
  weightedBoostSum : number;
  totalTokens : number;
  segmentChecksums : list string
}.

(** [total += x] when [x] is defined and truthy. *)
Definition addIfTruthy (total : number) (x : option number) : number :=
  match x with
  | Some v => if truthyNumber v then PrimFloat.add total v else total
  | None => total
  end.

(** [x || d] on an optional number. *)
Definition orNumber (x : option number) (d : number) : number :=
  match x with
  | Some v => if truthyNumber v then v else d
  | None => d
  end.

Definition maxTokensOf (c : option TokenConfig) : option number :=
  match c with Some t => max_tokens t | None => None end.

Definition minTokensOf (c : option TokenConfig) : option number :=
  match c with Some t => min_tokens t | None => None end.

(** One iteration of [for (const segment of annotations.segments)]. *)
Definition step (a : Accum) (segment : AnnotatedSegment) : Accum :=
  let segmentTokens := orNumber (maxTokensOf (return_ segment)) 0%float in
  let boost := orNumber (boost segment) 1%float in
  {| acc_concepts := setAddAll (toList (concepts segment)) (acc_concepts a);
     acc_audienceRoles := setAddAll (toList (audience_role segment)) (acc_audienceRoles a);
     acc_semantics := fold_left addSemantics (default [] (semantics segment)) (acc_semantics a);
     totalReturnMax := addIfTruthy (totalReturnMax a) (maxTokensOf (return_ segment));
     totalReturnMin := addIfTruthy (totalReturnMin a) (minTokensOf (return_ segment));
     totalGenerateMax := addIfTruthy (totalGenerateMax a) (maxTokensOf (generate segment));
     totalGenerateMin := addIfTruthy (totalGenerateMin a) (minTokensOf (generate segment));
     weightedBoostSum := PrimFloat.add (weightedBoostSum a) (PrimFloat.mul boost segmentTokens);
     totalTokens := addIfTruthy (totalTokens a) (maxTokensOf (return_ segment));
     segmentChecksums :=
       match segment_checksum segment with
       | Some EmptyString | None => segmentChecksums a
       | Some c => segmentChecksums a ++ [c]
       end |}.

Definition initial (annotations : ExternalAnnotations) : Accum :=
  {| acc_concepts := [];
     acc_audienceRoles := [];
     acc_semantics := fold_left addSemantics (default [] (page_semantics annotations)) initialSemantics;
     totalReturnMax := 0%float;
     totalReturnMin := 0%float;
     totalGenerateMax := 0%float;
     totalGenerateMin := 0%float;
     weightedBoostSum := 0%float;
     totalTokens := 0%float;
     segmentChecksums := [] |}.

Definition orUndefined (x : number) : option number :=
  if truthyNumber x then Some x else None.

Section Checksum.

(** [crypto.createHash('sha256').update(s).digest('hex')], injected. *)
Variable sha256_hex : string -> string.

Definition aggregatePageMetadata (annotations : ExternalAnnotations) : PageAggregation :=
  let a := fold_left step (segments annotations) (initial annotations) in
  {| agg_concepts := acc_concepts a;
     agg_audience_role := acc_audienceRoles a;
     agg_semantics := List.filter (fun '(_, set) => negb (Nat.eqb (length set) 0)) (acc_semantics a);
     token_budget :=
       {| total_return_max := totalReturnMax a;
          total_return_min := totalReturnMin a;
          total_generate_max := orUndefined (totalGenerateMax a);
          total_generate_min := orUndefined (totalGenerateMin a) |};
     average_boost :=
       if PrimFloat.ltb 0%float (totalTokens a)
       then PrimFloat.div (weightedBoostSum a) (totalTokens a)
       else 1%float;
     segment_count := length (segments annotations);
     segment_checksums := segmentChecksums a;
     page_checksum :=
       match segmentChecksums a with
       | [] => EmptyString
       | cs => "sha256:" +:+ sha256_hex (JsString.join "|" cs)
       end |}.

End Checksum.

End Aggregate.

(** ** Project aggregation over the pages (aggregateProjectMetadata) *)

Module ProjectAggregate.

Import Aggregate.

Record PageSummary := {
  ps_source_file : string;
  page_aggregation : PageAggregation
}.

Record ProjectTotals := {
  pa_concepts : list string;
  pa_audience_role : list string;
  pa_semantics : list (string * list string);
  pa_token_budget : TokenBudget;
  pa_average_boost : number;
  page_count : nat;
  pa_segment_count : nat;
  page_checksums : list string;
  project_checksum : string
}.

Record ProjectAggregation := {
  project : string;
  project_version : option string;
  project_aggregation : ProjectTotals;
  pages : list PageSummary
}.

Definition initialProjectSemantics : list (string * list string) :=
  List.map (fun k => (k, []))
    ["tasks"; "problems"; "solutions"; "outcomes"; "features"; "personas"].

(** [if (!semantics[key]) semantics[key] = new Set()], then the values
    are added to the set of the key. *)
Definition mergeSemantics (sem : list (string * list string)) (entry : string * list string)
  : list (string * list string) :=
  let sem := if existsb (fun e => String.eqb (fst e) (fst entry)) sem
             then sem else sem ++ [(fst entry, [])] in
  addSemantics sem entry.

(** The accumulators of the loop over the pages. *)
Record ProjectAccum := {
  pacc_concepts : list string;
  pacc_audienceRoles : list string;
  pacc_semantics : list (string * list string);
  pacc_totalReturnMax : number;
  pacc_totalReturnMin : number;
  pacc_totalGenerateMax : number;
  pacc_totalGenerateMin : number;
  pacc_weightedBoostSum : number;
  pacc_totalTokens : number;
  pacc_totalSegments : nat;
  pacc_pageChecksums : list string;
  pacc_pageSummaries : list PageSummary
}.

Definition initialProject : ProjectAccum :=
  {| pacc_concepts := [];
     pacc_audienceRoles := [];
     pacc_semantics := initialProjectSemantics;
     pacc_totalReturnMax := 0%float;
     pacc_totalReturnMin := 0%float;
     pacc_totalGenerateMax := 0%float;
     pacc_totalGenerateMin := 0%float;
     pacc_weightedBoostSum := 0%float;
     pacc_totalTokens := 0%float;
     pacc_totalSegments := 0%nat;
     pacc_pageChecksums := [];
     pacc_pageSummaries := [] |}.

Section ProjectChecksum.

Variable sha256_hex : string -> string.

(** One iteration of [for (const page of pages)]. *)
Definition stepPage (a : ProjectAccum) (page : ExternalAnnotations) : ProjectAccum :=
  let pageAgg := aggregatePageMetadata sha256_hex page in
  let budget := token_budget pageAgg in
  {| pacc_concepts := setAddAll (agg_concepts pageAgg) (pacc_concepts a);
     pacc_audienceRoles := setAddAll (agg_audience_role pageAgg) (pacc_audienceRoles a);
     pacc_semantics := fold_left mergeSemantics (agg_semantics pageAgg) (pacc_semantics a);
     pacc_totalReturnMax := PrimFloat.add (pacc_totalReturnMax a) (total_return_max budget);
     pacc_totalReturnMin := PrimFloat.add (pacc_totalReturnMin a) (total_return_min budget);
     pacc_totalGenerateMax :=
       PrimFloat.add (pacc_totalGenerateMax a) (orNumber (total_generate_max budget) 0%float);
     pacc_totalGenerateMin :=
       PrimFloat.add (pacc_totalGenerateMin a) (orNumber (total_generate_min budget) 0%float);
     pacc_weightedBoostSum :=
       PrimFloat.add (pacc_weightedBoostSum a)
                     (PrimFloat.mul (average_boost pageAgg) (total_return_max budget));
     pacc_totalTokens := PrimFloat.add (pacc_totalTokens a) (total_return_max budget);
     pacc_totalSegments := (pacc_totalSegments a + segment_count pageAgg)%nat;
     pacc_pageChecksums := pacc_pageChecksums a ++ [page_checksum pageAgg];
     pacc_pageSummaries :=
       pacc_pageSummaries a
       ++ [{| ps_source_file := source_file page; page_aggregation := pageAgg |}] |}.

Definition aggregateProjectMetadata (pages : list ExternalAnnotations)
  (projectId : string) (projectVersion : option string) : ProjectAggregation :=
  let a := fold_left stepPage pages initialProject in
  {| project := projectId;
     project_version := projectVersion;
     project_aggregation :=
       {| pa_concepts := pacc_concepts a;
          pa_audience_role := pacc_audienceRoles a;
          pa_semantics :=
            List.filter (fun '(_, set) => negb (Nat.eqb (length set) 0)) (pacc_semantics a);
          pa_token_budget :=
            {| total_return_max := pacc_totalReturnMax a;
               total_return_min := pacc_totalReturnMin a;
               total_generate_max := orUndefined (pacc_totalGenerateMax a);
               total_generate_min := orUndefined (pacc_totalGenerateMin a) |};
          pa_average_boost :=
            if PrimFloat.ltb 0%float (pacc_totalTokens a)
            then PrimFloat.div (pacc_weightedBoostSum a) (pacc_totalTokens a)
            else 1%float;
          page_count := length pages;
          pa_segment_count := pacc_totalSegments a;
          page_checksums := pacc_pageChecksums a;
          project_checksum :=
            "sha256:" +:+ sha256_hex (JsString.join "|" (pacc_pageChecksums a)) |};
     pages := pacc_pageSummaries a |}.

End ProjectChecksum.

End ProjectAggregate.

(** ** External annotations: locating a segment and its checksum
    (annotations.ts) *)

Module Annotations.

(** [byte_range] and [line_range]: two offsets, or two line numbers
    counted from one. *)
Record Range := { start : Z; end_ : Z }.

(** An annotated segment with the fields that the two functions read. *)
Record AnnotatedSegment := {
  id : string;
  byte_range : option Range;
  line_range : option Range;
  segment_checksum : option string
}.

Definition extractSegmentContent (source : string) (segment : AnnotatedSegment)
  : option string :=
  match line_range segment with
  | Some lr =>
      let lines := JsString.split JsString.LF source in
      Some (JsString.join (String JsString.LF EmptyString)
              (JsArray.slice lines (start lr - 1) (end_ lr)))
  | None =>
      match byte_range segment with
      | Some br => Some (JsString.substring source (start br) (end_ br))
      | None => None
      end
  end.

(** [sha256Fn] is the hash function the caller passes; a missing or
    empty checksum validates, an empty content never does. *)
Definition validateSegmentChecksum (source : string) (segment : AnnotatedSegment)
  (sha256Fn : string -> string) : bool :=
  match segment_checksum segment with
  | None | Some EmptyString => true
  | Some checksum =>
      match extractSegmentContent source segment with
      | None | Some EmptyString => false
      | Some content => String.eqb checksum ("sha256:" +:+ sha256Fn content)
      end
  end.

End Annotations.

(** ** Journeys: validation and cycle detection *)

Module Journeys.

Record NodeConnection := {
  target_node_id : option string;
  target_journey : option string;
  label : option string;
  condition : option string
}.

Inductive NodeType := stage | milestone | decision | jump_off.

(** A node with the fields that validation reads ([description],
    [position], the reference lists and the like are left out).
    [connections] is absent on nodes that declare none. *)
Record JourneyNode := {
  id : string;
  type : NodeType;
  key : string;
  name : string;
  connections : option (list NodeConnection)
}.

(** A journey with the fields that validation reads. *)
Record Journey := {
  journey_id : string;
  journey_key : string;
  journey_name : string;
  projects : list string;
  nodes : list JourneyNode
}.

(** [(node.connections ?? []).map(c => c.target_node_id).filter(Boolean)] *)
Definition targets (node : JourneyNode) : list string :=
  omap (fun c => match target_node_id c with
                 | Some EmptyString | None => None
                 | Some t => Some t
                 end)
       (default [] (connections node)).

(** The adjacency map: a later node with the same id replaces the entry. *)
Definition buildGraph (nodes : list JourneyNode) : gmap string (list string) :=
  fold_left (fun g node => <[id node := targets node]> g) nodes ∅.

Record DfsState := {
  visited : gset string;
  recStack : gset string
}.

(** The loop over the neighbours inside [dfs]; [call] is the recursive
    call. [None] stands for a recursion that has not returned. *)
Fixpoint visitNeighbors (call : string -> DfsState -> option (bool * DfsState))
  (neighbors : list string) (st : DfsState) : option (bool * DfsState) :=
  match neighbors with
  | [] => Some (false, st)
  | neighbor :: rest =>
      if bool_decide (neighbor ∉ visited st) then
        match call neighbor st with
        | Some (true, st') => Some (true, st')
        | Some (false, st') => visitNeighbors call rest st'
        | None => None
        end
      else if bool_decide (neighbor ∈ recStack st) then Some (true, st)
      else visitNeighbors call rest st
  end.

(** [dfs(nodeId)] with the two sets threaded through; [fuel] bounds the
    depth of the recursion. *)
Fixpoint dfs (fuel : nat) (graph : gmap string (list string)) (nodeId : string)
  (st : DfsState) : option (bool * DfsState) :=
  match fuel with
  | O => None
  | S fuel' =>
      let st1 := {| visited := {[nodeId]} ∪ visited st;
                    recStack := {[nodeId]} ∪ recStack st |} in
      match visitNeighbors (dfs fuel' graph) (default [] (graph !! nodeId)) st1 with
      | Some (true, st2) => Some (true, st2)
      | Some (false, st2) =>
          Some (false, {| visited := visited st2;
                          recStack := recStack st2 ∖ {[nodeId]} |})
      | None => None
      end
  end.

(** The final loop of [hasCycles] over the declared nodes. *)
Fixpoint visitAll (fuel : nat) (graph : gmap string (list string))
  (nodes : list JourneyNode) (st : DfsState) : option bool :=
  match nodes with
  | [] => Some false
  | node :: rest =>
      if bool_decide (id node ∉ visited st) then
        match dfs fuel graph (id node) st with
        | Some (true, _) => Some true
        | Some (false, st') => visitAll fuel graph rest st'
        | None => None
        end
      else visitAll fuel graph rest st
  end.

(** Every identifier the traversal can meet: the keys and the targets. *)
Definition universe (nodes : list JourneyNode) : gset string :=
  list_to_set (List.map id nodes) ∪ list_to_set (List.flat_map targets nodes).

Definition hasCyclesWithin (fuel : nat) (nodes : list JourneyNode) : option bool :=
  visitAll fuel (buildGraph nodes) nodes {| visited := ∅; recStack := ∅ |}.

(** [hasCycles]: the recursion is never deeper than the number of
    identifiers, see [hasCyclesWithin_total]. *)
Definition hasCycles (nodes : list JourneyNode) : bool :=
  default false (hasCyclesWithin (S (size (universe nodes))) nodes).

Definition cycleMessage : string := "Journey graph contains cycles (must be DAG)".

Definition nodeErrors (nodeIds : gset string) (node : JourneyNode) : list string :=
  (if String.eqb (id node) EmptyString then ["Node ID is required"] else [])
  ++ (if bool_decide (id node ∈ nodeIds) then ["Duplicate node ID: " +:+ id node] else []).

Definition validateNodes (nodes : list JourneyNode) (errors : list string) : list string :=
  fst (fold_left (fun '(errs, nodeIds) node =>
                    (errs ++ nodeErrors nodeIds node, {[id node]} ∪ nodeIds))
                 nodes (errors, (∅ : gset string))).

Definition validateJourney (journey : Journey) : list string :=
  let errors :=
    (if String.eqb (journey_id journey) EmptyString then ["Journey ID is required"] else [])
    ++ (if String.eqb (journey_key journey) EmptyString then ["Journey key is required"] else [])
    ++ (if String.eqb (journey_name journey) EmptyString then ["Journey name is required"] else [])
    ++ (match projects journey with [] => ["At least one project required"] | _ => [] end)
    ++ (match nodes journey with [] => ["At least one node required"] | _ => [] end) in
  let errors := validateNodes (nodes journey) errors in
  errors ++ (if hasCycles (nodes journey) then [cycleMessage] else []).

End Journeys.

(** ** Concept graphs (src/concepts.ts) *)

Module Concepts.

Abbreviation number := PrimFloat.float.

Inductive Status := active | deprecated | proposed.
Inductive Source := manual | discovered | imported.
Inductive Kind := parent | related | implements | documents | depends_on.

(** A concept and a relationship, without the optional fields that no
    function reads ([description], [aliases], [tags], [bidirectional]). *)
Record Concept := {
  id : string;
  key : string;
  name : string;
  status : Status;
  source : Source;
  confidence : option number
}.

Record ConceptRelationship := {
  rel_from : string;
  rel_to : string;
  kind : Kind;
  weight : number
}.

Record ConceptGraph := {
  concepts : list Concept;
  relationships : list ConceptRelationship
}.

Definition conceptPrefix : string := "concept:@".

(** [s.replace(/^concept:@/, '')] *)
Definition stripPrefix (s : string) : string :=
  match Regex.lit conceptPrefix s with
  | Some r => r
  | None => s
  end.

Definition msgDiscovered (i : string) : string :=
  "Discovered concept " +:+ i +:+ " must have confidence score".
Definition msgManual (i : string) : string :=
  "Manual concept " +:+ i +:+ " should not have confidence score".
Definition msgConfidenceRange (i : string) : string :=
  "Invalid confidence for " +:+ i +:+ ": must be 0.0-1.0".
Definition msgDuplicate (i : string) : string := "Duplicate concept ID: " +:+ i.
Definition msgDangling (r : string) : string :=
  "Relationship references non-existent concept: " +:+ r.

Definition isDiscovered (s : Source) : bool :=
  match s with discovered => true | _ => false end.
Definition isManual (s : Source) : bool :=
  match s with manual => true | _ => false end.
Definition isParent (k : Kind) : bool :=
  match k with parent => true | _ => false end.

Definition outOfUnit (x : number) : bool :=
  PrimFloat.ltb x 0%float || PrimFloat.ltb 1%float x.

Definition say (b : bool) (msg : string) : list string := if b then [msg] else [].

(** The pairing and range checks of one concept. *)
Definition confidenceErrors (concept : Concept) : list string :=
  say (isDiscovered (source concept) && negb (Segments.isSome (confidence concept)))
      (msgDiscovered (id concept))
  ++ say (isManual (source concept) && Segments.isSome (confidence concept))
      (msgManual (id concept))
  ++ say (match confidence concept with Some c => outOfUnit c | None => false end)
      (msgConfidenceRange (id concept)).

(** One iteration of the loop over [graph.concepts]. *)
Definition conceptErrors (conceptIds : gset string) (concept : Concept) : list string :=
  say (String.eqb (id concept) EmptyString) "Concept ID is required"
  ++ say (String.eqb (key concept) EmptyString) "Concept key is required"
  ++ say (String.eqb (name concept) EmptyString) "Concept name is required"
  ++ say (bool_decide (id concept ∈ conceptIds)) (msgDuplicate (id concept))
  ++ confidenceErrors concept.

(** One iteration of the loop over [graph.relationships]. *)
Definition relationshipErrors (conceptIds : gset string) (rel : ConceptRelationship)
  : list string :=
  say (bool_decide (stripPrefix (rel_from rel) ∉ conceptIds)) (msgDangling (rel_from rel))
  ++ say (bool_decide (stripPrefix (rel_to rel) ∉ conceptIds)) (msgDangling (rel_to rel))
  ++ say (outOfUnit (weight rel)) "Invalid relationship weight: must be 0.0-1.0"
  ++ say (String.eqb (rel_from rel) (rel_to rel)) "Self-referencing relationships not allowed".

Definition validateConcepts (graph : ConceptGraph) : list string :=
  let '(errors, conceptIds) :=
    fold_left (fun '(errs, ids) c => (errs ++ conceptErrors ids c, {[id c]} ∪ ids))
              (concepts graph) ([], (∅ : gset string)) in
  fold_left (fun errs rel => errs ++ relationshipErrors conceptIds rel)
            (relationships graph) errors.

Inductive Hierarchy :=
| HNode (concept : Concept) (children : list Hierarchy).

(** [results.map(...)] when every call returned: the values, in order. *)
Fixpoint sequence {A} (l : list (option A)) : option (list A) :=
  match l with
  | [] => Some []
  | x :: r =>
      match x, sequence r with
      | Some a, Some r' => Some (a :: r')
      | _, _ => None
      end
  end.

(** [buildConceptHierarchy]: the outer [None] is a recursion deeper than
    [fuel]; [Some None] is the [null] result. *)
Fixpoint buildConceptHierarchy (fuel : nat) (graph : ConceptGraph) (rootKey : string)
  : option (option Hierarchy) :=
  match fuel with
  | O => None
  | S fuel' =>
      match List.find (fun c => String.eqb (key c) rootKey) (concepts graph) with
      | None => Some None
      | Some root =>
          let edges :=
            List.filter (fun r => String.eqb (rel_to r) (conceptPrefix +:+ id root)
                                  && isParent (kind r))
                        (relationships graph) in
          let results :=
            List.map (fun r =>
                        let childId := stripPrefix (rel_from r) in
                        match List.find (fun c => String.eqb (id c) childId) (concepts graph) with
                        | Some child => buildConceptHierarchy fuel' graph (key child)
                        | None => Some None
                        end)
                     edges in
          match sequence results with
          | Some children => Some (Some (HNode root (omap (fun x => x) children)))
          | None => None
          end
      end
  end.

End Concepts.

(** ** Code and documentation linkage (src/linkage.ts) *)

Module Linkage.

Inductive Relevance := primary | supporting | related.

Record Segment := {
  seg_id : string;
  heading : string;
  seg_lines : Z * Z
}.

Record Asset := {
  path : string;
  asset_segments : option (list Segment);
  relevance : Relevance;
  doc_type : string
}.

(** The optional time stamps of a mapping are left out. *)
Record CodeMapping := { assets : list Asset }.

Record CodeRef := {
  code_path : string;
  functions : list string;
  lines : Z * Z
}.

Record AssetMapping := { code_refs : list CodeRef }.

(** The two records are the lists of their entries, in the order
    [Object.entries] yields them. *)
Record Linkage := {
  version : string;
  code_to_assets : list (string * CodeMapping);
  asset_to_code : list (string * AssetMapping)
}.

(** [record[k]] is truthy: the record has an entry with the key [k]
    (its value is a mapping object), or [k] names a member that the
    record inherits as every plain object does. *)
Definition hasKey {V} (record : list (string * V)) (k : string) : bool :=
  JsObject.truthyAt record k.

Definition msgMissingReverse (p : string) : string :=
  "Missing reverse mapping: " +:+ p +:+ " not in asset_to_code".

Definition msgMissingForward (symbol : string) : string :=
  "Missing forward mapping: " +:+ symbol +:+ " not in code_to_assets".

Definition symbolOf (codeRef : CodeRef) (func : string) : string :=
  code_path codeRef +:+ ":" +:+ func.

(** [for (...) { ... errors.push(...) }]: a loop whose body may push onto
    [errors]. *)
Definition forEach {A} (items : list A) (body : list string -> A -> list string)
  (errors : list string) : list string :=
  fold_left body items errors.

Definition validateBidirectionalConsistency (linkage : Linkage) : list string :=
  let errors := [] in
  let errors :=
    forEach (code_to_assets linkage) (fun errors '(symbol, mapping) =>
      forEach (assets mapping) (fun errors asset =>
        if negb (hasKey (asset_to_code linkage) (path asset))
        then errors ++ [msgMissingReverse (path asset)]
        else errors) errors) errors in
  let errors :=
    forEach (asset_to_code linkage) (fun errors '(docPath, mapping) =>
      forEach (code_refs mapping) (fun errors codeRef =>
        forEach (functions codeRef) (fun errors func =>
          let symbol := symbolOf codeRef func in
          if negb (hasKey (code_to_assets linkage) symbol)
          then errors ++ [msgMissingForward symbol]
          else errors) errors) errors) errors in
  errors.

(** Setting [linkage.asset_to_code[p] = mapping] for a new key [p]. *)
Definition addReverse (linkage : Linkage) (p : string) (mapping : AssetMapping) : Linkage :=
  {| version := version linkage;
     code_to_assets := code_to_assets linkage;
     asset_to_code := asset_to_code linkage ++ [(p, mapping)] |}.

End Linkage.

(** *** The two queries of a linkage (src/linkage.ts) *)

Module LinkageQueries.

Import Linkage.

(** [record[k]] as the two queries use it: the value of the record's own
    entry with the key [k]. For a key without an entry the read gives
    [undefined] or a member inherited from [Object.prototype]; neither
    has an [assets] or a [code_refs] property, so the optional chain of
    both queries ends in [undefined] and the query answers with the
    empty list, which is the [None] case here. *)
Definition lookup {V} (record : list (string * V)) (k : string) : option V :=
  option_map snd (List.find (fun e => String.eqb (fst e) k) record).

(** [mapping?.assets || []] *)
Definition findDocsForSymbol (linkage : Linkage) (symbol : string) : list Asset :=
  match lookup (code_to_assets linkage) symbol with
  | Some mapping => assets mapping
  | None => []
  end.

(** [mapping?.code_refs || []] *)
Definition findCodeForDoc (linkage : Linkage) (docPath : string) : list CodeRef :=
  match lookup (asset_to_code linkage) docPath with
  | Some mapping => code_refs mapping
  | None => []
  end.

End LinkageQueries.

(** ** Navigation trees (navigation/types.ts, builder.ts) *)

Module Navigation.

(** The one key of [metadata] that the builder reads. *)
Record Metadata := { md_versions : option (list string) }.

(** An item, without the display fields [icon], [badge] and [order]. *)
Inductive NavigationItem :=
| Item (id title : string) (link : option string)
       (children : option (list NavigationItem))
       (noLink : option bool) (metadata : option Metadata).

Definition id (i : NavigationItem) : string :=
  match i with Item x _ _ _ _ _ => x end.
Definition children (i : NavigationItem) : option (list NavigationItem) :=
  match i with Item _ _ _ c _ _ => c end.
Definition metadata (i : NavigationItem) : option Metadata :=
  match i with Item _ _ _ _ _ m => m end.

Record NavigationTree := {
  tree_id : string;
  label : option string;
  items : list NavigationItem;
  versions : option (list string);
  default_ : option bool
}.

(** [vs.includes(version)] *)
Definition includes (vs : list string) (version : string) : bool :=
  existsb (String.eqb version) vs.

(** [(item.metadata?.versions as string[]) || tree.versions] *)
Definition itemVersions (treeVersions : option (list string)) (item : NavigationItem)
  : option (list string) :=
  match metadata item with
  | Some {| md_versions := Some vs |} => Some vs
  | _ => treeVersions
  end.

(** The predicate given to [filter]. *)
Definition keeps (treeVersions : option (list string)) (version : string)
  (item : NavigationItem) : bool :=
  match itemVersions treeVersions item with
  | None => true
  | Some vs => includes vs version
  end.

(** The function given to [map]: the item with its children filtered.
    The inner loop is [filterItems] on the children, see
    [filterItems_children]. *)
Fixpoint pruneItem (treeVersions : option (list string)) (version : string)
  (item : NavigationItem) : NavigationItem :=
  match item with
  | Item i t l cs n m =>
      Item i t l
        (option_map
           (fix filterChildren (l : list NavigationItem) : list NavigationItem :=
              match l with
              | [] => []
              | c :: r =>
                  if keeps treeVersions version c
                  then pruneItem treeVersions version c :: filterChildren r
                  else filterChildren r
              end)
           cs)
        n m
  end.

Definition filterItems (treeVersions : option (list string)) (version : string)
  (items : list NavigationItem) : list NavigationItem :=
  List.map (pruneItem treeVersions version)
           (List.filter (keeps treeVersions version) items).

Definition withItems (tree : NavigationTree) (its : list NavigationItem) : NavigationTree :=
  {| tree_id := tree_id tree; label := label tree; items := its;
     versions := versions tree; default_ := default_ tree |}.

Definition filterByVersion (tree : NavigationTree) (version : string) : NavigationTree :=
  match versions tree with
  | Some vs =>
      if negb (includes vs version) then withItems tree []
      else withItems tree (filterItems (versions tree) version (items tree))
  | None => withItems tree (filterItems (versions tree) version (items tree))
  end.

End Navigation.

(** ** Navigation: building, flattening and searching a tree (builder.ts) *)

Module NavigationBuilder.

Import Navigation.

(** [normalizeItem]: [noLink] defaults to [false], at every depth. *)
Fixpoint normalizeItem (item : NavigationItem) : NavigationItem :=
  match item with
  | Item i t l cs n m =>
      Item i t l (option_map (List.map normalizeItem) cs) (Some (default false n)) m
  end.

Definition buildTree (config : NavigationTree) : NavigationTree :=
  withItems config (List.map normalizeItem (items config)).

Record FlatNavigationItem := {
  flat_item : NavigationItem;
  level : Z;
  path : list string;
  parentId : option string;
  hasChildren : bool
}.

(** [(item.children?.length || 0) > 0] *)
Definition childCount (item : NavigationItem) : Z :=
  match children item with
  | Some cs => Z.of_nat (length cs)
  | None => 0
  end.

(** The body of the [forEach] of [traverse]: the item is pushed, then its
    children are traversed one level down. *)
Fixpoint traverseItem (level : Z) (path : list string) (parentId : option string)
  (item : NavigationItem) : list FlatNavigationItem :=
  match item with
  | Item i _ _ cs _ _ =>
      let itemPath := path ++ [i] in
      {| flat_item := item; level := level; path := itemPath; parentId := parentId;
         hasChildren := 0 <? childCount item |}
        :: match cs with
           | Some cl => List.flat_map (traverseItem (level + 1) itemPath (Some i)) cl
           | None => []
           end
  end.

Definition traverse (level : Z) (path : list string) (parentId : option string)
  (items : list NavigationItem) : list FlatNavigationItem :=
  List.flat_map (traverseItem level path parentId) items.

Definition flattenTree (tree : NavigationTree) : list FlatNavigationItem :=
  traverse 0 [] None (items tree).

(** One turn of the loop of [search]: the item itself, then its children. *)
Fixpoint searchItem (i : string) (item : NavigationItem) : option NavigationItem :=
  match item with
  | Item x _ _ cs _ _ =>
      if String.eqb x i then Some item
      else
        match cs with
        | Some cl =>
            (fix search (l : list NavigationItem) : option NavigationItem :=
               match l with
               | [] => None
               | c :: r =>
                   match searchItem i c with
                   | Some found => Some found
                   | None => search r
                   end
               end) cl
        | None => None
        end
  end.

Fixpoint search (i : string) (items : list NavigationItem) : option NavigationItem :=
  match items with
  | [] => None
  | c :: r =>
      match searchItem i c with
      | Some found => Some found
      | None => search i r
      end
  end.

Definition findItem (tree : NavigationTree) (i : string) : option NavigationItem :=
  search i (items tree).

Definition hasId (i : string) (f : FlatNavigationItem) : bool :=
  String.eqb (id (flat_item f)) i.

Definition getBreadcrumbs (tree : NavigationTree) (itemId : string)
  : list FlatNavigationItem :=
  let flat := flattenTree tree in
  match List.find (hasId itemId) flat with
  | None => []
  | Some item => omap (fun i => List.find (hasId i) flat) (path item)
  end.

End NavigationBuilder.

(** ** StrongLinks: the in-memory registry (stronglinks/registry.ts) *)

Module StrongLinks.

Record LinkTarget := {
  id : string;
  segmentRef : option string;
  pageRef : option string;
  url : string;
  title : option string;
  description : option string;
  version : option string
}.

(** [{ ...target, id }] *)
Definition withId (target : LinkTarget) (i : string) : LinkTarget :=
  {| id := i; segmentRef := segmentRef target; pageRef := pageRef target;
     url := url target; title := title target; description := description target;
     version := version target |}.

(** The state of a [Registry]: its [links]. *)
Definition Registry : Type := JsMap.t LinkTarget.

Definition newRegistry : Registry := [].

Definition register (r : Registry) (i : string) (target : LinkTarget) : Registry :=
  JsMap.set i (withId target i) r.

(** [this.links.get(id) || null]: a stored target is an object, hence truthy. *)
Definition resolve (r : Registry) (i : string) : option LinkTarget := JsMap.get i r.

Definition has (r : Registry) (i : string) : bool := JsMap.has i r.

Definition all (r : Registry) : list LinkTarget := JsMap.values r.

(** [config] is the list of the entries of the configuration object; its
    values carry no [id] of their own, the field is set from the key. *)
Definition loadFromConfig (r : Registry) (config : list (string * LinkTarget)) : Registry :=
  fold_left (fun r '(i, target) => register r i (withId target i)) config r.

Definition createRegistry (config : option (list (string * LinkTarget))) : Registry :=
  match config with
  | Some c => loadFromConfig newRegistry c
  | None => newRegistry
  end.

End StrongLinks.

(** ** Frontmatter of a Markdown page (src/frontmatter.ts) *)

Module Frontmatter.

Abbreviation number := PrimFloat.float.

Record GenerateDefinition := {
  gen_max_tokens : option number;
  gen_min_tokens : option number;
  temperature : option number
}.

(** A segment definition with the fields that validation reads; an
    absent [id] is the empty string. *)
Record SegmentDefinition := {
  id : string;
  boost : option number;
  return_ : option Aggregate.TokenConfig;
  generate : option GenerateDefinition
}.

Record Werkcontext := { segments : option (list SegmentDefinition) }.

Record Frontmatter := {
  template_id : option string;
  werkcontext : option Werkcontext
}.

Definition fence : string := "---".

(** The loop that looks for the closing delimiter, from the line [i] on. *)
Fixpoint findClosing (lines : list string) (i : Z) : Z :=
  match lines with
  | [] => -1
  | l :: r => if String.eqb l fence then i else findClosing r (i + 1)
  end.

Section Load.

(** The deserialised value and [yaml.load], which may throw. *)
Variable F : Type.
Variable yaml_load : string -> result F.

Record Parsed := {
  frontmatter : option F;
  content : string
}.

Definition parseFrontmatter (markdown : string) : result Parsed :=
  let lines := JsString.split JsString.LF markdown in
  if negb (match lines with l0 :: _ => String.eqb l0 fence | [] => false end)
  then Ok {| frontmatter := None; content := markdown |}
  else
    let endIndex := findClosing (tail lines) 1 in
    if endIndex =? -1 then Ok {| frontmatter := None; content := markdown |}
    else
      let yamlContent :=
        JsString.join (String JsString.LF EmptyString) (JsArray.slice lines 1 endIndex) in
      bind (yaml_load yamlContent) (fun fm =>
      let content :=
        JsString.join (String JsString.LF EmptyString)
                      (JsArray.sliceFrom lines (endIndex + 1)) in
      Ok {| frontmatter := Some fm; content := content |}).

End Load.

Arguments frontmatter {F} _.
Arguments content {F} _.

Definition say (b : bool) (msg : string) : list string := if b then [msg] else [].

Definition below (x : option number) (bound : number) : bool :=
  match x with
  | Some v => PrimFloat.ltb v bound
  | None => false
  end.

Definition outside (x : option number) (lo hi : number) : bool :=
  match x with
  | Some v => PrimFloat.ltb v lo || PrimFloat.ltb hi v
  | None => false
  end.

Definition returnMax (seg : SegmentDefinition) : option number :=
  match return_ seg with Some r => Aggregate.max_tokens r | None => None end.
Definition returnMin (seg : SegmentDefinition) : option number :=
  match return_ seg with Some r => Aggregate.min_tokens r | None => None end.
Definition generateMax (seg : SegmentDefinition) : option number :=
  match generate seg with Some g => gen_max_tokens g | None => None end.
Definition generateMin (seg : SegmentDefinition) : option number :=
  match generate seg with Some g => gen_min_tokens g | None => None end.
Definition generateTemperature (seg : SegmentDefinition) : option number :=
  match generate seg with Some g => temperature g | None => None end.

Section Validate.

(** The text of a number in a template string. *)
Variable numberToString : number -> string.

Definition msgBoost (i : string) (b : number) : string :=
  "Invalid boost value for " +:+ i +:+ ": " +:+ numberToString b +:+ " (must be 0-10)".

Definition boostErrors (seg : SegmentDefinition) : list string :=
  match boost seg with
  | Some b =>
      say (PrimFloat.ltb b 0%float || PrimFloat.ltb 10%float b) (msgBoost (id seg) b)
  | None => []
  end.

(** The findings of one segment that has an id. *)
Definition segmentErrors (ids : gset string) (seg : SegmentDefinition) : list string :=
  say (bool_decide (id seg ∈ ids)) ("Duplicate segment ID: " +:+ id seg)
  ++ boostErrors seg
  ++ say (below (returnMax seg) 1%float)
         ("Invalid return.max_tokens for " +:+ id seg +:+ ": must be positive")
  ++ say (below (returnMin seg) 1%float)
         ("Invalid return.min_tokens for " +:+ id seg +:+ ": must be positive")
  ++ say (below (generateMax seg) 1%float)
         ("Invalid generate.max_tokens for " +:+ id seg +:+ ": must be positive")
  ++ say (below (generateMin seg) 1%float)
         ("Invalid generate.min_tokens for " +:+ id seg +:+ ": must be positive")
  ++ say (outside (generateTemperature seg) 0%float 2%float)
         ("Invalid temperature for " +:+ id seg +:+ ": must be 0.0-2.0").

(** One iteration of the loop: a segment without id is reported and
    skipped ([continue]). *)
Definition stepSegment (st : list string * gset string) (seg : SegmentDefinition)
  : list string * gset string :=
  let '(errors, ids) := st in
  if String.eqb (id seg) EmptyString
  then (errors ++ ["Segment missing required id field"], ids)
  else (errors ++ segmentErrors ids seg, {[id seg]} ∪ ids).

Definition validateFrontmatter (fm : Frontmatter) : list string :=
  match werkcontext fm with
  | None => []
  | Some w =>
      fst (fold_left stepSegment (default [] (segments w)) ([], (∅ : gset string)))
  end.

End Validate.

Definition extractSegmentDefinitions (fm : Frontmatter) : list SegmentDefinition :=
  match werkcontext fm with
  | Some w => default [] (segments w)
  | None => []
  end.

End Frontmatter.

(** * Vocabulary of the properties *)

Section SegmentVocabulary.

Import Segments.

(** The errors a loop with a seen-set pushes, from the set [seen] on. *)
Fixpoint pushed {A E} (key : A -> string)
  (step : gset string -> A -> list E)
  (seen : gset string) (items : list A) : list E :=
  match items with
  | [] => []
  | x :: r => step seen x ++ pushed key step ({[key x]} ∪ seen) r
  end.

(** The findings with a given message. *)
Definition withMessage (msg : string) (errors : list ValidationError)
  : list ValidationError :=
  List.filter (fun e => String.eqb (message e) msg) errors.

Definition markerWithoutSpec (seg : SegmentInstance) : ValidationError :=
  mkError (Some (id seg)) None msgMarkerWithoutSpec.

Definition specWithoutMarker (sp : SegmentSpec) : ValidationError :=
  mkError (Some (spec_id sp)) None msgSpecWithoutMarker.

End SegmentVocabulary.

Section AggregateVocabulary.

Import Aggregate.

(** What a segment weighs: its retrieval budget, [0] when it has none. *)
Definition retrievalTokens (segment : AnnotatedSegment) : number :=
  orNumber (maxTokensOf (return_ segment)) 0%float.

(** The boost the loop uses for a segment. *)
Definition usedBoost (segment : AnnotatedSegment) : number :=
  orNumber (boost segment) 1%float.

(** The boost a segment declares, [1.0] when it declares none. *)
Definition declaredBoost (segment : AnnotatedSegment) : number :=
  match boost segment with Some b => b | None => 1%float end.

(** A sum accumulated from left to right, as the loop does. *)
Definition sumOver (f : AnnotatedSegment -> number) (segs : list AnnotatedSegment)
  (start : number) : number :=
  fold_left (fun total seg => PrimFloat.add total (f seg)) segs start.

(** The total of the retrieval budgets, summed where they are truthy. *)
Definition tokensOver (segs : list AnnotatedSegment) (start : number) : number :=
  fold_left (fun total seg => addIfTruthy total (maxTokensOf (return_ seg))) segs start.

(** The token-weighted average of [b], [1.0] when no tokens are counted. *)
Definition weightedAverage (b : AnnotatedSegment -> number)
  (segs : list AnnotatedSegment) : number :=
  let weighted := sumOver (fun seg => PrimFloat.mul (b seg) (retrievalTokens seg)) segs 0%float in
  let tokens := tokensOver segs 0%float in
  if PrimFloat.ltb 0%float tokens then PrimFloat.div weighted tokens else 1%float.

End AggregateVocabulary.

Section GraphVocabulary.

Import Journeys.

Variable graph : gmap string (list string).

(** The identifiers a search may meet. *)
Variable nodesOf : gset string.

(** An edge of the adjacency map. *)
Definition edge (u v : string) : Prop :=
  exists ns, graph !! u = Some ns /\ v ∈ ns.

(** No path from [x] goes on for ever: no cycle can be reached from [x]. *)
Definition safe (x : string) : Prop := sn edge x.

(** Every node that is visited and no longer on the stack is safe. *)
Definition finishedSafe (st : DfsState) : Prop :=
  forall x, x ∈ visited st -> x ∉ recStack st -> safe x.

Definition hasCycle : Prop := exists y, tc edge y y.

Definition dfsPre (fuel : nat) (u : string) (st : DfsState) : Prop :=
  u ∈ nodesOf /\ u ∉ visited st /\ recStack st ⊆ visited st /\ finishedSafe st
  /\ (forall x, x ∈ recStack st -> rtc edge x u)
  /\ (size (nodesOf ∖ visited st) < fuel)%nat.

Definition dfsPost (u : string) (st : DfsState) (res : option (bool * DfsState)) : Prop :=
  exists r st', res = Some (r, st')
    /\ (r = true -> hasCycle)
    /\ (r = false ->
          finishedSafe st' /\ recStack st' = recStack st
          /\ visited st ∪ {[u]} ⊆ visited st').

(** The edges of a journey: a node and the non-empty [target_node_id] of
    one of its connections. A connection that only names a
    [target_journey] is no edge. *)
Definition journeyEdge (nodes : list JourneyNode) (u v : string) : Prop :=
  exists node c,
    In node nodes /\ id node = u
    /\ In c (default [] (connections node))
    /\ target_node_id c = Some v /\ v <> EmptyString.

End GraphVocabulary.

Section ConceptVocabulary.

Import Concepts.

(** How many findings carry the message [msg]. *)
Definition occurrences (msg : string) (errors : list string) : nat :=
  length (List.filter (String.eqb msg) errors).

Definition missingConfidence (i : string) (c : Concept) : bool :=
  String.eqb i (id c) && isDiscovered (source c) && negb (Segments.isSome (confidence c)).

Definition forbiddenConfidence (i : string) (c : Concept) : bool :=
  String.eqb i (id c) && isManual (source c) && Segments.isSome (confidence c).

Definition confidenceOutOfRange (i : string) (c : Concept) : bool :=
  String.eqb i (id c)
  && match confidence c with Some v => outOfUnit v | None => false end.

End ConceptVocabulary.

Section LinkageVocabulary.

Import Linkage.

(** Every asset path referenced from [code_to_assets], in order. *)
Definition assetPaths (linkage : Linkage) : list string :=
  List.flat_map (fun e => List.map path (assets (snd e))) (code_to_assets linkage).

(** Every symbol [path:function] reachable from [asset_to_code], in order. *)
Definition codeSymbols (entries : list (string * AssetMapping)) : list string :=
  List.flat_map
    (fun e => List.flat_map (fun codeRef => List.map (symbolOf codeRef) (functions codeRef))
                            (code_refs (snd e)))
    entries.

Definition missingReverse (linkage : Linkage) : list string :=
  List.filter (fun p => negb (hasKey (asset_to_code linkage) p)) (assetPaths linkage).

Definition missingForward (linkage : Linkage) : list string :=
  List.filter (fun sym => negb (hasKey (code_to_assets linkage) sym))
              (codeSymbols (asset_to_code linkage)).

(** The asset paths referenced from [code_to_assets] that have no entry
    in [asset_to_code], and the symbols reachable from [asset_to_code]
    that have no entry in [code_to_assets]. *)
Definition unlinkedPaths (linkage : Linkage) : list string :=
  List.filter (fun p => negb (JsObject.ownKey (asset_to_code linkage) p))
              (assetPaths linkage).

Definition unlinkedSymbols (linkage : Linkage) : list string :=
  List.filter (fun sym => negb (JsObject.ownKey (code_to_assets linkage) sym))
              (codeSymbols (asset_to_code linkage)).

(** What one test pushes: the message of [x] when [x] fails [ok]. *)
Definition finding {A} (ok : A -> bool) (msg : A -> string) (x : A) : list string :=
  if negb (ok x) then [msg x] else [].

End LinkageVocabulary.

Section NavigationVocabulary.

Import Navigation.

(** A path into a forest: an item of the forest, then an item among its
    children, and so on. *)
Inductive Chain : list NavigationItem -> list NavigationItem -> Prop :=
| chain_last (items : list NavigationItem) (x : NavigationItem) :
    In x items -> Chain items [x]
| chain_step (items cs : list NavigationItem) (x : NavigationItem)
    (rest : list NavigationItem) :
    In x items -> children x = Some cs -> Chain cs rest -> Chain items (x :: rest).

End NavigationVocabulary.

Section ReferenceVocabulary.

Import References ReferenceForms.

(** The text a parsed segment reference stands for. *)
Definition written (r : SegmentRef) : string :=
  match project r, documentId r with
  | Some p, Some d => buildSegmentRef p d (segmentId r)
  | Some p, None => "@" +:+ p +:+ "#" +:+ segmentId r
  | None, Some d => d +:+ "#" +:+ segmentId r
  | None, None => "#" +:+ segmentId r
  end.

(** The segment reference made of a parsed page reference and a segment
    id. *)
Definition withSegment (ref : string) (s : string) (pg : PageRef) : SegmentRef :=
  {| project := pg_project pg; documentId := Some (pageId pg);
     segmentId := s; original := ref |}.

End ReferenceVocabulary.

Section LineVocabulary.

Import LineSegments.

(** [p] occurs in [s]. *)
Fixpoint mentions (p s : string) : bool :=
  JsString.startsWith s p
  || match s with
     | String _ r => mentions p r
     | EmptyString => false
     end.

(** A line of text: one line, without the opening of a marker. *)
Definition plainLine (l : string) : Prop :=
  JsString.contains JsString.LF l = false
  /\ mentions "<!--semcontext:segment" l = false.

(** The segments follow one another: each starts after the line [lo] and
    after the end of the one before, and ends after it starts. *)
Fixpoint inOrder (lo : Z) (segs : list ParsedSegment) : Prop :=
  match segs with
  | [] => True
  | s :: r => lo < startLine s /\ startLine s < endLine s /\ inOrder (endLine s) r
  end.

(** The content of a segment is what stands on the lines between its
    two markers. *)
Definition located (lines : list string) (seg : ParsedSegment) : Prop :=
  1 <= startLine seg /\ startLine seg < endLine seg
  /\ endLine seg <= Z.of_nat (length lines)
  /\ content seg
     = JsString.join (String JsString.LF EmptyString)
         (JsArray.slice lines (startLine seg) (endLine seg - 1)).

(** What the scanner has established after the lines [done]. *)
Definition scanned (done : list string) (st : ScanState) : Prop :=
  i st = Z.of_nat (length done)
  /\ Forall (located done) (segments st)
  /\ Forall (fun s => key s <> EmptyString) (segments st)
  /\ inOrder 0 (segments st)
  /\ match currentSegment st with
     | Some cur =>
         1 <= open_startLine cur /\ open_startLine cur <= i st
         /\ open_key cur <> EmptyString
         /\ Forall (fun s => endLine s < open_startLine cur) (segments st)
         /\ contentLines st = drop (Z.to_nat (open_startLine cur)) done
     | None => True
     end.

End LineVocabulary.

Section LineNestingVocabulary.

Import LineSegments.

(** No marker line lies inside the segment: the lines between its two
    markers are lines of text. *)
Definition textInside (lines : list string) (seg : ParsedSegment) : Prop :=
  Forall (fun l => classify l = TextLine)
         (JsArray.slice lines (startLine seg) (endLine seg - 1)).

End LineNestingVocabulary.

Section RangeVocabulary.

Import Segments.

(** The marker ranges follow one another between the offsets [lo] and
    [hi]: each body starts where its start marker ends and ends where its
    end marker begins. *)
Fixpoint rangesInOrder (lo : Z) (markers : list MarkerRange) (hi : Z) : Prop :=
  match markers with
  | [] => lo <= hi
  | m :: r => lo <= startMarkerEnd m /\ startMarkerEnd m <= endMarkerBegin m
              /\ rangesInOrder (endMarkerBegin m) r hi
  end.

(** The same for the bodies of the segment instances. *)
Fixpoint bodiesInOrder (lo : Z) (segs : list SegmentInstance) (hi : Z) : Prop :=
  match segs with
  | [] => lo <= hi
  | s :: r => lo <= startByte s /\ startByte s <= endByte s /\ bodiesInOrder (endByte s) r hi
  end.

End RangeVocabulary.

Section NavigationBuilderVocabulary.

Import Navigation NavigationBuilder.

(** The flat entry of the item [x] reached through [ancestors], below a
    node at [level0] whose path is [path0] and whose id is [parent0]. *)
Definition flatBelow (level0 : Z) (path0 : list string) (parent0 : option string)
  (ancestors : list NavigationItem) (x : NavigationItem) : FlatNavigationItem :=
  {| flat_item := x;
     level := level0 + Z.of_nat (length ancestors);
     path := path0 ++ List.map id (ancestors ++ [x]);
     parentId := match last ancestors with
                 | Some a => Some (id a)
                 | None => parent0
                 end;
     hasChildren := match children x with
                    | Some (_ :: _) => true
                    | _ => false
                    end |}.

(** The flat entry of an item of the tree: its level is the number of
    its ancestors, its path their ids and its own, its parent the last of
    them. *)
Definition flatOf (ancestors : list NavigationItem) (x : NavigationItem)
  : FlatNavigationItem :=
  flatBelow 0 [] None ancestors x.

(** What the traversal of one item pushes. *)
Definition traverseItem_spec (x : NavigationItem) : Prop :=
  forall level0 path0 parent0 f,
    In f (traverseItem level0 path0 parent0 x)
    <-> f = flatBelow level0 path0 parent0 [] x
        \/ exists cs anc y, children x = Some cs /\ Chain cs (anc ++ [y])
                            /\ f = flatBelow level0 path0 parent0 (x :: anc) y.

(** What the search of one item returns. *)
Definition searchItem_spec (i : string) (x : NavigationItem) : Prop :=
  forall level0 path0 parent0,
    searchItem i x
    = option_map flat_item (List.find (hasId i) (traverseItem level0 path0 parent0 x)).

End NavigationBuilderVocabulary.

Section StrongLinksVocabulary.

Import StrongLinks.

(** The registries a program can reach: a new one, and what [register]
    makes of a reachable one. *)
Inductive reachable : Registry -> Prop :=
| reachable_new : reachable newRegistry
| reachable_register (r : Registry) (i : string) (target : LinkTarget) :
    reachable r -> reachable (register r i target).

End StrongLinksVocabulary.

Section FrontmatterVocabulary.

Import Frontmatter.

(** A segment definition that validation accepts. *)
Definition wellFormed (seg : SegmentDefinition) : Prop :=
  id seg <> EmptyString
  /\ outside (boost seg) 0%float 10%float = false
  /\ below (returnMax seg) 1%float = false
  /\ below (returnMin seg) 1%float = false
  /\ below (generateMax seg) 1%float = false
  /\ below (generateMin seg) 1%float = false
  /\ outside (generateTemperature seg) 0%float 2%float = false.

End FrontmatterVocabulary.

Section PageVocabulary.

Import Aggregate.

(** The keys under which the page aggregation collects semantics. *)
Definition semanticKeys : list string := List.map fst initialSemantics.

(** Every entry of the semantics of a page and of its segments, in the
    order the aggregation reads them. *)
Definition semanticsEntries (annotations : ExternalAnnotations)
  : list (string * list string) :=
  default [] (page_semantics annotations)
  ++ List.flat_map (fun seg => default [] (semantics seg)) (segments annotations).

(** The value [v] is listed under the key [k], by the page or by one of
    its segments. *)
Definition declares (annotations : ExternalAnnotations) (k v : string) : Prop :=
  exists vs, In (k, vs) (semanticsEntries annotations) /\ In v vs.

End PageVocabulary.

Section HierarchyVocabulary.

Import Concepts.

(** The recursive calls of [buildConceptHierarchy]: from the key [k] of
    a concept to the key of a concept that a parent relationship names as
    its child. *)
Definition childKey (graph : ConceptGraph) (k k' : string) : Prop :=
  exists root rel child,
    List.find (fun c => String.eqb (key c) k) (concepts graph) = Some root
    /\ In rel (relationships graph)
    /\ rel_to rel = conceptPrefix +:+ id root /\ kind rel = parent
    /\ List.find (fun c => String.eqb (id c) (stripPrefix (rel_from rel)))
                 (concepts graph) = Some child
    /\ key child = k'.

End HierarchyVocabulary.

(** ** Sample inputs, after the tests and the examples of the specification *)

Module Samples.

Definition q : string := String JsString.DQUOTE EmptyString.
Definition nl : string := String JsString.LF EmptyString.

(** The two marker dialects: with and without a space after the comment
    opener (only the marker-range parser accepts the first). *)
Definition startMarker (k : string) : string :=
  "<!-- semcontext:segment start key=" +:+ q +:+ k +:+ q +:+ " -->".
Definition endMarker : string := "<!-- semcontext:segment end -->".
Definition startTag (k : string) : string :=
  "<!--semcontext:segment start key=" +:+ q +:+ k +:+ q +:+ "-->".
Definition endTag : string := "<!--semcontext:segment end-->".

(** A frontmatter-free document needs no YAML parser. *)
Definition noYaml (_ : string) : result (option Segments.FrontmatterConfig) := Ok None.

(** The nesting example of the specification. *)
Definition nestedDoc : string :=
  startMarker "A" +:+ "text" +:+ startMarker "B" +:+ "..." +:+ endMarker
    +:+ "text" +:+ endMarker.

(** A document with a frontmatter block of two specs and two marked
    segments; the spec [api-ref] has no marker, the marker [extra] no
    spec. The YAML parser is replaced by its result on this block. *)
Definition sampleConfig : Segments.FrontmatterConfig :=
  {| Segments.fm_id := None;
     Segments.title := Some "Guide";
     Segments.description := None;
     Segments.semcontext :=
       Some {| Segments.cfg_segments :=
         Some [ {| Segments.spec_id := "overview";
                   Segments.spec_type := Some "overview";
                   Segments.audienceRole :=
                     Segments.RoleArray [Segments.ItemString "user";
                                         Segments.ItemString "developer"];
                   Segments.concepts := Some ["auth"; "security"];
                   Segments.boost := Some 1.5%float;
                   Segments.return_ := Segments.Given {| Segments.maxTokens := 800%float |};
                   Segments.generate := Segments.Absent |};
                {| Segments.spec_id := "api-ref";
                   Segments.spec_type := Some "reference";
                   Segments.audienceRole := Segments.RoleString "developer";
                   Segments.concepts := None;
                   Segments.boost := None;
                   Segments.return_ := Segments.Absent;
                   Segments.generate :=
                     Segments.Given {| Segments.gen_maxTokens := 400%float;
                             Segments.temperature := Some 0.5%float;
                             Segments.iterations := None |} |} ] |} |}.

Definition sampleYaml (_ : string) : result (option Segments.FrontmatterConfig) :=
  Ok (Some sampleConfig).

Definition sampleDoc : string :=
  "---" +:+ nl +:+ "title: Guide" +:+ nl +:+ "---" +:+ nl
    +:+ "# Guide" +:+ nl
    +:+ startMarker "overview" +:+ nl +:+ "An overview." +:+ nl +:+ endMarker +:+ nl
    +:+ startMarker "extra" +:+ nl +:+ "Not announced." +:+ nl +:+ endMarker +:+ nl.

(** Journeys of stage nodes given by their ids and target ids. *)
Definition connectTo (t : string) : Journeys.NodeConnection :=
  {| Journeys.target_node_id := Some t; Journeys.target_journey := None;
     Journeys.label := None; Journeys.condition := None |}.

Definition jumpTo (j : string) : Journeys.NodeConnection :=
  {| Journeys.target_node_id := None; Journeys.target_journey := Some j;
     Journeys.label := Some "Continue"; Journeys.condition := None |}.

Definition stageNode (i : string) (conns : option (list Journeys.NodeConnection))
  : Journeys.JourneyNode :=
  {| Journeys.id := i; Journeys.type := Journeys.stage; Journeys.key := i;
     Journeys.name := i; Journeys.connections := conns |}.

Definition journeyOf (ns : list Journeys.JourneyNode) : Journeys.Journey :=
  {| Journeys.journey_id := "jrn_test"; Journeys.journey_key := "test";
     Journeys.journey_name := "Test"; Journeys.projects := ["project:@prj_test"];
     Journeys.nodes := ns |}.

(** a -> b -> c -> a *)
Definition cyclicJourney : Journeys.Journey :=
  journeyOf [stageNode "a" (Some [connectTo "b"]);
             stageNode "b" (Some [connectTo "c"]);
             stageNode "c" (Some [connectTo "a"])].

(** The same nodes without the closing edge; [c] jumps to another journey. *)
Definition openJourney : Journeys.Journey :=
  journeyOf [stageNode "a" (Some [connectTo "b"]);
             stageNode "b" (Some [connectTo "c"]);
             stageNode "c" (Some [jumpTo "journey:@jrn_advanced"])].

(** a -> b -> a, and a second node with the id [a] that has no
    connection. *)
Definition duplicateJourney : Journeys.Journey :=
  journeyOf [stageNode "a" (Some [connectTo "b"]);
             stageNode "b" (Some [connectTo "a"]);
             stageNode "a" None].

(** The concept graphs of the repository's tests. *)
Definition conceptOf (i k : string) (src : Concepts.Source)
  (conf : option PrimFloat.float) : Concepts.Concept :=
  {| Concepts.id := i; Concepts.key := k; Concepts.name := k;
     Concepts.status := Concepts.active; Concepts.source := src;
     Concepts.confidence := conf |}.

Definition parentOf (child parent : string) : Concepts.ConceptRelationship :=
  {| Concepts.rel_from := "concept:@" +:+ child;
     Concepts.rel_to := "concept:@" +:+ parent;
     Concepts.kind := Concepts.parent; Concepts.weight := 1%float |}.

Definition discoveredConcept : Concepts.Concept :=
  conceptOf "cpt_discovered" "discovered" Concepts.discovered None.

Definition manualConcept : Concepts.Concept :=
  conceptOf "cpt_manual" "manual" Concepts.manual (Some 0.8%float).

Definition discoveredGraph : Concepts.ConceptGraph :=
  {| Concepts.concepts := [discoveredConcept]; Concepts.relationships := [] |}.

Definition manualGraph : Concepts.ConceptGraph :=
  {| Concepts.concepts := [manualConcept]; Concepts.relationships := [] |}.

(** Authentication with its two children, OAuth and JWT. *)
Definition authGraph : Concepts.ConceptGraph :=
  {| Concepts.concepts :=
       [conceptOf "cpt_authentication" "authentication" Concepts.manual None;
        conceptOf "cpt_oauth" "oauth" Concepts.manual None;
        conceptOf "cpt_jwt" "jwt" Concepts.manual None];
     Concepts.relationships :=
       [parentOf "cpt_oauth" "cpt_authentication";
        parentOf "cpt_jwt" "cpt_authentication";
        {| Concepts.rel_from := "concept:@cpt_jwt"; Concepts.rel_to := "concept:@cpt_oauth";
           Concepts.kind := Concepts.implements; Concepts.weight := 0.8%float |}] |}.

(** Two concepts, each the parent of the other. *)
Definition mutualParents : Concepts.ConceptGraph :=
  {| Concepts.concepts :=
       [conceptOf "cpt_a" "a" Concepts.manual None;
        conceptOf "cpt_b" "b" Concepts.manual None];
     Concepts.relationships := [parentOf "cpt_b" "cpt_a"; parentOf "cpt_a" "cpt_b"] |}.

(** The inconsistent linkage of the repository's test, and the reverse
    entry that repairs it. *)
Definition oneWayLinkage : Linkage.Linkage :=
  {| Linkage.version := "1";
     Linkage.code_to_assets :=
       [("test.go:Func",
         {| Linkage.assets :=
              [{| Linkage.path := "missing.md"; Linkage.asset_segments := None;
                  Linkage.relevance := Linkage.primary;
                  Linkage.doc_type := "reference" |}] |})];
     Linkage.asset_to_code := [] |}.

Definition reverseEntry : Linkage.AssetMapping :=
  {| Linkage.code_refs :=
       [{| Linkage.code_path := "test.go"; Linkage.functions := ["Func"];
           Linkage.lines := (0, 0) |}] |}.

(** A navigation tree without an allow-list: a parent reserved for v2
    with a child reserved for v1. *)
Definition navItem (i : string) (vs : option (list string))
  (cs : option (list Navigation.NavigationItem)) : Navigation.NavigationItem :=
  Navigation.Item i i None cs None
    (match vs with
     | Some l => Some {| Navigation.md_versions := Some l |}
     | None => None
     end).

Definition v1Child : Navigation.NavigationItem := navItem "child" (Some ["v1"]) None.

Definition v2Parent : Navigation.NavigationItem :=
  navItem "parent" (Some ["v2"]) (Some [v1Child]).

Definition mixedTree : Navigation.NavigationTree :=
  {| Navigation.tree_id := "main"; Navigation.label := None;
     Navigation.items := [v2Parent; navItem "intro" None None];
     Navigation.versions := None; Navigation.default_ := None |}.

(** Pages of annotated segments that only declare a boost and a
    retrieval budget. *)
Definition plainSegment (name : string) (b : option PrimFloat.float)
  (tokens : option PrimFloat.float) : Aggregate.AnnotatedSegment :=
  {| Aggregate.id := name; Aggregate.concepts := None; Aggregate.audience_role := None;
     Aggregate.boost := b; Aggregate.semantics := None;
     Aggregate.segment_checksum := None;
     Aggregate.return_ :=
       match tokens with
       | Some t => Some {| Aggregate.max_tokens := Some t; Aggregate.min_tokens := None |}
       | None => None
       end;
     Aggregate.generate := None |}.

Definition page (segs : list Aggregate.AnnotatedSegment) : Aggregate.ExternalAnnotations :=
  {| Aggregate.version := "1"; Aggregate.source_file := "page.md";
     Aggregate.page_semantics := None; Aggregate.segments := segs |}.

End Samples.

(** ** More sample inputs *)

Module MoreSamples.

Import Samples.




(** Two link targets and the configuration that registers them. *)
Definition installLink : StrongLinks.LinkTarget :=
  {| StrongLinks.id := EmptyString;
     StrongLinks.segmentRef := Some "@docs/setup#install";
     StrongLinks.pageRef := None; StrongLinks.url := "/setup";
     StrongLinks.title := None; StrongLinks.description := None;
     StrongLinks.version := None |}.

Definition homeLink : StrongLinks.LinkTarget :=
  {| StrongLinks.id := EmptyString;
     StrongLinks.segmentRef := None;
     StrongLinks.pageRef := Some "@docs/home"; StrongLinks.url := "/";
     StrongLinks.title := Some "Home"; StrongLinks.description := None;
     StrongLinks.version := None |}.

Definition linkConfig : list (string * StrongLinks.LinkTarget) :=
  [("install", installLink); ("home", homeLink)].

(** A YAML loader that returns the text it is given. *)
Definition textLoader (s : string) : result string := Ok s.

(** A symbol documented by a file named [toString], which has no entry
    in [asset_to_code]. *)
Definition inheritedLinkage : Linkage.Linkage :=
  {| Linkage.version := "1";
     Linkage.code_to_assets :=
       [("test.go:Func",
         {| Linkage.assets :=
              [{| Linkage.path := "toString"; Linkage.asset_segments := None;
                  Linkage.relevance := Linkage.primary;
                  Linkage.doc_type := "reference" |}] |})];
     Linkage.asset_to_code := [] |}.

(** A linkage with one violation in each direction. *)
Definition brokenLinkage : Linkage.Linkage :=
  {| Linkage.version := "1";
     Linkage.code_to_assets := Linkage.code_to_assets oneWayLinkage;
     Linkage.asset_to_code :=
       [("other.md",
         {| Linkage.code_refs :=
              [{| Linkage.code_path := "test.go"; Linkage.functions := ["Func"; "Gone"];
                  Linkage.lines := (0, 0) |}] |})] |}.

(** The linkage of the repository's test with its reverse entry added. *)
Definition repairedLinkage : Linkage.Linkage :=
  Linkage.addReverse oneWayLinkage "missing.md" reverseEntry.

(** A page that lists tasks and personas, with a segment that lists
    tasks, an empty list of impacts and an outcome. *)
Definition semanticPage : Aggregate.ExternalAnnotations :=
  {| Aggregate.version := "1"; Aggregate.source_file := "page.md";
     Aggregate.page_semantics :=
       Some [("tasks", ["install"]); ("personas", ["admin"])];
     Aggregate.segments :=
       [ {| Aggregate.id := "intro"; Aggregate.concepts := None;
            Aggregate.audience_role := None; Aggregate.boost := None;
            Aggregate.semantics :=
              Some [("outcomes", ["running"]); ("tasks", ["install"; "configure"]);
                    ("impacts", [])];
            Aggregate.segment_checksum := None;
            Aggregate.return_ := None; Aggregate.generate := None |} ] |}.

End MoreSamples.

(** * Properties *)

(** ** Strings *)

Section StringFacts.

Lemma len_nonneg (s : string) : 0 <= JsString.len s.
Proof. unfold JsString.len. lia. Qed.

Lemma length_append (a b : string) :
  String.length (a +:+ b) = (String.length a + String.length b)%nat.
Proof. induction a as [|c a IH]; [reflexivity | simpl; congruence]. Qed.

Lemma len_append (a b : string) :
  JsString.len (a +:+ b) = JsString.len a + JsString.len b.
Proof. unfold JsString.len. rewrite length_append. lia. Qed.

Lemma append_empty_r (a : string) : a +:+ EmptyString = a.
Proof. induction a as [|c a IH]; [reflexivity | simpl; congruence]. Qed.

Lemma append_assoc (a b c : string) : (a +:+ b) +:+ c = a +:+ (b +:+ c).
Proof. induction a as [|x a IH]; [reflexivity | simpl; congruence]. Qed.

Lemma substring_all (y : string) : String.substring 0 (String.length y) y = y.
Proof. induction y as [|c y IH]; simpl; congruence. Qed.

Lemma substring_prefix (y z : string) :
  String.substring 0 (String.length y) (y +:+ z) = y.
Proof.
  induction y as [|c y IH]; simpl.
  - destruct z; reflexivity.
  - congruence.
Qed.

Lemma substring_middle (x y z : string) :
  String.substring (String.length x) (String.length y) (x +:+ y +:+ z) = y.
Proof.
  induction x as [|c x IH]; simpl; [apply substring_prefix | exact IH].
Qed.

(** [substring] between two cut points of a concatenation. *)
Lemma js_substring_middle (x y z : string) :
  JsString.substring (x +:+ y +:+ z) (JsString.len x) (JsString.len x + JsString.len y) = y.
Proof.
  unfold JsString.substring, JsString.clamp.
  rewrite !len_append. unfold JsString.len.
  replace (Z.to_nat _) with (String.length x) by lia.
  replace (Z.to_nat (Z.max 0 (Z.min (Z.of_nat (String.length x) + Z.of_nat (String.length y)) _)))
    with (String.length x + String.length y)%nat by lia.
  replace (Nat.min _ _) with (String.length x) by lia.
  replace (Nat.max _ _ - _)%nat with (String.length y) by lia.
  apply substring_middle.
Qed.

Lemma js_substring_prefix (y z : string) :
  JsString.substring (y +:+ z) 0 (JsString.len y) = y.
Proof.
  pose proof (js_substring_middle EmptyString y z) as H.
  simpl in H. exact H.
Qed.

Lemma js_substringFrom_suffix (x y : string) (n : Z) :
  n = JsString.len x -> JsString.substringFrom (x +:+ y) n = y.
Proof.
  intros ->. unfold JsString.substringFrom.
  pose proof (js_substring_middle x y EmptyString) as H.
  rewrite append_empty_r in H. rewrite len_append. exact H.
Qed.

Lemma lastIndexOf_from_absent (c : ascii) (s : string) (i found : Z) :
  JsString.contains c s = false -> JsString.lastIndexOf_from c s i found = found.
Proof.
  revert i found. induction s as [|x s IH]; simpl; intros i found H; [reflexivity|].
  apply orb_false_iff in H as [Hx Hs]. rewrite Hx. now apply IH.
Qed.

Lemma lastIndexOf_from_last (c : ascii) (a s : string) (i found : Z) :
  JsString.contains c s = false ->
  JsString.lastIndexOf_from c (a +:+ String c s) i found = i + JsString.len a.
Proof.
  intros Hs. revert i found.
  induction a as [|x a IH]; simpl; intros i found.
  - rewrite Ascii.eqb_refl, lastIndexOf_from_absent by assumption.
    unfold JsString.len. simpl. lia.
  - rewrite IH. unfold JsString.len. simpl String.length. lia.
Qed.

Lemma indexOf_from_first (c : ascii) (a s : string) (i : Z) :
  JsString.contains c a = false ->
  JsString.indexOf_from c (a +:+ String c s) i = i + JsString.len a.
Proof.
  revert i. induction a as [|x a IH]; simpl; intros i H.
  - rewrite Ascii.eqb_refl. unfold JsString.len. simpl. lia.
  - apply orb_false_iff in H as [Hx Ha]. rewrite Hx, IH by assumption.
    unfold JsString.len. simpl String.length. lia.
Qed.

Lemma contains_append (c : ascii) (a b : string) :
  JsString.contains c (a +:+ b) = JsString.contains c a || JsString.contains c b.
Proof. induction a as [|x a IH]; simpl; [reflexivity|]. now rewrite IH, orb_assoc. Qed.

End StringFacts.

(** ** References: building and parsing *)

Section ReferenceFacts.

Import References.

(** The built reference, cut at its three separators. *)
Lemma buildSegmentRef_shape (p d s : string) :
  buildSegmentRef p d s = ("@" +:+ p +:+ "/" +:+ d) +:+ String "#" s.
Proof. unfold buildSegmentRef. simpl. now rewrite !append_assoc. Qed.

(** C1, as amended. Parsing a built segment reference gives back the
    three components whenever the segment id is non-empty and free of
    "#" and the project is free of "/"; the document id is
    unconstrained. *)
Theorem parseSegmentRef_buildSegmentRef (p d s : string) :
  JsString.contains "/" p = false ->
  JsString.contains "#" s = false ->
  s <> EmptyString ->
  parseSegmentRef (buildSegmentRef p d s)
  = Some {| project := Some p; documentId := Some d; segmentId := s;
            original := buildSegmentRef p d s |}.
Proof.
  intros Hp Hs Hne.
  set (res := "@" +:+ p +:+ "/" +:+ d).
  assert (Hshape : buildSegmentRef p d s = res +:+ String "#" s)
    by apply buildSegmentRef_shape.
  assert (Hhash : JsString.lastIndexOf (buildSegmentRef p d s) "#" = JsString.len res).
  { rewrite Hshape. unfold JsString.lastIndexOf.
    rewrite lastIndexOf_from_last by assumption. lia. }
  assert (Hslash : JsString.indexOf res "/" = 1 + JsString.len p).
  { unfold res, JsString.indexOf. simpl.
    rewrite indexOf_from_first by assumption. reflexivity. }
  assert (Hlen : JsString.len (buildSegmentRef p d s)
                 = JsString.len res + 1 + JsString.len s).
  { rewrite Hshape, len_append. unfold JsString.len. simpl String.length. lia. }
  assert (Hslen : 0 < JsString.len s).
  { destruct s; [congruence | unfold JsString.len; simpl; lia]. }
  pose proof (len_nonneg res) as Hres. pose proof (len_nonneg p) as Hplen.
  unfold parseSegmentRef.
  replace (JsString.startsWith (buildSegmentRef p d s) "#") with false by reflexivity.
  rewrite Hhash.
  replace (JsString.len res =? -1) with false by (symmetry; apply Z.eqb_neq; lia).
  replace (JsString.len res =? JsString.len (buildSegmentRef p d s) - 1) with false
    by (symmetry; apply Z.eqb_neq; lia).
  simpl orb. cbv iota.
  assert (Hpath : JsString.substring (buildSegmentRef p d s) 0 (JsString.len res) = res).
  { rewrite Hshape. apply js_substring_prefix. }
  rewrite Hpath.
  replace (JsString.startsWith res "@") with true by reflexivity.
  rewrite Hslash.
  replace (1 + JsString.len p =? -1) with false by (symmetry; apply Z.eqb_neq; lia).
  f_equal. f_equal.
  - f_equal. unfold res.
    change ("@" +:+ p +:+ "/" +:+ d) with ("@" +:+ p +:+ ("/" +:+ d)).
    apply (js_substring_middle "@" p ("/" +:+ d)).
  - f_equal. unfold res.
    replace ("@" +:+ p +:+ "/" +:+ d) with (("@" +:+ p +:+ "/") +:+ d)
      by (simpl; now rewrite append_assoc).
    apply js_substringFrom_suffix.
    rewrite !len_append. unfold JsString.len. simpl String.length. lia.
  - rewrite Hshape.
    replace (res +:+ String "#" s) with ((res +:+ "#") +:+ s)
      by (now rewrite append_assoc).
    apply js_substringFrom_suffix.
    rewrite len_append. unfold JsString.len. simpl String.length. lia.
Qed.

(** The law at the example of the source's documentation. *)
Lemma parseSegmentRef_buildSegmentRef_witness :
  parseSegmentRef (buildSegmentRef "docs" "api-guide" "authentication")
  = Some {| project := Some "docs"; documentId := Some "api-guide";
            segmentId := "authentication";
            original := "@docs/api-guide#authentication" |}.
Proof.
  apply (parseSegmentRef_buildSegmentRef "docs" "api-guide" "authentication");
    [reflexivity | reflexivity | discriminate].
Defined.

(** C1 as stated fails: with a "/" inside the project the parser splits
    the resource path at the first "/", so the project comes back
    shortened and the document id lengthened. *)
Lemma parseSegmentRef_buildSegmentRef_counterexample :
  "a/b" <> EmptyString /\ "c" <> EmptyString /\ "d" <> EmptyString /\
  parseSegmentRef (buildSegmentRef "a/b" "c" "d")
  = Some {| project := Some "a"; documentId := Some "b/c"; segmentId := "d";
            original := "@a/b/c#d" |} /\
  parseSegmentRef (buildSegmentRef "a/b" "c" "d")
  <> Some {| project := Some "a/b"; documentId := Some "c"; segmentId := "d";
             original := buildSegmentRef "a/b" "c" "d" |}.
Proof. repeat split; try discriminate; reflexivity. Qed.

End ReferenceFacts.

(** ** Marker pairing (parser.ts) *)

Section MarkerFacts.

Import Segments.

(** If the pairing loop meets a start marker that begins before the
    previous end marker, it cannot succeed; and if the ordering test
    holds up to that pair, it stops with the nesting error of the first
    such pair. *)
Lemma pairMarkers_nested (offsetAdjust : Z) (i : nat) :
  forall (starts ends : list Regex.Match) (s0 s1 e0 : Regex.Match),
  starts !! i = Some s0 -> starts !! S i = Some s1 -> ends !! i = Some e0 ->
  Regex.index s1 < Regex.index e0 ->
  (forall markers, pairMarkers starts ends offsetAdjust <> Ok markers) /\
  ((forall (j : nat) s e, (j <= i)%nat -> starts !! j = Some s -> ends !! j = Some e ->
      Regex.index s + JsString.len (Regex.matched s) <= Regex.index e) ->
   exists (k : nat) outer inner e,
     (k <= i)%nat /\ starts !! k = Some outer /\ starts !! S k = Some inner /\
     ends !! k = Some e /\ Regex.index inner < Regex.index e /\
     pairMarkers starts ends offsetAdjust
     = Err (nestedMessage (Regex.group1 inner) (Regex.group1 outer))).
Proof.
  induction i as [|i IH]; intros starts ends s0 s1 e0 Hs0 Hs1 He0 Hlt.
  - destruct starts as [|a [|b starts]]; try discriminate.
    destruct ends as [|e ends]; try discriminate.
    simplify_eq/=. unfold nestedAt.
    destruct (Z.ltb_spec (Regex.index e0) (Regex.index s0 + JsString.len (Regex.matched s0)))
      as [Hord|Hord].
    + split; [discriminate|]. intros Hall.
      specialize (Hall 0%nat s0 e0 (Nat.le_refl _) eq_refl eq_refl). lia.
    + destruct (Z.ltb_spec (Regex.index s1) (Regex.index e0)) as [_|Hge]; [|lia].
      split; [discriminate|]. intros _.
      exists 0%nat, s0, s1, e0. repeat split; auto.
  - destruct starts as [|a starts]; try discriminate.
    destruct ends as [|e ends]; try discriminate.
    change ((a :: starts) !! S i) with (starts !! i) in Hs0.
    change ((a :: starts) !! S (S i)) with (starts !! S i) in Hs1.
    change ((e :: ends) !! S i) with (ends !! i) in He0.
    destruct (IH starts ends s0 s1 e0 Hs0 Hs1 He0 Hlt) as [Hno Hnest].
    simpl.
    destruct (Z.ltb_spec (Regex.index e) (Regex.index a + JsString.len (Regex.matched a)))
      as [Hord|Hord].
    + split; [discriminate|]. intros Hall.
      specialize (Hall 0%nat a e (Nat.le_0_l _) eq_refl eq_refl). lia.
    + destruct starts as [|b starts]; [simplify_eq/=|].
      unfold nestedAt. cbn [hd_error].
      destruct (Z.ltb_spec (Regex.index b) (Regex.index e)) as [Hnst|Hnst].
      * cbv iota. split; [discriminate|]. intros _.
        exists 0%nat, a, b, e. repeat split; auto. lia.
      * cbv iota. split.
        -- intros markers. destruct (pairMarkers (b :: starts) ends offsetAdjust) eqn:E;
             simpl; [|discriminate]. exfalso. eapply Hno. reflexivity.
        -- intros Hall.
           destruct Hnest as (k & outer & inner & e' & Hk & H1 & H2 & H3 & H4 & H5).
           { intros j s e' Hj. apply (Hall (S j) s e'). lia. }
           exists (S k), outer, inner, e'. repeat split; auto; try lia.
           rewrite H5. reflexivity.
Qed.

(** Take any content in which the start marker number [i + 1]
    begins before the end marker number [i] begins. Pairing its markers
    never succeeds; and when the counts of start and end markers agree
    and every end marker up to number [i] begins at or after the end of
    its start marker, pairing fails with the nesting error, whose message
    names the id of the inner and of the outer segment of the first such
    pair. [parseSegments] fails with the same error on every document
    that has this content after its frontmatter. *)
Lemma parseMarkers_nested (content : string) (offsetAdjust : Z)
  (i : nat) (s0 s1 e0 : Regex.Match) :
  Regex.execAll SEGMENT_START_RE content !! i = Some s0 ->
  Regex.execAll SEGMENT_START_RE content !! S i = Some s1 ->
  Regex.execAll SEGMENT_END_RE content !! i = Some e0 ->
  Regex.index s1 < Regex.index e0 ->
  (forall markers, parseMarkers content offsetAdjust <> Ok markers) /\
  (length (Regex.execAll SEGMENT_START_RE content)
   = length (Regex.execAll SEGMENT_END_RE content) ->
   (forall (j : nat) s e, (j <= i)%nat ->
      Regex.execAll SEGMENT_START_RE content !! j = Some s ->
      Regex.execAll SEGMENT_END_RE content !! j = Some e ->
      Regex.index s + JsString.len (Regex.matched s) <= Regex.index e) ->
   exists (k : nat) outer inner e,
     (k <= i)%nat /\
     Regex.execAll SEGMENT_START_RE content !! k = Some outer /\
     Regex.execAll SEGMENT_START_RE content !! S k = Some inner /\
     Regex.execAll SEGMENT_END_RE content !! k = Some e /\
     Regex.index inner < Regex.index e /\
     parseMarkers content offsetAdjust
     = Err ("Nested segments not allowed: segment '" +:+ Regex.group1 inner
            +:+ "' starts before '" +:+ Regex.group1 outer +:+ "' ends") /\
     forall yaml_parse docText fm,
       extractFrontmatterBlock yaml_parse docText = Ok (fm, offsetAdjust, content) ->
       parseSegments yaml_parse docText
       = Err ("Nested segments not allowed: segment '" +:+ Regex.group1 inner
              +:+ "' starts before '" +:+ Regex.group1 outer +:+ "' ends")).
Proof.
  intros Hs0 Hs1 He0 Hlt.
  destruct (pairMarkers_nested offsetAdjust i _ _ s0 s1 e0 Hs0 Hs1 He0 Hlt) as [Hno Hnest].
  unfold parseMarkers.
  split.
  - intros markers.
    destruct (negb _); [discriminate|].
    destruct (pairMarkers _ _ offsetAdjust) eqn:E; simpl; [|discriminate].
    exfalso. eapply Hno. reflexivity.
  - intros Hcount Hord.
    destruct (Hnest Hord) as (k & outer & inner & e & Hk & H1 & H2 & H3 & H4 & H5).
    assert (Hpm : (if negb (length (Regex.execAll SEGMENT_START_RE content)
                            =? length (Regex.execAll SEGMENT_END_RE content))%nat
                   then Err (mismatchedMessage
                               (length (Regex.execAll SEGMENT_START_RE content))
                               (length (Regex.execAll SEGMENT_END_RE content)))
                   else pairMarkers (Regex.execAll SEGMENT_START_RE content)
                          (Regex.execAll SEGMENT_END_RE content) offsetAdjust)
                  = Err (nestedMessage (Regex.group1 inner) (Regex.group1 outer))).
    { rewrite Hcount, Nat.eqb_refl. exact H5. }
    exists k, outer, inner, e. repeat split; auto.
    intros yaml_parse docText fm Hfm.
    unfold parseSegments. rewrite Hfm. simpl bind. unfold parseMarkers.
    rewrite Hpm. reflexivity.
Qed.

End MarkerFacts.

Section MarkerExamples.

Import Segments Samples.

Example parseSegments_nested_message :
  parseSegments noYaml nestedDoc
  = Err "Nested segments not allowed: segment 'B' starts before 'A' ends".
Proof. vm_compute. reflexivity. Qed.

End MarkerExamples.

(** ** The line scanner (src/segments.ts) *)

Section LineFacts.

Import LineSegments.

Lemma scanLines_app (a b : list string) (st : ScanState) :
  scanLines (a ++ b) st = bind (scanLines a st) (scanLines b).
Proof.
  revert st. induction a as [|l a IH]; intros st; simpl; [reflexivity|].
  destruct (stepLine st l); simpl; [apply IH | reflexivity].
Qed.

(** Every successful iteration moves to the next line. *)
Lemma stepLine_index (st st' : ScanState) (line : string) :
  stepLine st line = Ok st' -> i st' = i st + 1.
Proof.
  unfold stepLine. intros H.
  destruct (classify line); destruct (currentSegment st);
    simplify_eq/=; reflexivity.
Qed.

Lemma scanLines_index (lines : list string) (st st' : ScanState) :
  scanLines lines st = Ok st' -> i st' = i st + Z.of_nat (length lines).
Proof.
  revert st. induction lines as [|l lines IH]; intros st H; simpl in *.
  - simplify_eq. lia.
  - destruct (stepLine st l) as [st1|] eqn:E; simpl in H; [|discriminate].
    rewrite (IH _ H), (stepLine_index _ _ _ E). lia.
Qed.

(** Text lines never fail and leave the open segment as it is. *)
Lemma scanLines_text (lines : list string) (st : ScanState) :
  Forall (fun l => classify l = TextLine) lines ->
  exists st', scanLines lines st = Ok st' /\ currentSegment st' = currentSegment st.
Proof.
  intros H. revert st. induction H as [|l lines Hl _ IH]; intros st; simpl.
  - eauto.
  - unfold stepLine. rewrite Hl. simpl.
    destruct (IH {| i := i st + 1; currentSegment := currentSegment st;
                    contentLines := match currentSegment st with
                                    | Some _ => contentLines st ++ [l]
                                    | None => contentLines st
                                    end;
                    segments := segments st |}) as (st' & -> & Hc).
    eauto.
Qed.

(** A prefix that parses on its own leaves the scanner with no segment
    open, at the line after it. *)
Lemma parseLines_ok_state (pre : list string) (segs : list ParsedSegment) :
  parseLines pre = Ok segs ->
  exists st, scanLines pre initialState = Ok st /\ currentSegment st = None
             /\ i st = Z.of_nat (length pre).
Proof.
  unfold parseLines. intros H.
  destruct (scanLines pre initialState) as [st|] eqn:E; simpl in H; [|discriminate].
  exists st. split; [reflexivity|]. split.
  - unfold finish in H. destruct (currentSegment st); [discriminate | reflexivity].
  - rewrite (scanLines_index _ _ _ E). reflexivity.
Qed.

(** The three structural errors are three different messages. *)
Lemma errors_distinct (k : string) (n m : Z) :
  unclosedError k <> unmatchedError n /\
  unclosedError k <> nestedError m /\
  unmatchedError n <> nestedError m.
Proof. repeat split; discriminate. Qed.

(** Let the lines before some line parse on their own. If that line is
    a start marker and only text follows it, parsing fails with the
    unclosed-marker error naming its key; if that line is an end marker,
    parsing fails with the unmatched-end-marker error naming its line
    number. *)
Lemma parseSegments_line_errors (markdown : string)
  (pre : list string) (line : string) (post : list string)
  (segs : list ParsedSegment) :
  JsString.split JsString.LF markdown = pre ++ line :: post ->
  parseLines pre = Ok segs ->
  (forall k ty au, classify line = StartLine k ty au ->
     Forall (fun l => classify l = TextLine) post ->
     parseSegments markdown = Err ("Unclosed segment marker: " +:+ k)) /\
  (classify line = EndLine ->
     parseSegments markdown
     = Err ("Unmatched end marker at line " +:+ pretty (Z.of_nat (length pre) + 1))).
Proof.
  intros Hsplit Hpre.
  destruct (parseLines_ok_state _ _ Hpre) as (st & Hscan & Hcur & Hi).
  unfold parseSegments, parseLines. rewrite Hsplit, scanLines_app, Hscan. simpl bind.
  split.
  - intros k ty au Hline Hpost. unfold stepLine. rewrite Hline, Hcur. simpl bind.
    match goal with |- context [scanLines post ?s] =>
      destruct (scanLines_text post s Hpost) as (st' & -> & Hc) end.
    simpl. unfold finish. rewrite Hc. reflexivity.
  - intros Hline. unfold stepLine. rewrite Hline, Hcur, Hi. reflexivity.
Qed.

End LineFacts.

(** ** Two-phase validation (parser.ts, validator.ts) *)

Section ValidationFacts.

Import Segments.

Lemma fold_seen {A E} (key : A -> string)
  (step : gset string -> A -> list E)
  (items : list A) (errors : list E) (seen : gset string) :
  fold_left (fun '(errs, seen) x => (errs ++ step seen x, {[key x]} ∪ seen))
            items (errors, seen)
  = (errors ++ pushed key step seen items,
     list_to_set (List.map key items) ∪ seen).
Proof.
  revert errors seen. induction items as [|x r IH]; intros errors seen; simpl.
  - rewrite app_nil_r. f_equal. set_solver.
  - rewrite IH, <- app_assoc. f_equal. set_solver.
Qed.

Lemma scanWithSeen_spec {A} (key : A -> string)
  (step : gset string -> A -> list ValidationError)
  (items : list A) (errors : list ValidationError) :
  scanWithSeen key step items errors
  = (errors ++ pushed key step ∅ items, list_to_set (List.map key items)).
Proof.
  unfold scanWithSeen. rewrite fold_seen. f_equal. set_solver.
Qed.

Lemma fold_push {A E} (f : A -> list E) (items : list A) (errors : list E) :
  fold_left (fun errs x => errs ++ f x) items errors = errors ++ List.flat_map f items.
Proof.
  revert errors. induction items as [|x r IH]; intros errors; simpl.
  - now rewrite app_nil_r.
  - now rewrite IH, <- app_assoc.
Qed.

Lemma withMessage_app (msg : string) (a b : list ValidationError) :
  withMessage msg (a ++ b) = withMessage msg a ++ withMessage msg b.
Proof. apply List.filter_app. Qed.

Lemma withMessage_when_other (msg : string) (b : bool) (e : ValidationError) :
  String.eqb (message e) msg = false -> withMessage msg (when b e) = [].
Proof. intros H. destruct b; simpl; [rewrite H|]; reflexivity. Qed.

Lemma withMessage_when_same (msg : string) (b : bool) (e : ValidationError) :
  String.eqb (message e) msg = true -> withMessage msg (when b e) = when b e.
Proof. intros H. destruct b; simpl; [rewrite H|]; reflexivity. Qed.

Lemma withMessage_pushed_nil {A} (msg : string) (key : A -> string)
  (step : gset string -> A -> list ValidationError) (items : list A) :
  (forall seen x, withMessage msg (step seen x) = []) ->
  forall seen, withMessage msg (pushed key step seen items) = [].
Proof.
  intros H. induction items as [|x r IH]; intros seen; simpl; [reflexivity|].
  now rewrite withMessage_app, H, IH.
Qed.

Ltac drop_other_messages :=
  repeat (rewrite withMessage_app);
  repeat (rewrite withMessage_when_other by reflexivity);
  repeat (rewrite ?app_nil_l, ?app_nil_r).

Lemma rangeErrors_other (msg : string) (strict : bool) (sp : SegmentSpec) :
  msg = msgMarkerWithoutSpec \/ msg = msgSpecWithoutMarker ->
  withMessage msg (rangeErrors strict sp) = [].
Proof.
  intros [-> | ->]; unfold rangeErrors;
    destruct (generate sp); drop_other_messages; reflexivity.
Qed.

Lemma strictSpecErrors_other (msg : string) (seen : gset string) (sp : SegmentSpec) :
  msg = msgMarkerWithoutSpec \/ msg = msgSpecWithoutMarker ->
  withMessage msg (strictSpecErrors seen sp) = [].
Proof.
  intros H. unfold strictSpecErrors.
  destruct (String.eqb (spec_id sp) EmptyString);
    repeat (rewrite withMessage_app); rewrite ?(rangeErrors_other msg true sp H);
    destruct H as [-> | ->]; drop_other_messages; reflexivity.
Qed.

Lemma looseSpecErrors_other (msg : string) (seen : gset string) (sp : SegmentSpec) :
  msg = msgMarkerWithoutSpec \/ msg = msgSpecWithoutMarker ->
  withMessage msg (looseSpecErrors seen sp) = [].
Proof.
  intros H. unfold looseSpecErrors.
  repeat (rewrite withMessage_app); rewrite (rangeErrors_other msg false sp H).
  destruct H as [-> | ->]; drop_other_messages; reflexivity.
Qed.

Lemma looseMarkerErrors_other (msg : string) (seen : gset string) (seg : SegmentInstance) :
  msg = msgMarkerWithoutSpec \/ msg = msgSpecWithoutMarker ->
  withMessage msg (looseMarkerErrors seen seg) = [].
Proof.
  intros [-> | ->]; unfold looseMarkerErrors; drop_other_messages; reflexivity.
Qed.

Lemma pushed_marker_findings (seen : gset string) (segs : list SegmentInstance) :
  withMessage msgMarkerWithoutSpec (pushed id strictMarkerErrors seen segs)
  = List.map markerWithoutSpec (List.filter (fun seg => negb (isSome (spec seg))) segs).
Proof.
  revert seen. induction segs as [|seg r IH]; intros seen; simpl; [reflexivity|].
  rewrite withMessage_app, IH. unfold strictMarkerErrors.
  drop_other_messages.
  rewrite withMessage_when_same by reflexivity.
  destruct (negb (isSome (spec seg))); reflexivity.
Qed.

Lemma pushed_marker_orphans (seen : gset string) (segs : list SegmentInstance) :
  withMessage msgSpecWithoutMarker (pushed id strictMarkerErrors seen segs) = [].
Proof.
  apply withMessage_pushed_nil. intros s x. unfold strictMarkerErrors.
  drop_other_messages. reflexivity.
Qed.

Lemma orphan_findings (markerIDs : gset string) (specs : list SegmentSpec) :
  withMessage msgSpecWithoutMarker (List.flat_map (orphanSpecErrors markerIDs) specs)
  = List.map specWithoutMarker
      (List.filter (fun sp => negb (bool_decide (spec_id sp ∈ markerIDs))) specs).
Proof.
  induction specs as [|sp r IH]; simpl; [reflexivity|].
  rewrite withMessage_app, IH. unfold orphanSpecErrors.
  rewrite withMessage_when_same by reflexivity.
  destruct (negb _); reflexivity.
Qed.

Lemma orphan_other (markerIDs : gset string) (specs : list SegmentSpec) :
  withMessage msgMarkerWithoutSpec (List.flat_map (orphanSpecErrors markerIDs) specs) = [].
Proof.
  induction specs as [|sp r IH]; simpl; [reflexivity|].
  rewrite withMessage_app, IH. unfold orphanSpecErrors.
  drop_other_messages. reflexivity.
Qed.

(** Strict validation: exactly one finding per marker without a spec and
    one per spec without a marker, in document and in spec order. *)
Lemma validateSegments_cross_links (parsed : ParsedDoc) :
  withMessage msgMarkerWithoutSpec (validateSegments parsed)
  = List.map markerWithoutSpec
      (List.filter (fun seg => negb (isSome (spec seg))) (segments parsed))
  /\ withMessage msgSpecWithoutMarker (validateSegments parsed)
     = List.map specWithoutMarker
         (List.filter
            (fun sp => negb (bool_decide (spec_id sp ∈ List.map id (segments parsed))))
            (default [] (specsOf (frontmatter parsed)))).
Proof.
  unfold validateSegments. rewrite !scanWithSeen_spec, fold_push.
  rewrite !withMessage_app.
  rewrite !(withMessage_pushed_nil _ spec_id strictSpecErrors)
    by (intros; apply strictSpecErrors_other; auto).
  rewrite pushed_marker_findings, pushed_marker_orphans, orphan_findings, orphan_other.
  simpl. rewrite app_nil_r. split; [reflexivity|].
  f_equal. apply List.filter_ext. intros sp. f_equal.
  apply bool_decide_ext. rewrite elem_of_list_to_set. reflexivity.
Qed.

(** Loose validation reports neither kind. *)
Lemma validateLoose_no_cross_links (parsed : ParsedDoc) :
  withMessage msgMarkerWithoutSpec (validateLoose parsed) = []
  /\ withMessage msgSpecWithoutMarker (validateLoose parsed) = [].
Proof.
  unfold validateLoose. rewrite !scanWithSeen_spec. simpl.
  rewrite !withMessage_app.
  rewrite !(withMessage_pushed_nil _ spec_id looseSpecErrors)
    by (intros; apply looseSpecErrors_other; auto).
  rewrite !(withMessage_pushed_nil _ id looseMarkerErrors)
    by (intros; apply looseMarkerErrors_other; auto).
  split; reflexivity.
Qed.

End ValidationFacts.

Section TwoPhase.

Import Segments.

Lemma fold_insert_lookup (specs : list SegmentSpec) (m : gmap string SegmentSpec)
  (k : string) :
  match fold_left (fun m sp => <[spec_id sp := sp]> m) specs m !! k with
  | Some sp => (In sp specs /\ spec_id sp = k) \/ m !! k = Some sp
  | None => m !! k = None /\ forall sp, In sp specs -> spec_id sp <> k
  end.
Proof.
  revert m. induction specs as [|x r IH]; intros m; simpl.
  - destruct (m !! k) eqn:E; [right; reflexivity | split; [reflexivity | tauto]].
  - specialize (IH (<[spec_id x := x]> m)).
    destruct (fold_left _ r _ !! k) as [sp|] eqn:E.
    + destruct IH as [[Hin Hid] | Hm]; [left; tauto|].
      destruct (decide (spec_id x = k)) as [Heq|Hne].
      * subst k. rewrite lookup_insert_eq in Hm. simplify_eq. left. tauto.
      * rewrite lookup_insert_ne in Hm by assumption. right. exact Hm.
    + destruct IH as [Hm Hall].
      destruct (decide (spec_id x = k)) as [Heq|Hne].
      * subst k. rewrite lookup_insert_eq in Hm. discriminate.
      * rewrite lookup_insert_ne in Hm by assumption. split; [exact Hm|].
        intros sp [<- | Hin]; [exact Hne | now apply Hall].
Qed.

(** The spec an instance gets is a spec of the frontmatter with its id,
    and it gets none exactly when the frontmatter has no such spec. *)
Lemma buildSpecMap_lookup (specs : list SegmentSpec) (k : string) :
  match buildSpecMap specs !! k with
  | Some sp => In sp specs /\ spec_id sp = k
  | None => forall sp, In sp specs -> spec_id sp <> k
  end.
Proof.
  unfold buildSpecMap. pose proof (fold_insert_lookup specs ∅ k) as H.
  destruct (fold_left _ specs ∅ !! k).
  - destruct H as [H | H]; [exact H | rewrite lookup_empty in H; discriminate].
  - apply H.
Qed.

(** C4. When the frontmatter step succeeds and the markers of the
    content pair, [parseSegments] succeeds: it yields one instance per
    marker range, in order, each with the frontmatter spec of its id, or
    with no spec when the frontmatter has none, which is no failure.
    Strict validation of the result then reports exactly one finding for
    each instance without a spec and exactly one for each spec whose id
    no marker carries; loose validation reports no finding of either
    kind. *)
Theorem parseSegments_two_phase
  (yaml_parse : string -> result (option FrontmatterConfig))
  (docText : string) (fm : FrontmatterConfig) (fmEnd : Z) (content : string)
  (markers : list MarkerRange) :
  extractFrontmatterBlock yaml_parse docText = Ok (fm, fmEnd, content) ->
  parseMarkers content fmEnd = Ok markers ->
  exists doc,
    parseSegments yaml_parse docText = Ok doc
    /\ frontmatter doc = fm
    /\ List.map id (segments doc) = List.map mr_id markers
    /\ (forall seg, In seg (segments doc) ->
          match spec seg with
          | Some sp => In sp (default [] (specsOf fm)) /\ spec_id sp = id seg
          | None => forall sp, In sp (default [] (specsOf fm)) -> spec_id sp <> id seg
          end)
    /\ withMessage msgMarkerWithoutSpec (validateStrict doc)
       = List.map markerWithoutSpec
           (List.filter (fun seg => negb (isSome (spec seg))) (segments doc))
    /\ withMessage msgSpecWithoutMarker (validateStrict doc)
       = List.map specWithoutMarker
           (List.filter
              (fun sp => negb (bool_decide (spec_id sp ∈ List.map id (segments doc))))
              (default [] (specsOf fm)))
    /\ withMessage msgMarkerWithoutSpec (validateLoose doc) = []
    /\ withMessage msgSpecWithoutMarker (validateLoose doc) = [].
Proof.
  intros Hfm Hmarkers.
  unfold parseSegments. rewrite Hfm. simpl bind. rewrite Hmarkers. simpl bind.
  eexists. split; [reflexivity|].
  split; [reflexivity|].
  split; [simpl; rewrite List.map_map; reflexivity|].
  split.
  - simpl. intros seg Hin. apply in_map_iff in Hin as (mk & <- & _). simpl.
    apply buildSpecMap_lookup.
  - pose proof (validateSegments_cross_links
                  {| frontmatter := fm;
                     segments := List.map (instanceOf docText
                                             (buildSpecMap (default [] (specsOf fm)))) markers;
                     frontmatterEndByte := fmEnd;
                     contentWithoutFrontmatter := content |}) as [H1 H2].
    pose proof (validateLoose_no_cross_links
                  {| frontmatter := fm;
                     segments := List.map (instanceOf docText
                                             (buildSpecMap (default [] (specsOf fm)))) markers;
                     frontmatterEndByte := fmEnd;
                     contentWithoutFrontmatter := content |}) as [H3 H4].
    unfold validateStrict. auto.
Qed.

End TwoPhase.

Section TwoPhaseExamples.

Import Segments Samples.

Lemma parseSegments_two_phase_witness :
  exists doc,
    parseSegments sampleYaml sampleDoc = Ok doc
    /\ frontmatter doc = normalizeFrontmatter sampleConfig
    /\ List.map id (segments doc) = ["overview"; "extra"]
    /\ (forall seg, In seg (segments doc) ->
          match spec seg with
          | Some sp => In sp (default [] (specsOf (normalizeFrontmatter sampleConfig)))
                       /\ spec_id sp = id seg
          | None => forall sp, In sp (default [] (specsOf (normalizeFrontmatter sampleConfig)))
                               -> spec_id sp <> id seg
          end)
    /\ withMessage msgMarkerWithoutSpec (validateStrict doc)
       = List.map markerWithoutSpec
           (List.filter (fun seg => negb (isSome (spec seg))) (segments doc))
    /\ withMessage msgSpecWithoutMarker (validateStrict doc)
       = List.map specWithoutMarker
           (List.filter
              (fun sp => negb (bool_decide (spec_id sp ∈ List.map id (segments doc))))
              (default [] (specsOf (normalizeFrontmatter sampleConfig))))
    /\ withMessage msgMarkerWithoutSpec (validateLoose doc) = []
    /\ withMessage msgSpecWithoutMarker (validateLoose doc) = [].
Proof.
  refine (parseSegments_two_phase sampleYaml sampleDoc
            (normalizeFrontmatter sampleConfig) 21
            (JsString.substringFrom sampleDoc 21)
            [ {| mr_id := "overview"; startMarkerBegin := 29; startMarkerEnd := 77;
                 endMarkerBegin := 91; endMarkerEnd := 122 |};
              {| mr_id := "extra"; startMarkerBegin := 123; startMarkerEnd := 168;
                 endMarkerBegin := 184; endMarkerEnd := 215 |} ] _ _).
  - vm_compute. reflexivity.
  - vm_compute. reflexivity.
Defined.

(** On the sample, strict validation names the marker and the spec that
    miss their counterpart; loose validation is silent. *)
Example validateStrict_sample :
  match parseSegments sampleYaml sampleDoc with
  | Ok doc =>
      validateStrict doc
      = [ mkError (Some "extra") None msgMarkerWithoutSpec;
          mkError (Some "api-ref") None msgSpecWithoutMarker ]
      /\ validateLoose doc = []
  | Err _ => False
  end.
Proof. vm_compute. split; reflexivity. Qed.

End TwoPhaseExamples.

(** ** Page aggregation: the average boost *)

Section AggregateFacts.

Import Aggregate Samples.

Variable sha256_hex : string -> string.

Lemma fold_step_weighted (segs : list AnnotatedSegment) (a : Accum) :
  weightedBoostSum (fold_left step segs a)
  = sumOver (fun seg => PrimFloat.mul (usedBoost seg) (retrievalTokens seg)) segs
            (weightedBoostSum a).
Proof.
  revert a. induction segs as [|seg r IH]; intros a; [reflexivity|].
  simpl. unfold sumOver in *. rewrite IH. reflexivity.
Qed.

Lemma fold_step_tokens (segs : list AnnotatedSegment) (a : Accum) :
  totalTokens (fold_left step segs a) = tokensOver segs (totalTokens a).
Proof.
  revert a. induction segs as [|seg r IH]; intros a; [reflexivity|].
  simpl. unfold tokensOver in *. rewrite IH. reflexivity.
Qed.

(** The loop computes the token-weighted average of the boosts it uses. *)
Lemma average_boost_used (annotations : ExternalAnnotations) :
  average_boost (aggregatePageMetadata sha256_hex annotations)
  = weightedAverage usedBoost (segments annotations).
Proof.
  unfold aggregatePageMetadata, weightedAverage. simpl average_boost.
  rewrite fold_step_weighted, fold_step_tokens. reflexivity.
Qed.

Lemma sumOver_ext (f g : AnnotatedSegment -> number) (segs : list AnnotatedSegment)
  (start : number) :
  Forall (fun seg => f seg = g seg) segs -> sumOver f segs start = sumOver g segs start.
Proof.
  intros H. revert start. induction H as [|seg r Hseg _ IH]; intros start; [reflexivity|].
  unfold sumOver in *. simpl. rewrite Hseg. apply IH.
Qed.

(** When no segment declares a falsy boost ([0], [-0] or [NaN]), the
    average is the token-weighted average of the declared boosts. *)
Lemma average_boost_declared (annotations : ExternalAnnotations) :
  Forall (fun seg => match boost seg with
                     | Some b => truthyNumber b = true
                     | None => True
                     end) (segments annotations) ->
  average_boost (aggregatePageMetadata sha256_hex annotations)
  = weightedAverage declaredBoost (segments annotations).
Proof.
  intros H. rewrite average_boost_used. unfold weightedAverage.
  rewrite (sumOver_ext
             (fun seg => PrimFloat.mul (usedBoost seg) (retrievalTokens seg))
             (fun seg => PrimFloat.mul (declaredBoost seg) (retrievalTokens seg)));
    [reflexivity|].
  eapply Forall_impl; [exact H|]. intros seg Hseg. cbv beta in Hseg |- *.
  unfold usedBoost, declaredBoost, orNumber.
  destruct (boost seg) as [b|]; [|reflexivity].
  rewrite Hseg. reflexivity.
Qed.

(** With no retrieval tokens at all the average is exactly [1.0]. *)
Lemma average_boost_no_tokens (annotations : ExternalAnnotations) :
  tokensOver (segments annotations) 0%float = 0%float ->
  average_boost (aggregatePageMetadata sha256_hex annotations) = 1%float.
Proof.
  intros H. rewrite average_boost_used. unfold weightedAverage. rewrite H. reflexivity.
Qed.

(** Budgets 800 and 200 with boosts 1.2 and 1.0 average to 1.16. *)
Example average_boost_800_200 :
  average_boost
    (aggregatePageMetadata sha256_hex
       (page [plainSegment "a" (Some 1.2%float) (Some 800%float);
              plainSegment "b" (Some 1%float) (Some 200%float)]))
  = 1.16%float.
Proof. vm_compute. reflexivity. Qed.

(** C5 fails at a declared boost of zero. The loop reads the boost as
    [segment.boost || 1.0], so the declared [0] is replaced by [1.0]: one
    segment of 100 retrieval tokens and boost [0] averages to [1.0],
    where the token-weighted average of the declared boosts is [0]. *)
Theorem average_boost_zero_boost :
  average_boost
    (aggregatePageMetadata sha256_hex
       (page [plainSegment "a" (Some 0%float) (Some 100%float)]))
  = 1%float
  /\ weightedAverage declaredBoost [plainSegment "a" (Some 0%float) (Some 100%float)]
     = 0%float.
Proof. split; vm_compute; reflexivity. Qed.

End AggregateFacts.

(** ** Journeys: the depth-first search finds exactly the cycles *)

Section DfsFacts.

Import Journeys.

Variable graph : gmap string (list string).

(** The identifiers the search may meet; closed under the edges. *)
Variable nodesOf : gset string.

Hypothesis nodesOf_closed : forall u v, edge graph u v -> v ∈ nodesOf.

Lemma safe_no_cycle (x : string) : safe graph x -> ~ tc (edge graph) x x.
Proof.
  induction 1 as [x _ IH]. intros Hc.
  inversion Hc as [? ? Hxx | ? y ? Hxy Hyx]; subst.
  - apply (IH x Hxx). exact Hc.
  - apply (IH y Hxy). eapply tc_rtc_r; [exact Hyx|]. apply rtc_once. exact Hxy.
Qed.

Lemma visitNeighbors_spec (call : string -> DfsState -> option (bool * DfsState))
  (fuel : nat) (u : string) :
  (forall n st, dfsPre graph nodesOf fuel n st -> dfsPost graph n st (call n st)) ->
  forall (ns : list string) (st : DfsState),
  (forall n, n ∈ ns -> edge graph u n) ->
  recStack st ⊆ visited st -> finishedSafe graph st ->
  (forall x, x ∈ recStack st -> rtc (edge graph) x u) ->
  (size (nodesOf ∖ visited st) < fuel)%nat ->
  exists r st', visitNeighbors call ns st = Some (r, st')
    /\ (r = true -> hasCycle graph)
    /\ (r = false ->
          finishedSafe graph st' /\ recStack st' = recStack st
          /\ visited st ⊆ visited st' /\ forall n, n ∈ ns -> safe graph n).
Proof.
  intros Hcall. induction ns as [|n ns IH]; intros st Hedge Hsub Hfin Hpath Hsize.
  - exists false, st. simpl. split; [reflexivity|]. split; [discriminate|].
    intros _. split; [exact Hfin|]. split; [reflexivity|]. split; [reflexivity|].
    intros n Hn. inversion Hn.
  - simpl. assert (Hun : edge graph u n) by (apply Hedge; left).
    assert (Hrest : forall m, m ∈ ns -> edge graph u m) by (intros m Hm; apply Hedge; now right).
    case_bool_decide as Hvis.
    + destruct (Hcall n st) as (r1 & st1 & -> & Htrue & Hfalse).
      { split; [eapply nodesOf_closed; eassumption|].
        split; [exact Hvis|]. split; [exact Hsub|]. split; [exact Hfin|].
        split; [|exact Hsize].
        intros x Hx. eapply rtc_r; [apply Hpath, Hx | exact Hun]. }
      destruct r1.
      { exists true, st1. split; [reflexivity|]. split; [exact Htrue | discriminate]. }
      destruct (Hfalse eq_refl) as (Hfin1 & Hrec1 & Hvis1).
      destruct (IH st1 Hrest) as (r2 & st2 & -> & Htrue2 & Hfalse2).
      * rewrite Hrec1. set_solver.
      * exact Hfin1.
      * rewrite Hrec1. exact Hpath.
      * eapply Nat.le_lt_trans; [|exact Hsize]. apply subseteq_size. set_solver.
      * exists r2, st2. split; [reflexivity|]. split; [exact Htrue2|].
        intros ->. destruct (Hfalse2 eq_refl) as (Hfin2 & Hrec2 & Hvis2 & Hsafe).
        split; [exact Hfin2|]. split; [congruence|]. split; [set_solver|].
        intros m Hm. apply elem_of_cons in Hm as [-> | Hm].
        -- apply Hfin1; [set_solver|]. rewrite Hrec1. set_solver.
        -- now apply Hsafe.
    + assert (Hin : n ∈ visited st) by (destruct (decide (n ∈ visited st)); tauto).
      case_bool_decide as Hrec.
      * exists true, st. split; [reflexivity|]. split; [|discriminate].
        intros _. exists u. eapply tc_rtc_r; [apply tc_once; exact Hun|]. now apply Hpath.
      * destruct (IH st Hrest Hsub Hfin Hpath Hsize) as (r2 & st2 & -> & Htrue2 & Hfalse2).
        exists r2, st2. split; [reflexivity|]. split; [exact Htrue2|].
        intros ->. destruct (Hfalse2 eq_refl) as (Hfin2 & Hrec2 & Hvis2 & Hsafe).
        split; [exact Hfin2|]. split; [exact Hrec2|]. split; [exact Hvis2|].
        intros m Hm. apply elem_of_cons in Hm as [-> | Hm].
        -- now apply Hfin.
        -- now apply Hsafe.
Qed.

(** The search from an unvisited node, with fuel beyond the number of
    unvisited nodes, returns; when it answers [true] the graph has a
    cycle, and when it answers [false] the node and all it reaches are
    finished and safe, and the stack is as before. *)
Lemma dfs_spec (fuel : nat) :
  forall (u : string) (st : DfsState),
  dfsPre graph nodesOf fuel u st -> dfsPost graph u st (dfs fuel graph u st).
Proof.
  induction fuel as [|fuel IH]; intros u st (HuU & Huv & Hsub & Hfin & Hpath & Hsize);
    [lia|].
  simpl.
  set (st1 := {| visited := {[u]} ∪ visited st; recStack := {[u]} ∪ recStack st |}).
  destruct (visitNeighbors_spec (dfs fuel graph) fuel u IH
              (default [] (graph !! u)) st1) as (r & st2 & -> & Htrue & Hfalse).
  - intros n Hn. destruct (graph !! u) as [ns|] eqn:E; simpl in Hn.
    + exists ns. split; [exact E | exact Hn].
    + inversion Hn.
  - simpl. set_solver.
  - intros x Hx Hnx. simpl in *. apply Hfin; set_solver.
  - intros x Hx. simpl in Hx. apply elem_of_union in Hx as [Hx | Hx].
    + apply elem_of_singleton in Hx as ->. apply rtc_refl.
    + now apply Hpath.
  - simpl.
    assert (size (nodesOf ∖ ({[u]} ∪ visited st)) < size (nodesOf ∖ visited st))%nat; [|lia].
    apply subset_size. split; [set_solver|].
    intros Hsubset. specialize (Hsubset u). set_solver.
  - destruct r.
    + exists true, st2. split; [reflexivity|]. split; [exact Htrue | discriminate].
    + destruct (Hfalse eq_refl) as (Hfin2 & Hrec2 & Hvis2 & Hsafe).
      eexists false, _. split; [reflexivity|]. split; [discriminate|]. intros _.
      simpl in *. split; [|split].
      * intros x Hx Hnx. simpl in *.
        destruct (decide (x = u)) as [->|Hne].
        -- constructor. intros v Hv. unfold flip in Hv. apply Hsafe.
           destruct Hv as (ns & Hns & Hin). rewrite Hns. exact Hin.
        -- apply Hfin2; [exact Hx|]. set_solver.
      * rewrite Hrec2. set_solver.
      * set_solver.
Qed.

End DfsFacts.

Section JourneyFacts.

Import Journeys.

Lemma targets_spec (node : JourneyNode) (v : string) :
  v ∈ targets node
  <-> exists c, In c (default [] (connections node))
                /\ target_node_id c = Some v /\ v <> EmptyString.
Proof.
  unfold targets. rewrite list_elem_of_omap. split.
  - intros (c & Hc & Ht). exists c. apply list_elem_of_In in Hc.
    destruct (target_node_id c) as [[|a t]|]; simplify_eq. auto.
  - intros (c & Hc & Ht & Hne). exists c. split; [now apply list_elem_of_In|].
    rewrite Ht. destruct v; [congruence | reflexivity].
Qed.

Lemma fold_graph_lookup (nodes : list JourneyNode) (g : gmap string (list string))
  (u : string) :
  match fold_left (fun g node => <[id node := targets node]> g) nodes g !! u with
  | Some ns => (exists node, In node nodes /\ id node = u /\ targets node = ns)
               \/ g !! u = Some ns
  | None => g !! u = None /\ forall node, In node nodes -> id node <> u
  end.
Proof.
  revert g. induction nodes as [|x r IH]; intros g; simpl.
  - destruct (g !! u); [right; reflexivity | split; [reflexivity | tauto]].
  - specialize (IH (<[id x := targets x]> g)).
    destruct (fold_left _ r _ !! u) as [ns|].
    + destruct IH as [(node & Hin & Hid & Ht) | Hg]; [left; exists node; tauto|].
      destruct (decide (id x = u)) as [Heq|Hne].
      * rewrite <- Heq, lookup_insert_eq in Hg. simplify_eq. left. exists x. tauto.
      * rewrite lookup_insert_ne in Hg by assumption. right. exact Hg.
    + destruct IH as [Hg Hall].
      destruct (decide (id x = u)) as [Heq|Hne].
      * rewrite <- Heq, lookup_insert_eq in Hg. discriminate.
      * rewrite lookup_insert_ne in Hg by assumption. split; [exact Hg|].
        intros node [<- | Hin]; [exact Hne | now apply Hall].
Qed.

(** An entry of the adjacency map is the target list of a declared node. *)
Lemma buildGraph_lookup (nodes : list JourneyNode) (u : string) :
  match buildGraph nodes !! u with
  | Some ns => exists node, In node nodes /\ id node = u /\ targets node = ns
  | None => forall node, In node nodes -> id node <> u
  end.
Proof.
  unfold buildGraph. pose proof (fold_graph_lookup nodes ∅ u) as H.
  destruct (fold_left _ nodes ∅ !! u).
  - destruct H as [H | H]; [exact H | rewrite lookup_empty in H; discriminate].
  - apply H.
Qed.

Lemma fold_graph_other (nodes : list JourneyNode) (g : gmap string (list string))
  (u : string) :
  (forall node, In node nodes -> id node <> u) ->
  fold_left (fun g node => <[id node := targets node]> g) nodes g !! u = g !! u.
Proof.
  revert g. induction nodes as [|x r IH]; intros g H; simpl; [reflexivity|].
  rewrite IH by (intros node Hin; apply H; now right).
  apply lookup_insert_ne. apply H. now left.
Qed.

(** With distinct ids every declared node has its own entry. *)
Lemma buildGraph_lookup_nodup (nodes : list JourneyNode) (node : JourneyNode) :
  List.NoDup (List.map id nodes) -> In node nodes ->
  buildGraph nodes !! id node = Some (targets node).
Proof.
  unfold buildGraph. generalize (∅ : gmap string (list string)).
  induction nodes as [|x r IH]; intros g Hnd Hin; [destruct Hin|].
  simpl in Hnd. apply List.NoDup_cons_iff in Hnd as [Hx Hnd].
  simpl. destruct Hin as [-> | Hin].
  - rewrite fold_graph_other; [apply lookup_insert_eq|].
    intros n Hn Heq. apply Hx. rewrite <- Heq. now apply in_map.
  - now apply IH.
Qed.

Lemma edge_journeyEdge (nodes : list JourneyNode) (u v : string) :
  edge (buildGraph nodes) u v -> journeyEdge nodes u v.
Proof.
  intros (ns & Hns & Hv). pose proof (buildGraph_lookup nodes u) as H.
  rewrite Hns in H. destruct H as (node & Hin & Hid & <-).
  apply targets_spec in Hv as (c & Hc & Ht & Hne).
  exists node, c. tauto.
Qed.

Lemma journeyEdge_edge (nodes : list JourneyNode) (u v : string) :
  List.NoDup (List.map id nodes) -> journeyEdge nodes u v -> edge (buildGraph nodes) u v.
Proof.
  intros Hnd (node & c & Hin & <- & Hc & Ht & Hne).
  exists (targets node). split; [now apply buildGraph_lookup_nodup|].
  apply targets_spec. exists c. tauto.
Qed.

Lemma tc_mono {A} (R S : relation A) (x y : A) :
  (forall a b, R a b -> S a b) -> tc R x y -> tc S x y.
Proof.
  intros H. induction 1 as [a b Hab | a b c Hab _ IH].
  - apply tc_once. auto.
  - eapply tc_l; [apply H; exact Hab | exact IH].
Qed.

Lemma universe_closed (nodes : list JourneyNode) (u v : string) :
  edge (buildGraph nodes) u v -> v ∈ universe nodes.
Proof.
  intros (ns & Hns & Hv). pose proof (buildGraph_lookup nodes u) as H.
  rewrite Hns in H. destruct H as (node & Hin & _ & <-).
  unfold universe. apply elem_of_union_r, elem_of_list_to_set, list_elem_of_In.
  apply in_flat_map. exists node. split; [exact Hin | now apply list_elem_of_In].
Qed.

(** The outer loop: with no node on the stack and every visited node
    safe, it returns, [true] only on a cycle and [false] only when every
    declared node is safe. *)
Lemma visitAll_spec (nodes all : list JourneyNode) (fuel : nat) :
  (size (universe all) < fuel)%nat ->
  forall st,
  (forall node, In node nodes -> id node ∈ universe all) ->
  recStack st = ∅ -> finishedSafe (buildGraph all) st ->
  exists r, visitAll fuel (buildGraph all) nodes st = Some r
    /\ (r = true -> hasCycle (buildGraph all))
    /\ (r = false -> forall node, In node nodes -> safe (buildGraph all) (id node)).
Proof.
  intros Hfuel. induction nodes as [|node r IH]; intros st Hin Hrec Hfin; simpl.
  - exists false. split; [reflexivity|]. split; [discriminate|]. intros _ n [].
  - assert (Hrest : forall n, In n r -> id n ∈ universe all)
      by (intros n Hn; apply Hin; now right).
    case_bool_decide as Hvis.
    + destruct (dfs_spec (buildGraph all) (universe all) (universe_closed all)
                  fuel (id node) st) as (b & st' & -> & Htrue & Hfalse).
      { split; [apply Hin; now left|]. split; [exact Hvis|].
        split; [rewrite Hrec; set_solver|]. split; [exact Hfin|].
        split; [intros x Hx; rewrite Hrec in Hx; set_solver|].
        eapply Nat.le_lt_trans; [|exact Hfuel]. apply subseteq_size. set_solver. }
      destruct b.
      { exists true. split; [reflexivity|]. split; [exact Htrue | discriminate]. }
      destruct (Hfalse eq_refl) as (Hfin' & Hrec' & Hvis').
      destruct (IH st' Hrest) as (b & -> & Htrue2 & Hfalse2);
        [congruence | exact Hfin' |].
      exists b. split; [reflexivity|]. split; [exact Htrue2|].
      intros -> n [<- | Hn]; [|now apply Hfalse2].
      apply Hfin'; [set_solver|]. rewrite Hrec', Hrec. set_solver.
    + assert (Hv : id node ∈ visited st) by (destruct (decide (id node ∈ visited st)); tauto).
      destruct (IH st Hrest Hrec Hfin) as (b & -> & Htrue2 & Hfalse2).
      exists b. split; [reflexivity|]. split; [exact Htrue2|].
      intros -> n [<- | Hn]; [|now apply Hfalse2].
      apply Hfin; [exact Hv|]. rewrite Hrec. set_solver.
Qed.

(** [hasCycles] returns within its fuel, and answers whether the
    adjacency map has a cycle. *)
Lemma hasCyclesWithin_total (nodes : list JourneyNode) :
  hasCyclesWithin (S (size (universe nodes))) nodes = Some (hasCycles nodes)
  /\ (hasCycles nodes = true <-> hasCycle (buildGraph nodes)).
Proof.
  unfold hasCycles, hasCyclesWithin.
  destruct (visitAll_spec nodes nodes (S (size (universe nodes))) (Nat.lt_succ_diag_r _)
              {| visited := ∅; recStack := ∅ |}) as (b & Hb & Htrue & Hfalse).
  - intros node Hin. unfold universe.
    apply elem_of_union_l, elem_of_list_to_set, list_elem_of_In. now apply in_map.
  - reflexivity.
  - intros x Hx. simpl in Hx. set_solver.
  - rewrite Hb. simpl. split; [reflexivity|]. split; [exact Htrue|].
    intros (y & Hy). destruct b; [reflexivity|]. exfalso.
    assert (Hedge : exists z, edge (buildGraph nodes) y z).
    { inversion Hy; eauto. }
    destruct Hedge as (z & ns & Hns & _).
    pose proof (buildGraph_lookup nodes y) as H. rewrite Hns in H.
    destruct H as (node & Hin & <- & _).
    exact (safe_no_cycle _ _ (Hfalse eq_refl node Hin) Hy).
Qed.

End JourneyFacts.

Section JourneyValidation.

Import Journeys.

Lemma nodeErrors_no_cycle_message (seen : gset string) (node : JourneyNode) :
  ~ In cycleMessage (nodeErrors seen node).
Proof.
  unfold nodeErrors. intros H. apply in_app_or in H as [H | H].
  - destruct (String.eqb (id node) EmptyString); simpl in H; [|tauto].
    destruct H as [H | []]. discriminate.
  - destruct (bool_decide _); simpl in H; [|tauto].
    destruct H as [H | []]. discriminate.
Qed.

Lemma pushed_no_cycle_message (seen : gset string) (nodes : list JourneyNode) :
  ~ In cycleMessage (pushed id nodeErrors seen nodes).
Proof.
  revert seen. induction nodes as [|n r IH]; intros seen; simpl; [tauto|].
  intros H. apply in_app_or in H as [H | H].
  - exact (nodeErrors_no_cycle_message _ _ H).
  - exact (IH _ H).
Qed.

(** The cycle finding is reported exactly when [hasCycles] says so. *)
Lemma validateJourney_cycle_finding (journey : Journey) :
  In cycleMessage (validateJourney journey) <-> hasCycles (nodes journey) = true.
Proof.
  unfold validateJourney, validateNodes. rewrite fold_seen. simpl fst.
  split.
  - intros H. apply in_app_or in H as [H | H].
    + exfalso. apply in_app_or in H as [H | H].
      * destruct (String.eqb (journey_id journey) EmptyString),
          (String.eqb (journey_key journey) EmptyString),
          (String.eqb (journey_name journey) EmptyString),
          (projects journey), (nodes journey); simpl in H;
          repeat (destruct H as [H | H]; [discriminate|]); exact H.
      * exact (pushed_no_cycle_message _ _ H).
    + destruct (hasCycles (nodes journey)); [reflexivity | destruct H].
  - intros ->. apply in_or_app. right. now left.
Qed.

(** C6, as amended. A cycle finding is reported only if the graph of the
    journey (an edge from a node id to each non-empty [target_node_id] of
    a connection of a node with that id; jump-off connections give no
    edge) has a cycle; and when the node ids are pairwise distinct, it is
    reported whenever that graph has a cycle. *)
Theorem validateJourney_cycles (journey : Journey) :
  (In cycleMessage (validateJourney journey) ->
   exists y, tc (journeyEdge (nodes journey)) y y)
  /\ (List.NoDup (List.map id (nodes journey)) ->
      (exists y, tc (journeyEdge (nodes journey)) y y) ->
      In cycleMessage (validateJourney journey)).
Proof.
  pose proof (hasCyclesWithin_total (nodes journey)) as [_ Hiff].
  split.
  - intros H. apply validateJourney_cycle_finding, Hiff in H as (y & Hy).
    exists y. eapply tc_mono; [|exact Hy]. apply edge_journeyEdge.
  - intros Hnd (y & Hy). apply validateJourney_cycle_finding, Hiff.
    exists y. eapply tc_mono; [|exact Hy]. intros a b. now apply journeyEdge_edge.
Qed.

End JourneyValidation.

Section JourneyExamples.

Import Journeys Samples.

Lemma cyclicJourney_edges :
  tc (journeyEdge (nodes cyclicJourney)) "a" "a".
Proof.
  eapply tc_l; [|eapply tc_l; [|apply tc_once]].
  - exists (stageNode "a" (Some [connectTo "b"])), (connectTo "b").
    simpl. repeat split; auto; discriminate.
  - exists (stageNode "b" (Some [connectTo "c"])), (connectTo "c").
    simpl. repeat split; auto; discriminate.
  - exists (stageNode "c" (Some [connectTo "a"])), (connectTo "a").
    simpl. repeat split; auto; discriminate.
Qed.

(** Three nodes a -> b -> c -> a: the cycle finding is reported. *)
Lemma validateJourney_cycles_witness :
  In cycleMessage (validateJourney cyclicJourney).
Proof.
  apply (proj2 (validateJourney_cycles cyclicJourney)).
  - simpl. repeat constructor; simpl; intuition discriminate.
  - exists "a". exact cyclicJourney_edges.
Defined.

Example validateJourney_cyclic : validateJourney cyclicJourney = [cycleMessage].
Proof. vm_compute. reflexivity. Qed.

(** Without the closing edge, and with a jump-off connection instead,
    nothing is reported. *)
Example validateJourney_open : validateJourney openJourney = [].
Proof. vm_compute. reflexivity. Qed.

(** C6 as stated fails when a node id is declared twice: the later
    declaration replaces the connections of the earlier one in the
    adjacency map, so the cycle a -> b -> a of the declared connections
    goes unreported. *)
Lemma validateJourney_cycles_counterexample :
  tc (journeyEdge (nodes duplicateJourney)) "a" "a"
  /\ validateJourney duplicateJourney = ["Duplicate node ID: a"]
  /\ ~ In cycleMessage (validateJourney duplicateJourney).
Proof.
  split; [|split].
  - eapply tc_l; [|apply tc_once].
    + exists (stageNode "a" (Some [connectTo "b"])), (connectTo "b").
      simpl. repeat split; auto; discriminate.
    + exists (stageNode "b" (Some [connectTo "a"])), (connectTo "a").
      simpl. repeat split; auto; discriminate.
  - vm_compute. reflexivity.
  - replace (validateJourney duplicateJourney) with ["Duplicate node ID: a"]
      by (vm_compute; reflexivity).
    intros [H | []]. discriminate.
Qed.

End JourneyExamples.

(** ** Concepts: the pairing of source and confidence *)

Section FloatFacts.

Lemma SFcompare_antisym (x y : spec_float) :
  SFcompare y x = option_map CompOpp (SFcompare x y).
Proof.
  destruct x as [sx|sx| |sx mx ex], y as [sy|sy| |sy my ey]; simpl;
    try (destruct sx); try (destruct sy); try reflexivity.
  - rewrite (Z.compare_antisym ey ex). destruct (ey ?= ex)%Z; simpl; try reflexivity.
    f_equal. rewrite (Pos.compare_cont_antisym mx my Eq). simpl.
    destruct (Pos.compare_cont Eq mx my); reflexivity.
  - rewrite (Z.compare_antisym ey ex). destruct (ey ?= ex)%Z; simpl; try reflexivity.
    f_equal. rewrite (Pos.compare_cont_antisym mx my Eq). reflexivity.
Qed.

(** [x <= y] excludes [y < x], also for the special values. *)
Lemma leb_true_ltb_false (x y : float) :
  PrimFloat.leb x y = true -> PrimFloat.ltb y x = false.
Proof.
  rewrite leb_spec, ltb_spec. unfold SFleb, SFltb.
  rewrite (SFcompare_antisym (Prim2SF x) (Prim2SF y)).
  destruct (SFcompare (Prim2SF x) (Prim2SF y)) as [[]|]; simpl; congruence.
Qed.

End FloatFacts.

Section ConceptFacts.

Import Concepts.

Lemma occurrences_app (msg : string) (a b : list string) :
  occurrences msg (a ++ b) = (occurrences msg a + occurrences msg b)%nat.
Proof. unfold occurrences. now rewrite List.filter_app, length_app. Qed.

Lemma occurrences_say (msg m : string) (b : bool) :
  occurrences msg (say b m) = if b && String.eqb msg m then 1%nat else 0%nat.
Proof. unfold occurrences. destruct b; simpl; [destruct (String.eqb msg m)|]; reflexivity. Qed.

Lemma append_inj_l (p a b : string) : p +:+ a = p +:+ b -> a = b.
Proof. induction p as [|c p IH]; simpl; intros H; [exact H | injection H; auto]. Qed.

Lemma append_inj_r (a b s : string) : a +:+ s = b +:+ s -> a = b.
Proof.
  revert b. induction a as [|x a IH]; intros [|y b] H; simpl in *.
  - reflexivity.
  - exfalso. apply (f_equal String.length) in H. simpl in H.
    rewrite length_append in H. lia.
  - exfalso. apply (f_equal String.length) in H. simpl in H.
    rewrite length_append in H. lia.
  - injection H as -> H. f_equal. now apply IH.
Qed.

(** A message built around an id names that id only. *)
Lemma framed_eqb (p s i j : string) :
  String.eqb (p +:+ i +:+ s) (p +:+ j +:+ s) = String.eqb i j.
Proof.
  destruct (String.eqb_spec i j) as [-> | Hne].
  - apply String.eqb_refl.
  - apply String.eqb_neq. intros H. apply Hne.
    apply append_inj_l in H. now apply append_inj_r in H.
Qed.

Ltac count_says :=
  unfold conceptErrors, confidenceErrors, relationshipErrors;
  rewrite ?occurrences_app, ?occurrences_say;
  unfold msgDiscovered, msgManual, msgConfidenceRange, msgDuplicate, msgDangling;
  rewrite ?framed_eqb.

Lemma conceptErrors_counts (i : string) (seen : gset string) (c : Concept) :
  occurrences (msgDiscovered i) (conceptErrors seen c)
  = (if missingConfidence i c then 1 else 0)%nat
  /\ occurrences (msgManual i) (conceptErrors seen c)
     = (if forbiddenConfidence i c then 1 else 0)%nat
  /\ occurrences (msgConfidenceRange i) (conceptErrors seen c)
     = (if confidenceOutOfRange i c then 1 else 0)%nat.
Proof.
  unfold missingConfidence, forbiddenConfidence, confidenceOutOfRange.
  split; [|split]; count_says;
    repeat match goal with
      | |- context [String.eqb ?a ?b] =>
          replace (String.eqb a b) with false by reflexivity
      end;
    rewrite ?andb_false_r; simpl;
    destruct (String.eqb i (id c)), (source c), (confidence c) as [v|];
    simpl; try reflexivity; destruct (outOfUnit v); reflexivity.
Qed.

Lemma relationshipErrors_counts (i : string) (ids : gset string)
  (rel : ConceptRelationship) :
  occurrences (msgDiscovered i) (relationshipErrors ids rel) = 0%nat
  /\ occurrences (msgManual i) (relationshipErrors ids rel) = 0%nat
  /\ occurrences (msgConfidenceRange i) (relationshipErrors ids rel) = 0%nat.
Proof.
  split; [|split]; count_says;
    repeat match goal with
      | |- context [String.eqb ?a ?b] =>
          replace (String.eqb a b) with false by reflexivity
      end;
    rewrite ?andb_false_r; reflexivity.
Qed.

Lemma occurrences_pushed (msg : string) (P : Concept -> bool) (cs : list Concept) :
  (forall seen c, occurrences msg (conceptErrors seen c) = (if P c then 1 else 0)%nat) ->
  forall seen, occurrences msg (pushed id conceptErrors seen cs) = length (List.filter P cs).
Proof.
  intros H. induction cs as [|c r IH]; intros seen; simpl; [reflexivity|].
  rewrite occurrences_app, H, IH. destruct (P c); reflexivity.
Qed.

Lemma occurrences_relationships (msg : string) (ids : gset string)
  (rels : list ConceptRelationship) :
  (forall rel, occurrences msg (relationshipErrors ids rel) = 0%nat) ->
  occurrences msg (List.flat_map (relationshipErrors ids) rels) = 0%nat.
Proof.
  intros H. induction rels as [|r rs IH]; simpl; [reflexivity|].
  now rewrite occurrences_app, H, IH.
Qed.

Lemma validateConcepts_shape (graph : ConceptGraph) :
  validateConcepts graph
  = pushed id conceptErrors ∅ (concepts graph)
    ++ List.flat_map
         (relationshipErrors (list_to_set (List.map id (concepts graph)) ∪ ∅))
         (relationships graph).
Proof.
  unfold validateConcepts. rewrite fold_seen, fold_push. reflexivity.
Qed.

(** For every id, validation reports one missing-confidence finding per
    discovered concept of that id without a confidence, one
    forbidden-confidence finding per manual concept of that id with a
    confidence, and one range finding per concept of that id whose
    confidence is outside the unit interval. *)
Lemma validateConcepts_counts (graph : ConceptGraph) (i : string) :
  occurrences (msgDiscovered i) (validateConcepts graph)
  = length (List.filter (missingConfidence i) (concepts graph))
  /\ occurrences (msgManual i) (validateConcepts graph)
     = length (List.filter (forbiddenConfidence i) (concepts graph))
  /\ occurrences (msgConfidenceRange i) (validateConcepts graph)
     = length (List.filter (confidenceOutOfRange i) (concepts graph)).
Proof.
  rewrite validateConcepts_shape, !occurrences_app.
  rewrite !occurrences_relationships by (intros; apply relationshipErrors_counts).
  rewrite !Nat.add_0_r.
  split; [|split]; apply occurrences_pushed; intros; apply conceptErrors_counts.
Qed.

(** C7. A discovered concept without a confidence gets exactly one
    finding from the pairing and range checks, the one that asks for the
    confidence; when it is the only such concept carrying its id, that
    message occurs exactly once in the whole result. A manual concept with
    a confidence inside the unit interval gets exactly one, the one that
    forbids the confidence, and likewise that message occurs once. *)
Theorem validateConcepts_confidence_pairing (graph : ConceptGraph) (c : Concept) :
  (source c = discovered -> confidence c = None ->
   List.filter (missingConfidence (id c)) (concepts graph) = [c] ->
   confidenceErrors c = ["Discovered concept " +:+ id c +:+ " must have confidence score"]
   /\ occurrences (msgDiscovered (id c)) (validateConcepts graph) = 1%nat
   /\ occurrences (msgManual (id c)) (validateConcepts graph)
      = length (List.filter (forbiddenConfidence (id c)) (concepts graph)))
  /\ (forall v, source c = manual -> confidence c = Some v ->
      PrimFloat.leb 0%float v = true -> PrimFloat.leb v 1%float = true ->
      List.filter (forbiddenConfidence (id c)) (concepts graph) = [c] ->
      confidenceErrors c = ["Manual concept " +:+ id c +:+ " should not have confidence score"]
      /\ occurrences (msgManual (id c)) (validateConcepts graph) = 1%nat
      /\ occurrences (msgDiscovered (id c)) (validateConcepts graph)
         = length (List.filter (missingConfidence (id c)) (concepts graph))).
Proof.
  destruct (validateConcepts_counts graph (id c)) as (Hd & Hm & _).
  split.
  - intros Hsrc Hconf Hone. split; [|split].
    + unfold confidenceErrors. rewrite Hsrc, Hconf. reflexivity.
    + rewrite Hd, Hone. reflexivity.
    + exact Hm.
  - intros v Hsrc Hconf Hlo Hhi Hone. split; [|split].
    + unfold confidenceErrors, outOfUnit. rewrite Hsrc, Hconf.
      rewrite (leb_true_ltb_false _ _ Hlo), (leb_true_ltb_false _ _ Hhi). reflexivity.
    + rewrite Hm, Hone. reflexivity.
    + exact Hd.
Qed.

End ConceptFacts.

Section ConceptExamples.

Import Concepts Samples.

(** The two tests of the repository: a discovered concept without a
    confidence, a manual concept with the confidence 0.8. *)
Lemma validateConcepts_confidence_pairing_witness :
  (confidenceErrors discoveredConcept
   = ["Discovered concept cpt_discovered must have confidence score"]
   /\ occurrences (msgDiscovered "cpt_discovered") (validateConcepts discoveredGraph) = 1%nat
   /\ occurrences (msgManual "cpt_discovered") (validateConcepts discoveredGraph) = 0%nat)
  /\ (confidenceErrors manualConcept
      = ["Manual concept cpt_manual should not have confidence score"]
      /\ occurrences (msgManual "cpt_manual") (validateConcepts manualGraph) = 1%nat
      /\ occurrences (msgDiscovered "cpt_manual") (validateConcepts manualGraph) = 0%nat).
Proof.
  split.
  - apply (proj1 (validateConcepts_confidence_pairing discoveredGraph discoveredConcept));
      reflexivity.
  - apply (proj2 (validateConcepts_confidence_pairing manualGraph manualConcept)
             0.8%float); reflexivity.
Defined.

Example validateConcepts_discovered :
  validateConcepts discoveredGraph
  = ["Discovered concept cpt_discovered must have confidence score"].
Proof. vm_compute. reflexivity. Qed.

Example validateConcepts_manual :
  validateConcepts manualGraph
  = ["Manual concept cpt_manual should not have confidence score"].
Proof. vm_compute. reflexivity. Qed.

End ConceptExamples.

(** ** Concepts: the hierarchy and cyclic parents *)

Section HierarchyFacts.

Import Concepts Samples.

(** With more fuel a returned result stays the same: [None] at every
    fuel is a recursion that never returns. *)
Lemma sequence_map_mono {A B} (f g : A -> option B) (l : list A) (r : list B) :
  (forall x v, f x = Some v -> g x = Some v) ->
  sequence (List.map f l) = Some r -> sequence (List.map g l) = Some r.
Proof.
  intros H. revert r. induction l as [|x l IH]; intros r; simpl; [auto|].
  destruct (f x) as [v|] eqn:E; [|discriminate].
  destruct (sequence (List.map f l)) as [r'|]; [|discriminate].
  intros [= <-]. rewrite (H _ _ E), (IH r' eq_refl). reflexivity.
Qed.

Lemma buildConceptHierarchy_mono (graph : ConceptGraph) (fuel : nat) :
  forall rootKey r,
  buildConceptHierarchy fuel graph rootKey = Some r ->
  buildConceptHierarchy (S fuel) graph rootKey = Some r.
Proof.
  induction fuel as [|fuel IH]; intros rootKey r H; [discriminate|].
  simpl in H. change (buildConceptHierarchy (S (S fuel)) graph rootKey)
    with (match List.find (fun c => String.eqb (key c) rootKey) (concepts graph) with
          | None => Some None
          | Some root =>
              match sequence
                      (List.map
                         (fun r =>
                            match List.find (fun c => String.eqb (id c) (stripPrefix (rel_from r)))
                                            (concepts graph) with
                            | Some child => buildConceptHierarchy (S fuel) graph (key child)
                            | None => Some None
                            end)
                         (List.filter
                            (fun r => String.eqb (rel_to r) (conceptPrefix +:+ id root)
                                      && isParent (kind r))
                            (relationships graph))) with
              | Some children => Some (Some (HNode root (omap (fun x => x) children)))
              | None => None
              end
          end).
  destruct (List.find _ (concepts graph)) as [root|]; [|exact H].
  destruct (sequence _) as [children|] eqn:E in H; [|discriminate].
  erewrite sequence_map_mono; [exact H | | exact E].
  intros rel v. simpl. destruct (List.find _ (concepts graph)); [apply IH | auto].
Qed.

(** The hierarchy test of the repository: authentication with two
    children. *)
Example buildConceptHierarchy_auth :
  buildConceptHierarchy 2 authGraph "authentication"
  = Some (Some (HNode (conceptOf "cpt_authentication" "authentication" manual None)
                  [HNode (conceptOf "cpt_oauth" "oauth" manual None) [];
                   HNode (conceptOf "cpt_jwt" "jwt" manual None) []]))
  /\ buildConceptHierarchy 1 authGraph "missing" = Some None.
Proof. split; vm_compute; reflexivity. Qed.

Lemma mutualParents_step (fuel : nat) :
  buildConceptHierarchy (S fuel) mutualParents "a"
  = match sequence [buildConceptHierarchy fuel mutualParents "b"] with
    | Some children =>
        Some (Some (HNode (conceptOf "cpt_a" "a" manual None) (omap (fun x => x) children)))
    | None => None
    end
  /\ buildConceptHierarchy (S fuel) mutualParents "b"
     = match sequence [buildConceptHierarchy fuel mutualParents "a"] with
       | Some children =>
           Some (Some (HNode (conceptOf "cpt_b" "b" manual None) (omap (fun x => x) children)))
       | None => None
       end.
Proof. split; reflexivity. Qed.

(** C10 fails on cyclic parents. Validation accepts two concepts that
    are each other's parent, and on that graph the recursion of
    [buildConceptHierarchy] never bottoms out: whatever the depth
    allowed, no result is returned. *)
Theorem buildConceptHierarchy_cyclic_parents :
  validateConcepts mutualParents = []
  /\ forall fuel, buildConceptHierarchy fuel mutualParents "a" = None.
Proof.
  split; [vm_compute; reflexivity|].
  assert (H : forall fuel,
             buildConceptHierarchy fuel mutualParents "a" = None
             /\ buildConceptHierarchy fuel mutualParents "b" = None).
  { induction fuel as [|fuel [IHa IHb]]; [split; reflexivity|].
    destruct (mutualParents_step fuel) as [-> ->]. rewrite IHa, IHb. split; reflexivity. }
  intros fuel. apply H.
Qed.

End HierarchyFacts.

(** ** Linkage: both directions, every violation *)

Section LinkageFacts.

Import Linkage.

(** A loop that pushes [msg x] for the items that fail [ok]. *)
Lemma forEach_push {A} (items : list A) (ok : A -> bool) (msg : A -> string)
  (errors : list string) :
  forEach items (fun errors x => if negb (ok x) then errors ++ [msg x] else errors) errors
  = errors ++ List.flat_map (finding ok msg) items.
Proof.
  unfold forEach, finding. revert errors.
  induction items as [|x r IH]; intros errors; simpl; [now rewrite app_nil_r|].
  rewrite IH. destruct (negb (ok x)); simpl; [now rewrite <- app_assoc | reflexivity].
Qed.

(** A loop whose body is itself a pushing loop over [inner x]. *)
Lemma forEach_nested {A B} (items : list A) (inner : A -> list B)
  (body : list string -> A -> list string) (found : B -> list string)
  (errors : list string) :
  (forall errs x, body errs x = errs ++ List.flat_map found (inner x)) ->
  forEach items body errors
  = errors ++ List.flat_map found (List.flat_map inner items).
Proof.
  intros H. unfold forEach. revert errors.
  induction items as [|x r IH]; intros errors; simpl; [now rewrite app_nil_r|].
  rewrite IH, H, flat_map_app, app_assoc. reflexivity.
Qed.

Lemma flat_map_finding {A} (ok : A -> bool) (msg : A -> string) (l : list A) :
  List.flat_map (finding ok msg) l
  = List.map msg (List.filter (fun x => negb (ok x)) l).
Proof.
  unfold finding. induction l as [|x r IH]; simpl; [reflexivity|].
  destruct (negb (ok x)); simpl; now rewrite IH.
Qed.

Lemma flat_map_after_map {A B C} (f : A -> B) (g : B -> list C) (l : list A) :
  List.flat_map g (List.map f l) = List.flat_map (fun x => g (f x)) l.
Proof. induction l as [|x r IH]; simpl; [reflexivity | now rewrite IH]. Qed.

Lemma map_after_flat_map {A B C} (f : B -> C) (g : A -> list B) (l : list A) :
  List.map f (List.flat_map g l) = List.flat_map (fun x => List.map f (g x)) l.
Proof.
  induction l as [|x r IH]; simpl; [reflexivity|]. now rewrite List.map_app, IH.
Qed.

(** The two passes enumerate every violation: first the asset paths
    without a reverse entry, then the symbols without a forward entry,
    each in the order met and once per reference. *)
Lemma validateBidirectionalConsistency_enumerates (linkage : Linkage) :
  validateBidirectionalConsistency linkage
  = List.map msgMissingReverse (missingReverse linkage)
    ++ List.map msgMissingForward (missingForward linkage).
Proof.
  unfold validateBidirectionalConsistency, missingReverse, missingForward,
    assetPaths, codeSymbols.
  rewrite (forEach_nested (code_to_assets linkage) (fun e => List.map path (assets (snd e))) _
             (finding (hasKey (asset_to_code linkage)) msgMissingReverse)).
  2:{ intros errs [symbol mapping]. simpl.
      rewrite (forEach_push (assets mapping)
                 (fun asset => hasKey (asset_to_code linkage) (path asset))
                 (fun asset => msgMissingReverse (path asset))).
      now rewrite flat_map_after_map. }
  rewrite (forEach_nested (asset_to_code linkage)
             (fun e => List.flat_map
                         (fun codeRef => List.map (symbolOf codeRef) (functions codeRef))
                         (code_refs (snd e))) _
             (finding (hasKey (code_to_assets linkage)) msgMissingForward)).
  2:{ intros errs [docPath mapping]. simpl.
      apply (forEach_nested (code_refs mapping)
               (fun codeRef => List.map (symbolOf codeRef) (functions codeRef))).
      intros errs' codeRef.
      rewrite (forEach_push (functions codeRef)
                 (fun func => hasKey (code_to_assets linkage) (symbolOf codeRef func))
                 (fun func => msgMissingForward (symbolOf codeRef func))).
      now rewrite flat_map_after_map. }
  rewrite !flat_map_finding. reflexivity.
Qed.

Lemma msgMissingReverse_inj (p q : string) :
  msgMissingReverse p = msgMissingReverse q -> p = q.
Proof.
  unfold msgMissingReverse. intros H.
  apply append_inj_l in H. now apply append_inj_r in H.
Qed.

Lemma inherited_In (k : string) :
  JsObject.inherited k = true <-> In k JsObject.prototypeMembers.
Proof.
  unfold JsObject.inherited. rewrite existsb_exists. split.
  - intros (m & Hm & Hk). apply String.eqb_eq in Hk. now subst.
  - intros H. exists k. split; [assumption | apply String.eqb_refl].
Qed.

(** No inherited member has a colon in its name, and every symbol has
    one: the lookup of a symbol finds entries of the record only. *)
Lemma inherited_symbolOf (codeRef : CodeRef) (func : string) :
  JsObject.inherited (symbolOf codeRef func) = false.
Proof.
  destruct (JsObject.inherited (symbolOf codeRef func)) eqn:E; [|reflexivity].
  apply inherited_In in E.
  assert (Hcolon : JsString.contains ":" (symbolOf codeRef func) = true).
  { unfold symbolOf. rewrite contains_append. simpl. apply orb_true_r. }
  assert (Hnone : Forall (fun m => JsString.contains ":" m = false) JsObject.prototypeMembers)
    by (repeat constructor).
  rewrite Forall_forall in Hnone.
  rewrite (Hnone _ (proj2 (list_elem_of_In _ _) E)) in Hcolon. discriminate.
Qed.

Lemma hasKey_symbolOf {V} (record : list (string * V)) (codeRef : CodeRef) (func : string) :
  hasKey record (symbolOf codeRef func) = JsObject.ownKey record (symbolOf codeRef func).
Proof.
  unfold hasKey, JsObject.truthyAt. rewrite inherited_symbolOf. apply orb_false_r.
Qed.

(** The symbols without a forward entry are those without an entry of
    their own. *)
Lemma missingForward_unlinked (linkage : Linkage) :
  missingForward linkage = unlinkedSymbols linkage.
Proof.
  unfold missingForward, unlinkedSymbols, codeSymbols.
  apply List.filter_ext_in. intros sym Hin.
  apply in_flat_map in Hin as (e & _ & Hin).
  apply in_flat_map in Hin as (codeRef & _ & Hin).
  apply in_map_iff in Hin as (func & <- & _).
  now rewrite hasKey_symbolOf.
Qed.

(** C8. The lookup [linkage.asset_to_code[asset.path]] also finds what
    every object inherits, so an asset whose path is the name of such a
    member (constructor, toString, valueOf, ...) never gets a reverse
    finding, whether or not [asset_to_code] has an entry for it: for a
    symbol documented by a file named toString and an empty
    [asset_to_code] the check returns no finding. On every linkage whose
    asset paths are none of these names the check does what the claim
    says: the findings are, in order, one message naming the path for
    every asset reference without an entry in [asset_to_code], then one
    message naming the symbol for every function reference without an
    entry in [code_to_assets]. *)
Theorem validateBidirectionalConsistency_inherited_keys :
  (forall linkage p,
     In p JsObject.prototypeMembers ->
     ~ In ("Missing reverse mapping: " +:+ p +:+ " not in asset_to_code")
          (validateBidirectionalConsistency linkage))
  /\ (assetPaths MoreSamples.inheritedLinkage = ["toString"]
      /\ asset_to_code MoreSamples.inheritedLinkage = []
      /\ validateBidirectionalConsistency MoreSamples.inheritedLinkage = [])
  /\ (forall linkage,
        Forall (fun p => ~ In p JsObject.prototypeMembers) (assetPaths linkage) ->
        validateBidirectionalConsistency linkage
        = List.map (fun p => "Missing reverse mapping: " +:+ p +:+ " not in asset_to_code")
                   (unlinkedPaths linkage)
          ++ List.map (fun sym => "Missing forward mapping: " +:+ sym
                                    +:+ " not in code_to_assets")
                      (unlinkedSymbols linkage)).
Proof.
  split; [|split].
  - intros linkage p Hp Hin.
    rewrite validateBidirectionalConsistency_enumerates in Hin.
    apply in_app_or in Hin as [Hin | Hin]; apply in_map_iff in Hin as (q & Hq & Hin).
    + apply msgMissingReverse_inj in Hq. subst q.
      apply List.filter_In in Hin as [_ Hk].
      unfold hasKey, JsObject.truthyAt in Hk.
      rewrite (proj2 (inherited_In p) Hp), orb_true_r in Hk. discriminate.
    + unfold msgMissingForward in Hq. simpl in Hq. discriminate.
  - repeat split.
  - intros linkage Hall.
    rewrite validateBidirectionalConsistency_enumerates, missingForward_unlinked.
    f_equal. unfold missingReverse, unlinkedPaths. f_equal.
    apply List.filter_ext_in. intros p Hin.
    rewrite Forall_forall in Hall. apply list_elem_of_In in Hin.
    unfold hasKey, JsObject.truthyAt.
    destruct (JsObject.inherited p) eqn:E; [|now rewrite orb_false_r].
    apply inherited_In in E. now destruct (Hall p Hin).
Qed.

End LinkageFacts.

Section LinkageExamples.

Import Linkage Samples MoreSamples.

(** The test of the repository, then the same linkage with its reverse
    entry added; and a linkage with a violation in each direction. *)
Example validateBidirectionalConsistency_tests :
  validateBidirectionalConsistency oneWayLinkage
  = ["Missing reverse mapping: missing.md not in asset_to_code"]
  /\ validateBidirectionalConsistency (addReverse oneWayLinkage "missing.md" reverseEntry)
     = []
  /\ validateBidirectionalConsistency brokenLinkage
     = ["Missing reverse mapping: missing.md not in asset_to_code";
        "Missing forward mapping: test.go:Gone not in code_to_assets"].
Proof. repeat split. Qed.

End LinkageExamples.

(** ** Navigation: filtering by version *)

Section NavigationFacts.

Import Navigation.

Variable treeVersions : option (list string).
Variable version : string.

(** The children of a pruned item are the filtered children. *)
Lemma filterItems_children (item : NavigationItem) :
  children (pruneItem treeVersions version item)
  = option_map (filterItems treeVersions version) (children item).
Proof.
  destruct item as [i t l cs n m]. simpl. destruct cs as [cs|]; [|reflexivity].
  simpl. f_equal. unfold filterItems.
  induction cs as [|c r IH]; simpl; [reflexivity|].
  destruct (keeps treeVersions version c); simpl; now rewrite IH.
Qed.

Lemma pruneItem_id (item : NavigationItem) :
  id (pruneItem treeVersions version item) = id item.
Proof. destruct item. reflexivity. Qed.

Lemma in_filterItems (items : list NavigationItem) (x' : NavigationItem) :
  In x' (filterItems treeVersions version items)
  <-> exists x, In x items /\ keeps treeVersions version x = true
                /\ x' = pruneItem treeVersions version x.
Proof.
  unfold filterItems. rewrite in_map_iff. split.
  - intros (x & <- & Hx). apply List.filter_In in Hx as [Hin Hk]. eauto.
  - intros (x & Hin & Hk & ->). exists x. split; [reflexivity|].
    apply List.filter_In. auto.
Qed.

(** The paths of the filtered forest are the images of the paths of the
    forest on which every item is kept. *)
Lemma filterItems_chains (items : list NavigationItem) (path' : list NavigationItem) :
  Chain (filterItems treeVersions version items) path'
  <-> exists path, Chain items path
        /\ Forall (fun x => keeps treeVersions version x = true) path
        /\ path' = List.map (pruneItem treeVersions version) path.
Proof.
  split.
  - intros H. remember (filterItems treeVersions version items) as items' eqn:E.
    revert items E. induction H as [items' x' Hin | items' cs' x' rest' Hin Hcs _ IH];
      intros items ->.
    + apply in_filterItems in Hin as (x & Hin & Hk & ->).
      exists [x]. split; [now constructor|]. split; [now repeat constructor | reflexivity].
    + apply in_filterItems in Hin as (x & Hin & Hk & ->).
      rewrite filterItems_children in Hcs.
      destruct (children x) as [cs|] eqn:Ec; [|discriminate].
      simpl in Hcs. injection Hcs as <-.
      destruct (IH cs eq_refl) as (path & Hpath & Hall & ->).
      exists (x :: path). split; [econstructor; eassumption|].
      split; [now constructor | reflexivity].
  - intros (path & Hpath & Hall & ->).
    induction Hpath as [items x Hin | items cs x rest Hin Hcs _ IH].
    + apply chain_last. apply in_filterItems. exists x.
      apply Forall_inv in Hall. auto.
    + simpl. apply chain_step with (cs := filterItems treeVersions version cs).
      * apply in_filterItems. exists x. apply Forall_inv in Hall. auto.
      * rewrite filterItems_children, Hcs. reflexivity.
      * apply IH. now apply Forall_inv_tail in Hall.
Qed.

End NavigationFacts.

Section NavigationTheorem.

Import Navigation.

(** C9, as amended. If the tree declares an allow-list that lacks the
    target version, the result has no items. Otherwise an item occurs in
    the result, at any depth, exactly when it and every ancestor on its
    path are kept, an item being kept when its own version list, or the
    tree's if it has none, includes the target version, or when neither
    declares one; it then occurs with its children filtered by the same
    rule. An item below a dropped item is dropped with it. *)
Theorem filterByVersion_paths (tree : NavigationTree) (version : string) :
  (forall vs, versions tree = Some vs -> includes vs version = false ->
     items (filterByVersion tree version) = [])
  /\ ((forall vs, versions tree = Some vs -> includes vs version = true) ->
      forall path',
        Chain (items (filterByVersion tree version)) path'
        <-> exists path,
              Chain (items tree) path
              /\ Forall (fun x => keeps (versions tree) version x = true) path
              /\ path' = List.map (pruneItem (versions tree) version) path).
Proof.
  split.
  - intros vs Hvs Hinc. unfold filterByVersion. rewrite Hvs, Hinc. reflexivity.
  - intros Hinc path'.
    assert (Hitems : items (filterByVersion tree version)
                     = filterItems (versions tree) version (items tree)).
    { unfold filterByVersion. destruct (versions tree) as [vs|] eqn:E; [|reflexivity].
      rewrite (Hinc vs eq_refl). reflexivity. }
    rewrite Hitems. apply filterItems_chains.
Qed.

End NavigationTheorem.

Section NavigationExamples.

Import Navigation Samples.

Lemma filterByVersion_paths_witness :
  Chain (items (filterByVersion mixedTree "v2"))
        [pruneItem None "v2" v2Parent]
  /\ items (filterByVersion mixedTree "v2")
     = [navItem "parent" (Some ["v2"]) (Some []); navItem "intro" None None].
Proof.
  split; [|reflexivity].
  apply (proj2 (filterByVersion_paths mixedTree "v2")).
  - intros vs H. discriminate.
  - exists [v2Parent]. split; [|split].
    + apply chain_last. now left.
    + repeat constructor.
    + reflexivity.
Defined.

(** C9 as stated fails: the child is reserved for v1, so its own
    constraint includes the target version v1, yet it is not kept,
    because its parent, reserved for v2, is dropped with everything below
    it. *)
Lemma filterByVersion_paths_counterexample :
  keeps (versions mixedTree) "v1" v1Child = true
  /\ Chain (items mixedTree) [v2Parent; v1Child]
  /\ items (filterByVersion mixedTree "v1") = [navItem "intro" None None]
  /\ forall path', Chain (items (filterByVersion mixedTree "v1")) path' ->
                   path' = [navItem "intro" None None].
Proof.
  split; [reflexivity|]. split; [|split; [reflexivity|]].
  - eapply chain_step; [now left | reflexivity | apply chain_last; now left].
  - intros path' H. change (items (filterByVersion mixedTree "v1"))
      with [navItem "intro" None None] in H.
    inversion H as [? ? Hin | ? ? ? ? Hin Hcs _]; subst.
    + destruct Hin as [<- | []]. reflexivity.
    + destruct Hin as [<- | []]. discriminate.
Qed.

End NavigationExamples.

Section LineNesting.

Import LineSegments Samples.

(** The nesting test of the repository on the line scanner: its nesting
    error names the line of the inner start marker. *)
Example parseSegments_nested_lines :
  parseSegments (startTag "outer" +:+ nl +:+ startTag "inner" +:+ nl +:+ "Content" +:+ nl
                   +:+ endTag +:+ nl +:+ endTag +:+ nl)
  = Err "Nested segment markers not allowed at line 2".
Proof. vm_compute. reflexivity. Qed.

(** The two-segment sample of the repository's tests. *)
Example parseSegments_sample :
  parseSegments ("# Documentation" +:+ nl +:+ nl
                   +:+ "<!--semcontext:segment start key=" +:+ q +:+ "overview" +:+ q
                   +:+ " type=" +:+ q +:+ "overview" +:+ q
                   +:+ " audience=" +:+ q +:+ "user,developer" +:+ q +:+ "-->" +:+ nl
                   +:+ "## Overview" +:+ nl +:+ endTag +:+ nl
                   +:+ startTag "api-ref" +:+ nl +:+ "API documentation here." +:+ nl
                   +:+ endTag +:+ nl)
  = Ok [ {| key := "overview"; type := Some "overview";
            audience := Some ["user"; "developer"];
            content := "## Overview"; startLine := 3; endLine := 5 |};
         {| key := "api-ref"; type := None; audience := None;
            content := "API documentation here."; startLine := 6; endLine := 8 |} ].
Proof. vm_compute. reflexivity. Qed.

End LineNesting.

(** ** More facts about the string primitives *)

Section MoreStringFacts.

(** The last occurrence of a character cuts the string in two, the
    second part free of the character; likewise the first occurrence. *)

Lemma lastIndexOf_from_spec (c : ascii) (s : string) (i found : Z) :
  (JsString.contains c s = false /\ JsString.lastIndexOf_from c s i found = found)
  \/ (exists a b, s = a +:+ String c b /\ JsString.contains c b = false
                  /\ JsString.lastIndexOf_from c s i found = i + JsString.len a).
Proof.
  revert i found. induction s as [|x s IH]; intros i found; simpl.
  - left. split; reflexivity.
  - destruct (IH (i + 1) (if Ascii.eqb x c then i else found))
      as [[Hno Hres] | (a & b & Hs & Hb & Hres)].
    + destruct (Ascii.eqb x c) eqn:Hx.
      * right. exists EmptyString, s. apply Ascii.eqb_eq in Hx. subst x.
        split; [reflexivity|]. split; [assumption|].
        rewrite Hres. unfold JsString.len. simpl. lia.
      * left. split; [simpl; assumption | assumption].
    + right. exists (String x a), b. split; [simpl; congruence|].
      split; [assumption|]. rewrite Hres. unfold JsString.len. simpl String.length. lia.
Qed.

Lemma indexOf_from_spec (c : ascii) (s : string) (i : Z) :
  (JsString.contains c s = false /\ JsString.indexOf_from c s i = -1)
  \/ (exists a b, s = a +:+ String c b /\ JsString.contains c a = false
                  /\ JsString.indexOf_from c s i = i + JsString.len a).
Proof.
  revert i. induction s as [|x s IH]; intros i; simpl.
  - left. split; reflexivity.
  - destruct (Ascii.eqb x c) eqn:Hx.
    + right. exists EmptyString, s. apply Ascii.eqb_eq in Hx. subst x.
      split; [reflexivity|]. split; [reflexivity|]. unfold JsString.len. simpl. lia.
    + destruct (IH (i + 1)) as [[Hno Hres] | (a & b & Hs & Ha & Hres)].
      * left. split; assumption.
      * right. exists (String x a), b. split; [simpl; congruence|].
        split; [simpl; now rewrite Hx|].
        rewrite Hres. unfold JsString.len. simpl String.length. lia.
Qed.

Lemma startsWith_char (s : string) (c : ascii) :
  JsString.startsWith s (String c EmptyString) = true -> exists r, s = String c r.
Proof.
  destruct s as [|x r]; simpl; [discriminate|].
  rewrite andb_true_r. intros H. apply Ascii.eqb_eq in H. subst. now exists r.
Qed.

Lemma js_substringFrom_tail (c : ascii) (r : string) :
  JsString.substringFrom (String c r) 1 = r.
Proof.
  apply (js_substringFrom_suffix (String c EmptyString) r). reflexivity.
Qed.

Lemma js_substringFrom_after (a : string) (c : ascii) (b : string) :
  JsString.substringFrom (a +:+ String c b) (JsString.len a + 1) = b.
Proof.
  replace (a +:+ String c b) with ((a +:+ String c EmptyString) +:+ b)
    by (now rewrite append_assoc).
  apply js_substringFrom_suffix.
  rewrite len_append. unfold JsString.len. simpl String.length. lia.
Qed.

End MoreStringFacts.

(** ** The reference parsers *)

Section ReferenceForms_facts.

Import References ReferenceForms.

(** What a successful parse says about the text: it is a fragment, or it
    is cut at its last hash and, after an at sign, at its first slash. *)
Lemma parseSegmentRef_inv (ref : string) (r : SegmentRef) :
  parseSegmentRef ref = Some r ->
  (exists s, ref = String "#" s
             /\ r = {| project := None; documentId := None; segmentId := s; original := ref |})
  \/ (exists a b, ref = a +:+ String "#" b /\ JsString.contains "#" b = false
                  /\ b <> EmptyString /\ JsString.startsWith ref "#" = false
                  /\ ((JsString.startsWith a "@" = false
                       /\ r = {| project := None; documentId := Some a;
                                 segmentId := b; original := ref |})
                      \/ (exists p d, a = String "@" (p +:+ String "/" d)
                                      /\ JsString.contains "/" p = false
                                      /\ r = {| project := Some p; documentId := Some d;
                                                segmentId := b; original := ref |}))).
Proof.
  unfold parseSegmentRef.
  destruct (JsString.startsWith ref "#") eqn:Hfrag.
  - intros [= <-]. left. apply startsWith_char in Hfrag as [s ->].
    exists s. rewrite js_substringFrom_tail. split; reflexivity.
  - destruct (lastIndexOf_from_spec "#" ref 0 (-1)) as [[_ Hres] | (a & b & Href & Hb & Hres)];
      fold (JsString.lastIndexOf ref "#") in Hres; rewrite Hres.
    + simpl. discriminate.
    + pose proof (len_nonneg a) as Ha.
      replace (0 + JsString.len a =? -1) with false by (symmetry; apply Z.eqb_neq; lia).
      simpl orb.
      destruct (0 + JsString.len a =? JsString.len ref - 1) eqn:Hlast; [discriminate|].
      assert (Hbne : b <> EmptyString).
      { intros ->. apply Z.eqb_neq in Hlast. apply Hlast.
        rewrite Href, len_append. unfold JsString.len. simpl String.length. lia. }
      assert (Hpath : JsString.substring ref 0 (0 + JsString.len a) = a).
      { rewrite Href. apply js_substring_prefix. }
      assert (Hseg : JsString.substringFrom ref (0 + JsString.len a + 1) = b).
      { rewrite Href. apply js_substringFrom_after. }
      rewrite Hpath, Hseg. intros Hr. right. exists a, b.
      split; [assumption|]. split; [assumption|]. split; [assumption|]. split; [reflexivity|].
      destruct (JsString.startsWith a "@") eqn:Hat.
      * right. apply startsWith_char in Hat as [a' ->].
        destruct (indexOf_from_spec "/" (String "@" a') 0) as [[_ Hi] | (p & d & Hsplit & Hp & Hi)];
          fold (JsString.indexOf (String "@" a') "/") in Hi; rewrite Hi in Hr.
        -- simpl in Hr. discriminate.
        -- pose proof (len_nonneg p) as Hpl.
           replace (0 + JsString.len p =? -1) with false in Hr
             by (symmetry; apply Z.eqb_neq; lia).
           injection Hr as <-.
           destruct p as [|x p']; [simpl in Hsplit; discriminate|].
           simpl in Hsplit. injection Hsplit as Hx Ha'. subst x.
           simpl in Hp.
           exists p', d. split; [congruence|]. split; [assumption|].
           assert (Hproj : JsString.substring (String "@" a') 1 (0 + JsString.len (String "@" p')) = p').
           { rewrite Ha'.
             replace (0 + JsString.len (String "@" p')) with (JsString.len "@" + JsString.len p')
               by (unfold JsString.len; simpl String.length; lia).
             apply (js_substring_middle "@" p' (String "/" d)). }
           assert (Hdoc : JsString.substringFrom (String "@" a') (0 + JsString.len (String "@" p') + 1) = d).
           { rewrite Ha'.
             replace (String "@" (p' +:+ String "/" d)) with (String "@" p' +:+ String "/" d)
               by reflexivity.
             replace (0 + JsString.len (String "@" p') + 1) with (JsString.len (String "@" p') + 1) by lia.
             apply js_substringFrom_after. }
           rewrite Hproj, Hdoc. reflexivity.
      * left. injection Hr as <-. split; reflexivity.
Qed.

(** X1. A segment reference that parses is spelled by its parts: written
    back from the project, the document and the segment id it gives the
    text that was parsed, which is also kept as [original]; and a project
    never comes without a document. *)
Theorem parseSegmentRef_written (ref : string) (r : SegmentRef) :
  parseSegmentRef ref = Some r ->
  written r = ref /\ original r = ref /\ (project r <> None -> documentId r <> None).
Proof.
  intros H. apply parseSegmentRef_inv in H
    as [(s & -> & ->) | (a & b & Href & _ & _ & _ & [[_ ->] | (p & d & Ha & _ & ->)])].
  - unfold written. simpl. repeat split; congruence.
  - unfold written. simpl. split; [now rewrite Href|]. split; [reflexivity | congruence].
  - unfold written, buildSegmentRef. simpl project. simpl documentId. simpl segmentId.
    cbv iota. split; [|split; [reflexivity | congruence]].
    rewrite Href, Ha. simpl. rewrite !append_assoc. reflexivity.
Qed.

Lemma parseSegmentRef_written_witness :
  written {| project := Some "docs"; documentId := Some "api"; segmentId := "auth";
             original := "@docs/api#auth" |} = "@docs/api#auth"
  /\ written {| project := None; documentId := Some "api"; segmentId := "auth";
                original := "api#auth" |} = "api#auth".
Proof.
  split.
  - apply (parseSegmentRef_written "@docs/api#auth"). reflexivity.
  - apply (parseSegmentRef_written "api#auth"). reflexivity.
Defined.

(** X2. A reference that parses with a non-empty project and a non-empty
    document resolves without looking at the context: the canonical form
    is the reference itself, the scope is the at sign. *)
Theorem resolveReference_full (ref : string) (r : SegmentRef) (p d : string)
  (context : ReferenceContext) :
  parseSegmentRef ref = Some r ->
  project r = Some p -> p <> EmptyString ->
  documentId r = Some d -> d <> EmptyString ->
  resolveReference ref context
  = Ok {| canonical := ref; scope := "@"; res_project := p; page := d;
          segment := segmentId r |}.
Proof.
  intros Hparse Hp Hpne Hd Hdne.
  unfold resolveReference. rewrite Hparse, Hp, Hd.
  destruct p as [|x p']; [congruence|]. destruct d as [|y d']; [congruence|].
  simpl orElse. unfold truthy. simpl orElse. cbv iota.
  apply parseSegmentRef_inv in Hparse
    as [(s & -> & ->) | (a & b & Href & _ & _ & _ & [[_ ->] | (p0 & d0 & Ha & _ & ->)])];
    try discriminate.
  simpl in Hp, Hd. injection Hp as ->. injection Hd as ->.
  simpl segmentId. f_equal. f_equal.
  rewrite Href, Ha. unfold buildSegmentRef. simpl. rewrite !append_assoc. reflexivity.
Qed.

Lemma resolveReference_full_witness :
  resolveReference "@docs/api#auth"
    {| currentProject := Some "other"; currentPage := None |}
  = Ok {| canonical := "@docs/api#auth"; scope := "@"; res_project := "docs";
          page := "api"; segment := "auth" |}.
Proof.
  apply (resolveReference_full "@docs/api#auth"
           {| project := Some "docs"; documentId := Some "api"; segmentId := "auth";
              original := "@docs/api#auth" |} "docs" "api");
    [reflexivity | reflexivity | discriminate | reflexivity | discriminate].
Defined.

(** X3. The only accepted reference with an empty segment id is the bare
    hash: every other reference that parses has a segment id. *)
Theorem parseSegmentRef_empty_segment (ref : string) (r : SegmentRef) :
  parseSegmentRef ref = Some r ->
  (segmentId r = EmptyString <-> ref = "#").
Proof.
  intros H. split.
  - apply parseSegmentRef_inv in H
      as [(s & -> & ->) | (a & b & Href & _ & Hb & _ & [[_ ->] | (p & d & Ha & _ & ->)])];
      simpl; intros He; congruence.
  - intros ->. injection H as <-. reflexivity.
Qed.

Lemma parseSegmentRef_empty_segment_witness :
  segmentId {| project := None; documentId := None; segmentId := EmptyString;
               original := "#" |} = EmptyString <-> "#" = "#".
Proof. apply (parseSegmentRef_empty_segment "#"). reflexivity. Defined.

(** X4. A project reference that parses is its scope followed by its
    project; the project is not empty, and the scope is the at sign or
    runs up to and including the first colon. *)
Theorem parseProjectRef_parts (ref : string) (r : ProjectRef) :
  parseProjectRef ref = Some r ->
  pr_scope r +:+ pr_project r = ref /\ pr_project r <> EmptyString
  /\ pr_original r = ref
  /\ (pr_scope r = "@"
      \/ exists a, pr_scope r = a +:+ ":" /\ JsString.contains ":" a = false).
Proof.
  unfold parseProjectRef.
  destruct (JsString.startsWith ref "@") eqn:Hat.
  - apply startsWith_char in Hat as [s ->]. rewrite js_substringFrom_tail.
    destruct (String.eqb s EmptyString) eqn:Hs; [discriminate|].
    intros [= <-]. simpl. apply String.eqb_neq in Hs.
    split; [reflexivity|]. split; [assumption|]. split; [reflexivity|]. now left.
  - destruct (indexOf_from_spec ":" ref 0) as [[_ Hi] | (a & b & Href & Ha & Hi)];
      fold (JsString.indexOf ref ":") in Hi; rewrite Hi.
    + simpl. discriminate.
    + pose proof (len_nonneg a) as Hal.
      replace (0 + JsString.len a =? -1) with false by (symmetry; apply Z.eqb_neq; lia).
      assert (Hscope : JsString.substring ref 0 (0 + JsString.len a + 1) = a +:+ ":").
      { rewrite Href.
        replace (a +:+ String ":" b) with ((a +:+ ":") +:+ b) by (now rewrite append_assoc).
        replace (0 + JsString.len a + 1) with (JsString.len (a +:+ ":"))
          by (rewrite len_append; unfold JsString.len; simpl String.length; lia).
        apply js_substring_prefix. }
      assert (Hproj : JsString.substringFrom ref (0 + JsString.len a + 1) = b).
      { rewrite Href. apply js_substringFrom_after. }
      rewrite Hscope, Hproj.
      destruct (String.eqb b EmptyString) eqn:Hb; [discriminate|].
      intros [= <-]. simpl. apply String.eqb_neq in Hb.
      split; [rewrite Href; now rewrite append_assoc|].
      split; [assumption|]. split; [reflexivity|]. right. now exists a.
Qed.

Lemma parseProjectRef_parts_witness :
  "tenant:" +:+ "org/project" = "tenant:org/project" /\ "org/project" <> EmptyString
  /\ "tenant:org/project" = "tenant:org/project"
  /\ ("tenant:" = "@" \/ exists a, "tenant:" = a +:+ ":" /\ JsString.contains ":" a = false).
Proof.
  apply (parseProjectRef_parts "tenant:org/project"
           {| pr_scope := "tenant:"; pr_project := "org/project";
              pr_original := "tenant:org/project" |}).
  reflexivity.
Defined.

(** X5. Appending a hash and a segment id to a page reference: the segment
    parser accepts the result exactly when the page parser accepts the
    page reference, with the same project and page. The page reference
    must not be empty nor start with a hash, the segment id must not be
    empty nor contain a hash. *)
Theorem parseSegmentRef_after_parsePageRef (pageRef s : string) :
  pageRef <> EmptyString -> JsString.startsWith pageRef "#" = false ->
  s <> EmptyString -> JsString.contains "#" s = false ->
  parseSegmentRef (pageRef +:+ String "#" s)
  = option_map (withSegment (pageRef +:+ String "#" s) s) (parsePageRef pageRef).
Proof.
  intros Hpg Hfrag Hne Hs.
  set (ref := pageRef +:+ String "#" s).
  assert (Hhash : JsString.lastIndexOf ref "#" = JsString.len pageRef).
  { unfold JsString.lastIndexOf, ref. rewrite lastIndexOf_from_last by assumption. lia. }
  assert (Hlen : JsString.len ref = JsString.len pageRef + 1 + JsString.len s).
  { unfold ref. rewrite len_append. unfold JsString.len. simpl String.length. lia. }
  assert (Hslen : 0 < JsString.len s).
  { destruct s; [congruence | unfold JsString.len; simpl; lia]. }
  pose proof (len_nonneg pageRef) as Hpl.
  unfold parseSegmentRef.
  assert (Hfrag' : JsString.startsWith ref "#" = false).
  { unfold ref. destruct pageRef as [|x r]; [congruence | exact Hfrag]. }
  fold ref. rewrite Hfrag', Hhash.
  replace (JsString.len pageRef =? -1) with false by (symmetry; apply Z.eqb_neq; lia).
  replace (JsString.len pageRef =? JsString.len ref - 1) with false
    by (symmetry; apply Z.eqb_neq; lia).
  simpl orb. cbv iota.
  assert (Hpath : JsString.substring ref 0 (JsString.len pageRef) = pageRef)
    by apply js_substring_prefix.
  assert (Hseg : JsString.substringFrom ref (JsString.len pageRef + 1) = s)
    by apply js_substringFrom_after.
  rewrite Hpath, Hseg. unfold parsePageRef.
  destruct (JsString.startsWith pageRef "@"); [|reflexivity].
  destruct (JsString.indexOf pageRef "/" =? -1); reflexivity.
Qed.

Lemma parseSegmentRef_after_parsePageRef_witness :
  parseSegmentRef ("@docs/api" +:+ String "#" "auth")
  = option_map (withSegment ("@docs/api" +:+ String "#" "auth") "auth")
               (parsePageRef "@docs/api").
Proof.
  apply (parseSegmentRef_after_parsePageRef "@docs/api" "auth");
    [discriminate | reflexivity | discriminate | reflexivity].
Defined.

(** X6. The three kinds agree with the parser: a reference that parses is
    a fragment exactly when it has no document; one with a project is
    absolute; a relative one has a document and no project. *)
Theorem parseSegmentRef_kinds (ref : string) (r : SegmentRef) :
  parseSegmentRef ref = Some r ->
  (isFragmentRef ref = true <-> documentId r = None)
  /\ (project r <> None -> isAbsoluteRef ref = true)
  /\ (isRelativeRef ref = true -> project r = None /\ documentId r <> None).
Proof.
  intros H. unfold isRelativeRef, isAbsoluteRef, isFragmentRef.
  apply parseSegmentRef_inv in H
    as [(s & -> & ->) | (a & b & Href & _ & _ & Hfrag & [[Hat ->] | (p & d & Ha & _ & ->)])].
  - simpl. rewrite ?andb_false_r. repeat split; intros; congruence.
  - rewrite Hfrag. simpl. repeat split; intros; congruence.
  - assert (Hs : JsString.startsWith ref "@" = true) by (rewrite Href, Ha; reflexivity).
    rewrite Hfrag, Hs. simpl. repeat split; intros; congruence.
Qed.

Lemma parseSegmentRef_kinds_witness :
  (isFragmentRef "repository:x/y#s" = true <-> Some "repository:x/y" = None)
  /\ ((None : option string) <> None -> isAbsoluteRef "repository:x/y#s" = true)
  /\ (isRelativeRef "repository:x/y#s" = true
      -> (None : option string) = None /\ Some "repository:x/y" <> None).
Proof.
  apply (parseSegmentRef_kinds "repository:x/y#s"
           {| project := None; documentId := Some "repository:x/y"; segmentId := "s";
              original := "repository:x/y#s" |}).
  reflexivity.
Defined.

End ReferenceForms_facts.

(** ** Lines: splitting, joining and slicing *)

Section SplitFacts.

Lemma split_nonempty (sep : ascii) (s : string) : JsString.split sep s <> [].
Proof.
  induction s as [|c r IH]; simpl; [discriminate|].
  destruct (Ascii.eqb c sep); [discriminate|].
  destruct (JsString.split sep r); discriminate.
Qed.

Lemma split_plain (sep : ascii) (a : string) :
  JsString.contains sep a = false -> JsString.split sep a = [a].
Proof.
  induction a as [|c a IH]; simpl; [reflexivity|].
  intros H. apply orb_false_iff in H as [Hc Ha]. rewrite Hc, (IH Ha). reflexivity.
Qed.

Lemma split_app (sep : ascii) (a b : string) :
  JsString.contains sep a = false ->
  JsString.split sep (a +:+ String sep b) = a :: JsString.split sep b.
Proof.
  induction a as [|c a IH]; simpl; intros H.
  - now rewrite Ascii.eqb_refl.
  - apply orb_false_iff in H as [Hc Ha]. rewrite Hc, (IH Ha). reflexivity.
Qed.

(** Joining lines and splitting the text again gives the lines back. *)
Lemma split_join (sep : ascii) (lines : list string) :
  lines <> [] ->
  Forall (fun l => JsString.contains sep l = false) lines ->
  JsString.split sep (JsString.join (String sep EmptyString) lines) = lines.
Proof.
  intros Hne H. induction H as [|l lines Hl Hrest IH]; [congruence|].
  destruct lines as [|l' lines'].
  - simpl. now apply split_plain.
  - change (JsString.join (String sep EmptyString) (l :: l' :: lines'))
      with (l +:+ String sep (JsString.join (String sep EmptyString) (l' :: lines'))).
    rewrite split_app by assumption. f_equal. apply IH. discriminate.
Qed.

End SplitFacts.

Section SliceFacts.

Context {A : Type}.

(** A slice up to the length of a list is not changed by a line pushed
    after it. *)

Lemma slice_app_stable (l : list A) (x : A) (a b : Z) :
  0 <= a -> 0 <= b -> b <= Z.of_nat (length l) ->
  JsArray.slice (l ++ [x]) a b = JsArray.slice l a b.
Proof.
  intros Ha Hb Hbl. unfold JsArray.slice, JsArray.relative.
  rewrite length_app. simpl length.
  destruct (a <? 0) eqn:Ea; [apply Z.ltb_lt in Ea; lia|].
  destruct (b <? 0) eqn:Eb; [apply Z.ltb_lt in Eb; lia|].
  replace (Z.min b (Z.of_nat (length l + 1))) with (Z.min b (Z.of_nat (length l))) by lia.
  destruct (Z.le_gt_cases a (Z.of_nat (length l))) as [Hal | Hal].
  - replace (Z.min a (Z.of_nat (length l + 1))) with (Z.min a (Z.of_nat (length l))) by lia.
    rewrite drop_app_le by lia.
    rewrite take_app_le; [reflexivity|]. rewrite length_drop. lia.
  - replace (Z.to_nat (Z.min b (Z.of_nat (length l)) - Z.min a (Z.of_nat (length l + 1))))
      with 0%nat by lia.
    replace (Z.to_nat (Z.min b (Z.of_nat (length l)) - Z.min a (Z.of_nat (length l))))
      with 0%nat by lia.
    reflexivity.
Qed.

Lemma slice_drop (l : list A) (x : A) (k : Z) :
  0 <= k -> k <= Z.of_nat (length l) ->
  JsArray.slice (l ++ [x]) k (Z.of_nat (length l)) = drop (Z.to_nat k) l.
Proof.
  intros Hk Hkl. unfold JsArray.slice, JsArray.relative.
  rewrite length_app. simpl length.
  destruct (k <? 0) eqn:Ek; [apply Z.ltb_lt in Ek; lia|].
  destruct (Z.of_nat (length l) <? 0) eqn:El; [apply Z.ltb_lt in El; lia|].
  replace (Z.min k (Z.of_nat (length l + 1))) with k by lia.
  replace (Z.min (Z.of_nat (length l)) (Z.of_nat (length l + 1))) with (Z.of_nat (length l)) by lia.
  rewrite drop_app_le by lia.
  rewrite take_app_le by (rewrite length_drop; lia).
  apply take_ge. rewrite length_drop. lia.
Qed.

End SliceFacts.

(** ** The line scanner: what every result satisfies *)

Section LineScanFacts.

Import LineSegments.

Lemma search_some (m : Regex.matcher) (s : string) (gs : list (option string)) :
  Regex.search m s = Some gs -> exists s' r, m s' = Some (gs, r).
Proof.
  induction s as [|c s IH]; simpl.
  - destruct (m EmptyString) as [[gs' r]|] eqn:E; [|discriminate].
    intros [= <-]. eauto.
  - destruct (m (String c s)) as [[gs' r]|] eqn:E.
    + intros [= <-]. eauto.
    + exact IH.
Qed.

Lemma notQuote0_quote_free (s run rest : string) :
  Regex.notQuote0 s = (run, rest) -> JsString.contains JsString.DQUOTE run = false.
Proof.
  revert run rest. induction s as [|c s IH]; simpl; intros run rest H.
  - now injection H as <- <-.
  - destruct (Ascii.eqb c JsString.DQUOTE) eqn:Hc.
    + now injection H as <- <-.
    + destruct (Regex.notQuote0 s) as [run' rest'] eqn:E. injection H as <- <-.
      simpl. rewrite Hc. simpl. eapply IH. reflexivity.
Qed.

Lemma quoted_run (s run rest : string) :
  Regex.quoted s = Some (run, rest) ->
  run <> EmptyString /\ JsString.contains JsString.DQUOTE run = false.
Proof.
  unfold Regex.quoted. destruct (Regex.notQuote0 s) as [run' rest'] eqn:E.
  destruct run' as [|c run']; [discriminate|].
  destruct rest' as [|c' rest']; [discriminate|].
  intros [= <- <-]. split; [discriminate|]. eapply notQuote0_quote_free. exact E.
Qed.

Lemma START_PATTERN_key (s : string) (gs : list (option string)) (r : string) :
  START_PATTERN s = Some (gs, r) ->
  exists k ty au, gs = [Some k; ty; au] /\ k <> EmptyString
                  /\ JsString.contains JsString.DQUOTE k = false.
Proof.
  unfold START_PATTERN. intros H.
  repeat match type of H with
         | context [mbind _ ?x] =>
             destruct x eqn:?;
             cbn -[Regex.lit Regex.spaces1 Regex.spaces0 Regex.quoted optionalAttr] in H;
             [|discriminate]
         end.
  destruct p as [k r'].
  cbn -[Regex.lit Regex.spaces1 Regex.spaces0 Regex.quoted optionalAttr] in H.
  destruct (optionalAttr "type" r') as [ty r1].
  destruct (optionalAttr "audience" r1) as [au r2].
  destruct (Regex.lit "-->" (Regex.spaces0 r2));
    cbn -[Regex.lit Regex.spaces1 Regex.spaces0 Regex.quoted optionalAttr] in H;
    [|discriminate].
  injection H as <- <-. exists k, ty, au. split; [reflexivity|].
  eapply quoted_run. eassumption.
Qed.

Lemma classify_start_key (line k : string) (ty au : option string) :
  classify line = StartLine k ty au ->
  k <> EmptyString /\ JsString.contains JsString.DQUOTE k = false.
Proof.
  unfold classify.
  destruct (Regex.search START_PATTERN line) as [gs|] eqn:E.
  - destruct (search_some _ _ _ E) as (s' & r & E').
    destruct (START_PATTERN_key _ _ _ E') as (k' & ty' & au' & Hgs & Hk).
    subst gs. intros H. injection H as <- <- <-. exact Hk.
  - destruct (Regex.search END_PATTERN line); discriminate.
Qed.

Lemma inOrder_snoc (lo : Z) (segs : list ParsedSegment) (x : ParsedSegment) :
  inOrder lo segs -> Forall (fun s => endLine s < startLine x) segs ->
  lo < startLine x -> startLine x < endLine x ->
  inOrder lo (segs ++ [x]).
Proof.
  revert lo. induction segs as [|s segs IH]; simpl; intros lo Hord Hall Hlo Hx.
  - auto.
  - destruct Hord as (H1 & H2 & H3). inversion Hall as [|? ? Hs Hrest]; subst.
    split; [assumption|]. split; [assumption|]. apply IH; assumption.
Qed.

Lemma located_app (done : list string) (l : string) (seg : ParsedSegment) :
  located done seg -> located (done ++ [l]) seg.
Proof.
  intros (H1 & H2 & H3 & H4). unfold located.
  rewrite length_app. simpl length.
  split; [assumption|]. split; [assumption|]. split; [lia|].
  rewrite slice_app_stable by lia. exact H4.
Qed.

Lemma scanned_initial : scanned [] initialState.
Proof.
  unfold scanned, initialState. simpl. repeat split; constructor.
Qed.

(** One iteration keeps what the scanner has established. *)
Lemma stepLine_scanned (done : list string) (st st' : ScanState) (l : string) :
  scanned done st -> stepLine st l = Ok st' -> scanned (done ++ [l]) st'.
Proof.
  intros (Hi & Hloc & Hkeys & Hord & Hcur) Hstep.
  assert (Hloc' : Forall (located (done ++ [l])) (segments st)).
  { eapply Forall_impl; [exact Hloc|]. intros seg. apply located_app. }
  unfold stepLine in Hstep. unfold scanned. rewrite length_app. simpl length.
  destruct (classify l) as [k ty au| |] eqn:Hl.
  - destruct (currentSegment st) as [cur|] eqn:Hc; [discriminate|].
    injection Hstep as <-. simpl.
    apply classify_start_key in Hl as [Hk _].
    split; [lia|]. split; [assumption|]. split; [assumption|]. split; [assumption|].
    split; [lia|]. split; [lia|]. split; [assumption|]. split.
    + eapply Forall_impl; [exact Hloc|]. intros seg (_ & _ & H3 & _). simpl. lia.
    + rewrite Hi. replace (Z.to_nat (Z.of_nat (length done) + 1)) with (length (done ++ [l]))
        by (rewrite length_app; simpl; lia).
      now rewrite drop_all.
  - destruct (currentSegment st) as [cur|] eqn:Hc; [|discriminate].
    destruct Hcur as (Hc1 & Hc2 & Hck & Hends & Hlines).
    injection Hstep as <-. simpl.
    split; [lia|]. split; [|split; [|split; [|exact I]]].
    + apply Forall_app. split; [assumption|]. constructor; [|constructor].
      unfold located. simpl. rewrite length_app. simpl length.
      split; [assumption|]. split; [lia|]. split; [lia|].
      rewrite Hlines. f_equal.
      replace (i st + 1 - 1) with (Z.of_nat (length done)) by lia.
      symmetry. apply slice_drop; lia.
    + apply Forall_app. split; [assumption|]. constructor; [assumption | constructor].
    + apply inOrder_snoc; simpl; [assumption | assumption | lia | lia].
  - injection Hstep as <-. simpl.
    split; [lia|]. split; [assumption|]. split; [assumption|]. split; [assumption|].
    destruct (currentSegment st) as [cur|] eqn:Hc; [|exact I].
    destruct Hcur as (Hc1 & Hc2 & Hck & Hends & Hlines).
    split; [assumption|]. split; [lia|]. split; [assumption|]. split; [assumption|].
    rewrite Hlines. rewrite drop_app_le by lia. reflexivity.
Qed.

Lemma scanLines_scanned (lines done : list string) (st st' : ScanState) :
  scanned done st -> scanLines lines st = Ok st' -> scanned (done ++ lines) st'.
Proof.
  revert done st. induction lines as [|l lines IH]; intros done st Hinv H; simpl in H.
  - injection H as <-. now rewrite app_nil_r.
  - destruct (stepLine st l) as [st1|] eqn:E; simpl in H; [|discriminate].
    replace (done ++ l :: lines) with ((done ++ [l]) ++ lines) by (now rewrite <- app_assoc).
    eapply IH; [|exact H]. eapply stepLine_scanned; eassumption.
Qed.

Lemma parseLines_scanned (lines : list string) (segs : list ParsedSegment) :
  parseLines lines = Ok segs ->
  Forall (located lines) segs /\ Forall (fun s => key s <> EmptyString) segs
  /\ inOrder 0 segs.
Proof.
  unfold parseLines. intros H.
  destruct (scanLines lines initialState) as [st|] eqn:E; simpl in H; [|discriminate].
  pose proof (scanLines_scanned lines [] _ _ scanned_initial E) as (_ & Hloc & Hk & Hord & _).
  unfold finish in H. destruct (currentSegment st); [discriminate|].
  injection H as <-. simpl in Hloc. auto.
Qed.

End LineScanFacts.

(** ** The line scanner on a page of one marked segment *)

Section LineRoundTrip.

Import LineSegments LineContent Samples.

Lemma lit_startsWith (p s : string) :
  JsString.startsWith s p = false -> Regex.lit p s = None.
Proof.
  revert s. induction p as [|c p IH]; intros s; simpl; [discriminate|].
  destruct s as [|x s]; [reflexivity|].
  destruct (Ascii.eqb x c); simpl; [apply IH | reflexivity].
Qed.

Lemma search_mentions (m : Regex.matcher) (p s : string) :
  (forall t, Regex.lit p t = None -> m t = None) ->
  mentions p s = false -> Regex.search m s = None.
Proof.
  intros Hm. induction s as [|c s IH]; simpl; intros H;
    apply orb_false_iff in H as [Hs Hr];
    rewrite (Hm _ (lit_startsWith _ _ Hs)); [reflexivity | now apply IH].
Qed.

Lemma classify_plain (l : string) :
  mentions "<!--semcontext:segment" l = false -> classify l = TextLine.
Proof.
  intros H. unfold classify.
  rewrite (search_mentions START_PATTERN "<!--semcontext:segment" l); [| |exact H].
  - rewrite (search_mentions END_PATTERN "<!--semcontext:segment" l); [reflexivity| |exact H].
    intros t Ht. unfold END_PATTERN. now rewrite Ht.
  - intros t Ht. unfold START_PATTERN. now rewrite Ht.
Qed.

Lemma notQuote0_app (k r : string) :
  JsString.contains JsString.DQUOTE k = false ->
  Regex.notQuote0 (k +:+ String JsString.DQUOTE r) = (k, String JsString.DQUOTE r).
Proof.
  induction k as [|c k IH]; simpl; intros H; [reflexivity|].
  apply orb_false_iff in H as [Hc Hk]. rewrite Hc, (IH Hk). reflexivity.
Qed.

Lemma search_here (m : Regex.matcher) (s : string) (gs : list (option string)) (r : string) :
  m s = Some (gs, r) -> Regex.search m s = Some gs.
Proof. intros H. destruct s; simpl; rewrite H; reflexivity. Qed.

Lemma classify_startTag (k : string) :
  k <> EmptyString -> JsString.contains JsString.DQUOTE k = false ->
  classify (startTag k) = StartLine k None None.
Proof.
  intros Hne Hk. unfold classify.
  assert (H : START_PATTERN (startTag k) = Some ([Some k; None; None], EmptyString)).
  { unfold START_PATTERN, startTag, q. simpl.
    unfold Regex.quoted. rewrite notQuote0_app by assumption.
    destruct k as [|c k]; [congruence|]. reflexivity. }
  rewrite (search_here _ _ _ _ H). reflexivity.
Qed.

Lemma classify_endTag : classify endTag = EndLine.
Proof. reflexivity. Qed.

Lemma contains_startTag (k : string) :
  JsString.contains JsString.LF k = false ->
  JsString.contains JsString.LF (startTag k) = false.
Proof.
  intros H. unfold startTag, q. rewrite !contains_append, H. reflexivity.
Qed.

(** Text lines are collected into the open segment, or passed over. *)
Lemma scanLines_text_state (lines : list string) (st : ScanState) :
  Forall (fun l => classify l = TextLine) lines ->
  scanLines lines st
  = Ok {| i := i st + Z.of_nat (length lines);
          currentSegment := currentSegment st;
          contentLines := match currentSegment st with
                          | Some _ => contentLines st ++ lines
                          | None => contentLines st
                          end;
          segments := segments st |}.
Proof.
  intros H. revert st. induction H as [|l lines Hl _ IH]; intros st.
  - simpl. destruct st as [i0 [cur|] cl sg]; simpl; rewrite ?app_nil_r, Z.add_0_r; reflexivity.
  - simpl scanLines. unfold stepLine. rewrite Hl. simpl bind. rewrite IH. simpl.
    f_equal. destruct (currentSegment st); f_equal; try lia.
    + now rewrite <- app_assoc.
Qed.

End LineRoundTrip.

Section LineTheorems.

Import LineSegments LineContent Samples.

Lemma plainLine_text (lines : list string) :
  Forall plainLine lines -> Forall (fun l => classify l = TextLine) lines.
Proof.
  intros H. eapply Forall_impl; [exact H|]. intros l [_ Hl]. now apply classify_plain.
Qed.

Lemma plainLine_one_line (lines : list string) :
  Forall plainLine lines -> Forall (fun l => JsString.contains JsString.LF l = false) lines.
Proof. intros H. eapply Forall_impl; [exact H|]. now intros l [Hl _]. Qed.

(** The lines of a document with one marked segment. *)
Lemma parseLines_one_segment (k : string) (pre body post : list string) :
  k <> EmptyString -> JsString.contains JsString.DQUOTE k = false ->
  Forall (fun l => classify l = TextLine) pre ->
  Forall (fun l => classify l = TextLine) body ->
  Forall (fun l => classify l = TextLine) post ->
  parseLines (pre ++ [startTag k] ++ body ++ [endTag] ++ post)
  = Ok [ {| key := k; type := None; audience := None;
            content := JsString.join nl body;
            startLine := Z.of_nat (length pre) + 1;
            endLine := Z.of_nat (length pre) + Z.of_nat (length body) + 2 |} ].
Proof.
  intros Hne Hq Hpre Hbody Hpost. unfold parseLines.
  rewrite scanLines_app, (scanLines_text_state pre _ Hpre).
  cbn [bind app scanLines]. unfold stepLine at 1.
  rewrite (classify_startTag k Hne Hq).
  cbn [bind currentSegment initialState].
  rewrite scanLines_app, (scanLines_text_state body _ Hbody).
  cbn [bind app scanLines]. unfold stepLine at 1.
  rewrite classify_endTag.
  cbn [bind currentSegment].
  rewrite (scanLines_text_state post _ Hpost).
  cbn. do 2 f_equal. f_equal; lia.
Qed.

(** X7. Round trip of the line scanner: a page made of lines of text, a
    start marker for the key [k], lines of text, an end marker and lines
    of text parses to one segment, whose key is [k], whose content is the
    lines between the markers and whose two line numbers are those of the
    markers. The key is not empty and has no quote or line break. *)
Theorem parseSegments_round_trip (k : string) (pre body post : list string) :
  k <> EmptyString ->
  JsString.contains JsString.DQUOTE k = false ->
  JsString.contains JsString.LF k = false ->
  Forall plainLine pre -> Forall plainLine body -> Forall plainLine post ->
  parseSegments (JsString.join nl (pre ++ [startTag k] ++ body ++ [endTag] ++ post))
  = Ok [ {| key := k; type := None; audience := None;
            content := JsString.join nl body;
            startLine := Z.of_nat (length pre) + 1;
            endLine := Z.of_nat (length pre) + Z.of_nat (length body) + 2 |} ].
Proof.
  intros Hne Hq Hlf Hpre Hbody Hpost. unfold parseSegments, nl.
  rewrite split_join.
  - apply parseLines_one_segment; auto using plainLine_text.
  - destruct pre; discriminate.
  - repeat (apply Forall_app; split);
      auto using plainLine_one_line, contains_startTag.
Qed.

Lemma parseSegments_round_trip_witness :
  parseSegments (JsString.join nl (["# Title"] ++ [startTag "intro"]
                                     ++ ["Hello"; "World"] ++ [endTag] ++ [EmptyString]))
  = Ok [ {| key := "intro"; type := None; audience := None;
            content := JsString.join nl ["Hello"; "World"];
            startLine := Z.of_nat (length ["# Title"]) + 1;
            endLine := Z.of_nat (length ["# Title"])
                       + Z.of_nat (length ["Hello"; "World"]) + 2 |} ].
Proof.
  apply (parseSegments_round_trip "intro" ["# Title"] ["Hello"; "World"] [EmptyString]);
    try discriminate; try reflexivity; repeat constructor.
Defined.

(** X8. On such a page [extractSegmentContent] returns the lines placed
    between the markers of the key, and null when there is none or when
    they join to the empty string. *)
Theorem extractSegmentContent_round_trip (k : string) (pre body post : list string) :
  k <> EmptyString ->
  JsString.contains JsString.DQUOTE k = false ->
  JsString.contains JsString.LF k = false ->
  Forall plainLine pre -> Forall plainLine body -> Forall plainLine post ->
  extractSegmentContent
    (JsString.join nl (pre ++ [startTag k] ++ body ++ [endTag] ++ post)) k
  = Ok (match JsString.join nl body with
        | EmptyString => None
        | c => Some c
        end).
Proof.
  intros Hne Hq Hlf Hpre Hbody Hpost. unfold extractSegmentContent.
  unfold parseSegments, nl.
  rewrite split_join.
  - rewrite parseLines_one_segment by auto using plainLine_text.
    simpl. rewrite String.eqb_refl. reflexivity.
  - destruct pre; discriminate.
  - repeat (apply Forall_app; split);
      auto using plainLine_one_line, contains_startTag.
Qed.

Lemma extractSegmentContent_round_trip_witness :
  extractSegmentContent
    (JsString.join nl ([] ++ [startTag "intro"] ++ [] ++ [endTag] ++ [])) "intro"
  = Ok (match JsString.join nl [] with
        | EmptyString => None
        | c => Some c
        end).
Proof.
  apply (extractSegmentContent_round_trip "intro" [] [] []);
    try discriminate; try reflexivity; constructor.
Defined.

(** X9. The segments that the scanner returns follow one another in the
    page: each starts on a line after the end of the one before, ends
    after it starts, and ends within the page. *)
Theorem parseSegments_in_order (markdown : string) (segs : list ParsedSegment) :
  parseSegments markdown = Ok segs ->
  inOrder 0 segs
  /\ Forall (fun s => endLine s
                      <= Z.of_nat (length (JsString.split JsString.LF markdown))) segs.
Proof.
  unfold parseSegments. intros H.
  apply parseLines_scanned in H as (Hloc & _ & Hord). split; [assumption|].
  eapply Forall_impl; [exact Hloc|]. now intros s (_ & _ & H3 & _).
Qed.

(** Every segment that the scanner returns is located in the page. *)
Lemma parseSegments_all_located (markdown : string) (segs : list ParsedSegment)
  (seg : ParsedSegment) :
  parseSegments markdown = Ok segs -> In seg segs ->
  located (JsString.split JsString.LF markdown) seg.
Proof.
  unfold parseSegments. intros H Hin.
  apply parseLines_scanned in H as (Hloc & _ & _).
  rewrite Forall_forall in Hloc. apply list_elem_of_In in Hin. exact (Hloc _ Hin).
Qed.

(** X10. The two parsers of the line format agree: an annotation whose
    line range runs from the line after the start marker of a scanned
    segment to the line before its end marker extracts the content that
    the scanner gave the segment. *)
Theorem parseSegments_located (markdown : string) (segs : list ParsedSegment)
  (seg : ParsedSegment) (a : Annotations.AnnotatedSegment) :
  parseSegments markdown = Ok segs -> In seg segs ->
  Annotations.line_range a
  = Some {| Annotations.start := startLine seg + 1; Annotations.end_ := endLine seg - 1 |} ->
  Annotations.extractSegmentContent markdown a = Some (content seg).
Proof.
  intros H Hin Ha.
  destruct (parseSegments_all_located _ _ _ H Hin) as (_ & _ & _ & Hc).
  unfold Annotations.extractSegmentContent. rewrite Ha. simpl.
  replace (startLine seg + 1 - 1) with (startLine seg) by lia.
  now rewrite Hc.
Qed.

(** X12. The checksum of such an annotation, made with the hash function
    from the content of the scanned segment, validates exactly when that
    content is not empty: an empty content fails whatever the checksum. *)
Theorem validateSegmentChecksum_parsed (markdown : string) (segs : list ParsedSegment)
  (seg : ParsedSegment) (a : Annotations.AnnotatedSegment) (sha256Fn : string -> string) :
  parseSegments markdown = Ok segs -> In seg segs ->
  Annotations.line_range a
  = Some {| Annotations.start := startLine seg + 1; Annotations.end_ := endLine seg - 1 |} ->
  Annotations.segment_checksum a = Some ("sha256:" +:+ sha256Fn (content seg)) ->
  Annotations.validateSegmentChecksum markdown a sha256Fn
  = negb (String.eqb (content seg) EmptyString).
Proof.
  intros H Hin Ha Hsum.
  destruct (parseSegments_all_located _ _ _ H Hin) as (_ & _ & _ & Hc).
  unfold Annotations.validateSegmentChecksum, Annotations.extractSegmentContent.
  rewrite Hsum, Ha. simpl Annotations.start. simpl Annotations.end_.
  replace (startLine seg + 1 - 1) with (startLine seg) by lia.
  rewrite <- Hc.
  cbn [String.append]. destruct (content seg) as [|c r] eqn:Hcs; [reflexivity|].
  cbn [String.eqb negb]. rewrite <- Hcs.
  change (String "s" (String "h" (String "a" (String "2" (String "5" (String "6"
            (String ":" (sha256Fn (content seg)))))))))
    with ("sha256:" +:+ sha256Fn (content seg)).
  apply String.eqb_refl.
Qed.

End LineTheorems.

(** ** Validation of scanned segments *)

Section LineValidation.

Import LineSegments LineContent Samples.

(** The loop of [validateSegments] finds nothing exactly when no key is
    empty, repeated, or already in the set it starts from. *)
Lemma validateSegments_fold (segs : list ParsedSegment) (errors : list string)
  (keys : gset string) :
  fst (fold_left
         (fun '(errors, keys) seg =>
            (errors
               ++ (if bool_decide (key seg ∈ keys)
                   then ["Duplicate segment key: " +:+ key seg] else [])
               ++ (if String.eqb (key seg) EmptyString
                   then ["Segment missing required 'key' field"] else []),
             {[key seg]} ∪ keys))
         segs (errors, keys)) = []
  <-> errors = [] /\ Forall (fun s => key s <> EmptyString /\ key s ∉ keys) segs
      /\ NoDup (List.map key segs).
Proof.
  revert errors keys. induction segs as [|s segs IH]; intros errors keys.
  - simpl. split; [intros ->; repeat split; constructor | now intros (-> & _)].
  - cbn [fold_left List.map]. rewrite IH. clear IH.
    rewrite NoDup_cons, Forall_cons. split.
    + intros (Herr & Hall & Hnd).
      apply app_eq_nil in Herr as [-> Herr]. apply app_eq_nil in Herr as [Hdup Hemp].
      case_bool_decide as Hin; [discriminate|].
      destruct (String.eqb (key s) EmptyString) eqn:He; [discriminate|].
      apply String.eqb_neq in He.
      split; [reflexivity|]. split; [split; [split; assumption|]|].
      * eapply Forall_impl; [exact Hall|]. intros x [Hx Hn]. split; [assumption|].
        intros Hk. apply Hn. now apply elem_of_union_r.
      * split; [|assumption]. intros Hk. apply list_elem_of_fmap in Hk as (x & Hkx & Hx).
        rewrite Forall_forall in Hall. destruct (Hall x Hx) as [_ Hn].
        apply Hn. apply elem_of_union_l, elem_of_singleton. congruence.
    + intros (-> & [[Hne Hnin] Hall] & [Hfresh Hnd]).
      rewrite bool_decide_eq_false_2 by assumption.
      apply String.eqb_neq in Hne. rewrite Hne. split; [reflexivity|]. split; [|assumption].
      rewrite Forall_forall in Hall |- *. intros x Hx. destruct (Hall x Hx) as [Hxne Hxn].
      split; [assumption|]. intros Hin. apply elem_of_union in Hin as [Hin | Hin]; [|auto].
      apply elem_of_singleton in Hin. apply Hfresh. rewrite <- Hin.
      apply list_elem_of_fmap. eauto.
Qed.

Lemma validateSegments_accepts (segs : list ParsedSegment) :
  validateSegments segs = []
  <-> Forall (fun s => key s <> EmptyString) segs /\ NoDup (List.map key segs).
Proof.
  unfold validateSegments. rewrite validateSegments_fold. split.
  - intros (_ & Hall & Hnd). split; [|assumption].
    eapply Forall_impl; [exact Hall|]. now intros x [Hx _].
  - intros (Hall & Hnd). split; [reflexivity|]. split; [|assumption].
    eapply Forall_impl; [exact Hall|]. intros x Hx. split; [assumption | set_solver].
Qed.

(** Every finding is one of the two messages of the loop. *)
Lemma validateSegments_findings (segs : list ParsedSegment) (errors : list string)
  (keys : gset string) (msg : string) :
  In msg (fst (fold_left
         (fun '(errors, keys) seg =>
            (errors
               ++ (if bool_decide (key seg ∈ keys)
                   then ["Duplicate segment key: " +:+ key seg] else [])
               ++ (if String.eqb (key seg) EmptyString
                   then ["Segment missing required 'key' field"] else []),
             {[key seg]} ∪ keys))
         segs (errors, keys))) ->
  In msg errors
  \/ (exists s, In s segs /\ msg = "Duplicate segment key: " +:+ key s)
  \/ (exists s, In s segs /\ key s = EmptyString).
Proof.
  revert errors keys. induction segs as [|s segs IH]; intros errors keys; simpl.
  - auto.
  - intros H. apply IH in H as [H | [(x & Hx & ->) | (x & Hx & He)]]; eauto 6.
    apply in_app_or in H as [H | H]; [auto|].
    apply in_app_or in H as [H | H].
    + case_bool_decide; [|contradiction]. destruct H as [<- | []]. right. left. eauto.
    + destruct (String.eqb (key s) EmptyString) eqn:He; [|contradiction].
      apply String.eqb_eq in He. right. right. eauto.
Qed.

(** X11. Validation of what the scanner returns: it finds nothing exactly
    when no two segments have the same key, and it never reports a
    missing key, because the scanner gives every segment a key. *)
Theorem validateSegments_parseSegments (markdown : string) (segs : list ParsedSegment) :
  parseSegments markdown = Ok segs ->
  (validateSegments segs = [] <-> NoDup (List.map key segs))
  /\ ~ In "Segment missing required 'key' field" (validateSegments segs).
Proof.
  unfold parseSegments. intros H.
  apply parseLines_scanned in H as (_ & Hkeys & _). split.
  - rewrite validateSegments_accepts. tauto.
  - intros Hin. unfold validateSegments in Hin.
    apply validateSegments_findings in Hin as [[] | [(x & Hx & Hmsg) | (x & Hx & He)]].
    + discriminate.
    + rewrite Forall_forall in Hkeys. apply list_elem_of_In in Hx.
      exact (Hkeys x Hx He).
Qed.

Lemma validateSegments_parseSegments_witness :
  (validateSegments
     [ {| key := "a"; type := None; audience := None; content := "x";
          startLine := 1; endLine := 3 |} ] = []
   <-> NoDup (List.map key
        [ {| key := "a"; type := None; audience := None; content := "x";
             startLine := 1; endLine := 3 |} ]))
  /\ ~ In "Segment missing required 'key' field"
        (validateSegments
           [ {| key := "a"; type := None; audience := None; content := "x";
                startLine := 1; endLine := 3 |} ]).
Proof.
  apply (validateSegments_parseSegments (startTag "a" +:+ nl +:+ "x" +:+ nl +:+ endTag)).
  vm_compute. reflexivity.
Defined.

Lemma parseSegments_in_order_witness :
  inOrder 0 [ {| key := "a"; type := None; audience := None; content := "x";
                 startLine := 1; endLine := 3 |} ]
  /\ Forall (fun s => endLine s
               <= Z.of_nat (length (JsString.split JsString.LF
                                      (startTag "a" +:+ nl +:+ "x" +:+ nl +:+ endTag))))
       [ {| key := "a"; type := None; audience := None; content := "x";
            startLine := 1; endLine := 3 |} ].
Proof.
  apply (parseSegments_in_order (startTag "a" +:+ nl +:+ "x" +:+ nl +:+ endTag)).
  vm_compute. reflexivity.
Defined.

Lemma parseSegments_located_witness :
  Annotations.extractSegmentContent
    (startTag "a" +:+ nl +:+ "x" +:+ nl +:+ "y" +:+ nl +:+ endTag)
    {| Annotations.id := "a"; Annotations.byte_range := None;
       Annotations.line_range :=
         Some {| Annotations.start := 2; Annotations.end_ := 3 |};
       Annotations.segment_checksum := None |}
  = Some ("x" +:+ nl +:+ "y").
Proof.
  apply (parseSegments_located
           (startTag "a" +:+ nl +:+ "x" +:+ nl +:+ "y" +:+ nl +:+ endTag)
           [ {| key := "a"; type := None; audience := None;
                content := "x" +:+ nl +:+ "y"; startLine := 1; endLine := 4 |} ]
           {| key := "a"; type := None; audience := None;
              content := "x" +:+ nl +:+ "y"; startLine := 1; endLine := 4 |}).
  - vm_compute. reflexivity.
  - simpl. left. reflexivity.
  - reflexivity.
Defined.

End LineValidation.

Section ChecksumExamples.

Import LineSegments Samples.

Lemma validateSegmentChecksum_parsed_witness :
  Annotations.validateSegmentChecksum
    (startTag "a" +:+ nl +:+ "x" +:+ nl +:+ endTag)
    {| Annotations.id := "a"; Annotations.byte_range := None;
       Annotations.line_range :=
         Some {| Annotations.start := 2; Annotations.end_ := 2 |};
       Annotations.segment_checksum := Some ("sha256:" +:+ String.append "#" "x") |}
    (String.append "#")
  = negb (String.eqb "x" EmptyString).
Proof.
  apply (validateSegmentChecksum_parsed
           (startTag "a" +:+ nl +:+ "x" +:+ nl +:+ endTag)
           [ {| key := "a"; type := None; audience := None;
                content := "x"; startLine := 1; endLine := 3 |} ]
           {| key := "a"; type := None; audience := None;
              content := "x"; startLine := 1; endLine := 3 |}).
  - vm_compute. reflexivity.
  - simpl. left. reflexivity.
  - reflexivity.
  - reflexivity.
Defined.

End ChecksumExamples.

(** ** The marker parser: where the bodies lie *)

Section RangeFacts.

Import Segments.

Lemma length_substring_le (n : nat) (s : string) :
  (n <= String.length s)%nat -> String.length (String.substring 0 n s) = n.
Proof.
  revert s. induction n as [|n IH]; intros s H.
  - destruct s; reflexivity.
  - destruct s as [|c s]; simpl in *; [lia|]. rewrite IH by lia. reflexivity.
Qed.

Lemma len_matchedText (s rest : string) :
  0 <= JsString.len (Regex.matchedText s rest) <= JsString.len s.
Proof.
  unfold Regex.matchedText, JsString.len.
  rewrite length_substring_le by lia. lia.
Qed.

(** Every match lies inside the text searched. *)
Lemma execAll_from_bounds (m : Regex.matcher) (s : string) (pos : Z) (skip : nat) :
  Forall (fun mt => pos <= Regex.index mt
                    /\ Regex.index mt + JsString.len (Regex.matched mt)
                       <= pos + JsString.len s)
         (Regex.execAll_from m s pos skip).
Proof.
  revert pos skip. induction s as [|c r IH]; intros pos skip; simpl; [constructor|].
  assert (Hlen : JsString.len (String c r) = 1 + JsString.len r)
    by (unfold JsString.len; simpl String.length; lia).
  assert (Hshift : forall k,
            Forall (fun mt => pos <= Regex.index mt
                              /\ Regex.index mt + JsString.len (Regex.matched mt)
                                 <= pos + JsString.len (String c r))
                   (Regex.execAll_from m r (pos + 1) k)).
  { intros k. eapply Forall_impl; [apply IH|]. intros mt [H1 H2]. rewrite Hlen. lia. }
  destruct skip as [|k]; [|apply Hshift].
  destruct (m (String c r)) as [[gs rest]|]; [|apply Hshift].
  constructor; [|apply Hshift]. simpl.
  pose proof (len_matchedText (String c r) rest). lia.
Qed.

Lemma execAll_bounds (m : Regex.matcher) (s : string) :
  Forall (fun mt => 0 <= Regex.index mt
                    /\ Regex.index mt + JsString.len (Regex.matched mt) <= JsString.len s)
         (Regex.execAll m s).
Proof. apply (execAll_from_bounds m s 0 0). Qed.

(** The ranges the pairing loop returns, as bodies in order. *)
Lemma pairMarkers_in_order (starts ends : list Regex.Match) (offsetAdjust lo hi : Z)
  (markers : list MarkerRange) :
  match starts with
  | s :: _ => lo <= Regex.index s + JsString.len (Regex.matched s) + offsetAdjust
  | [] => True
  end ->
  lo <= hi ->
  Forall (fun e => Regex.index e + offsetAdjust <= hi) ends ->
  pairMarkers starts ends offsetAdjust = Ok markers ->
  rangesInOrder lo markers hi.
Proof.
  revert ends lo markers.
  induction starts as [|start starts IH]; intros ends lo markers Hhead Hlo Hends H.
  - simpl in H. injection H as <-. exact Hlo.
  - destruct ends as [|end_ ends]; [simpl in H; injection H as <-; exact Hlo|].
    simpl in H.
    destruct (Regex.index end_ <? Regex.index start + JsString.len (Regex.matched start))
      eqn:Hord; [discriminate|].
    apply Z.ltb_ge in Hord.
    destruct (nestedAt start end_ (head starts)) as [msg|] eqn:Hnest; [discriminate|].
    destruct (pairMarkers starts ends offsetAdjust) as [rest|] eqn:Hrest; [|discriminate].
    simpl in H. injection H as <-.
    apply Forall_cons in Hends as [Hend Hends].
    simpl. split; [exact Hhead|]. split; [lia|].
    apply (IH ends); [| exact Hend | exact Hends | exact Hrest].
    destruct starts as [|next starts']; [exact I|].
    simpl in Hnest. destruct (Regex.index next <? Regex.index end_) eqn:Hn; [discriminate|].
    apply Z.ltb_ge in Hn. pose proof (len_nonneg (Regex.matched next)). lia.
Qed.

Lemma parseMarkers_in_order (content : string) (offsetAdjust : Z)
  (markers : list MarkerRange) :
  parseMarkers content offsetAdjust = Ok markers ->
  rangesInOrder offsetAdjust markers (offsetAdjust + JsString.len content).
Proof.
  unfold parseMarkers.
  destruct (negb _); [discriminate|]. intros H.
  pose proof (len_nonneg content) as Hc.
  eapply pairMarkers_in_order; [| | |exact H].
  - pose proof (execAll_bounds SEGMENT_START_RE content) as Hb.
    destruct (Regex.execAll SEGMENT_START_RE content) as [|s starts]; [exact I|].
    apply Forall_cons in Hb as [[H1 _] _].
    pose proof (len_nonneg (Regex.matched s)). lia.
  - lia.
  - eapply Forall_impl; [apply execAll_bounds|]. intros e [H1 H2]. simpl in *.
    pose proof (len_nonneg (Regex.matched e)). lia.
Qed.

Lemma bodiesInOrder_map (docText : string) (specMap : gmap string SegmentSpec)
  (lo hi : Z) (markers : list MarkerRange) :
  rangesInOrder lo markers hi ->
  bodiesInOrder lo (List.map (instanceOf docText specMap) markers) hi.
Proof.
  revert lo. induction markers as [|m r IH]; intros lo; simpl; [auto|].
  intros (H1 & H2 & H3). auto.
Qed.

(** A text is its first [k] characters followed by the rest. *)
Lemma substring_split (k : nat) (s : string) :
  (k <= String.length s)%nat ->
  s = String.substring 0 k s +:+ String.substring k (String.length s - k) s.
Proof.
  revert s. induction k as [|k IH]; intros s H.
  - simpl. rewrite Nat.sub_0_r. destruct s; simpl; [reflexivity|].
    now rewrite substring_all.
  - destruct s as [|c s]; simpl in *; [lia|]. f_equal. apply IH. lia.
Qed.

Lemma substringFrom_split (s : string) (n : Z) :
  0 <= n <= JsString.len s ->
  s = String.substring 0 (Z.to_nat n) s +:+ JsString.substringFrom s n.
Proof.
  intros Hn. unfold JsString.substringFrom, JsString.substring, JsString.clamp.
  unfold JsString.len in *.
  replace (Z.to_nat (Z.max 0 (Z.min n (Z.of_nat (String.length s))))) with (Z.to_nat n) by lia.
  replace (Z.to_nat (Z.max 0 (Z.min (Z.of_nat (String.length s)) (Z.of_nat (String.length s)))))
    with (String.length s) by lia.
  replace (Nat.min (Z.to_nat n) (String.length s)) with (Z.to_nat n) by lia.
  replace (Nat.max (Z.to_nat n) (String.length s) - Z.to_nat n)%nat
    with (String.length s - Z.to_nat n)%nat by lia.
  apply substring_split. lia.
Qed.

Lemma substring_shift (p c : string) (a n : nat) :
  String.substring (String.length p + a) n (p +:+ c) = String.substring a n c.
Proof. induction p as [|x p IH]; simpl; [reflexivity | exact IH]. Qed.

(** Offsets into a text that starts with [p] are offsets into the rest,
    moved by the length of [p]. *)
Lemma js_substring_shift (p c : string) (a b : Z) :
  JsString.len p <= a -> JsString.len p <= b ->
  JsString.substring (p +:+ c) a b
  = JsString.substring c (a - JsString.len p) (b - JsString.len p).
Proof.
  intros Ha Hb. unfold JsString.substring, JsString.clamp.
  rewrite len_append. unfold JsString.len in *.
  set (lp := String.length p) in *. set (lc := String.length c) in *.
  replace (Z.to_nat (Z.max 0 (Z.min a (Z.of_nat lp + Z.of_nat lc))))
    with (lp + Z.to_nat (Z.max 0 (Z.min (a - Z.of_nat lp) (Z.of_nat lc))))%nat by lia.
  replace (Z.to_nat (Z.max 0 (Z.min b (Z.of_nat lp + Z.of_nat lc))))
    with (lp + Z.to_nat (Z.max 0 (Z.min (b - Z.of_nat lp) (Z.of_nat lc))))%nat by lia.
  set (a' := Z.to_nat (Z.max 0 (Z.min (a - Z.of_nat lp) (Z.of_nat lc)))).
  set (b' := Z.to_nat (Z.max 0 (Z.min (b - Z.of_nat lp) (Z.of_nat lc)))).
  replace (Nat.min (lp + a') (lp + b')) with (lp + Nat.min a' b')%nat by lia.
  replace (Nat.max (lp + a') (lp + b') - (lp + Nat.min a' b'))%nat
    with (Nat.max a' b' - Nat.min a' b')%nat by lia.
  apply substring_shift.
Qed.

Section RangeYaml.

Variable yaml_parse : string -> result (option FrontmatterConfig).

(** The frontmatter step cuts the document in two. *)
Lemma extractFrontmatterBlock_split (docText : string) (fm : FrontmatterConfig)
  (fmEnd : Z) (content : string) :
  extractFrontmatterBlock yaml_parse docText = Ok (fm, fmEnd, content) ->
  exists p, docText = p +:+ content /\ JsString.len p = fmEnd.
Proof.
  unfold extractFrontmatterBlock.
  destruct (FRONTMATTER_RE docText) as [[m0 y]|] eqn:Hre.
  - destruct (yaml_parse y) as [v|e]; [|discriminate]. intros [= <- <- <-].
    assert (Hm0 : exists rest, m0 = Regex.matchedText docText rest).
    { unfold FRONTMATTER_RE in Hre.
      destruct (Regex.lit "---" docText) as [r1|]; [|discriminate].
      cbn [mbind option_bind] in Hre.
      destruct (Regex.lit _ (optChar JsString.CR r1)) as [r2|]; [|discriminate].
      cbn [mbind option_bind] in Hre.
      destruct (lazyBody r2) as [[yt rest]|]; [|discriminate].
      cbn [mbind option_bind] in Hre. injection Hre as <- <-. eauto. }
    destruct Hm0 as (rest & ->).
    pose proof (len_matchedText docText rest) as Hlen.
    exists (Regex.matchedText docText rest). split; [|reflexivity].
    rewrite (substringFrom_split docText (JsString.len (Regex.matchedText docText rest)))
      at 1 by lia.
    f_equal. unfold Regex.matchedText at 2, JsString.len.
    rewrite Nat2Z.id. unfold Regex.matchedText.
    rewrite length_substring_le by lia. reflexivity.
  - intros [= <- <- <-]. exists EmptyString. split; reflexivity.
Qed.

Lemma rangesInOrder_lower (lo hi : Z) (markers : list MarkerRange) :
  rangesInOrder lo markers hi ->
  Forall (fun m => lo <= startMarkerEnd m /\ lo <= endMarkerBegin m) markers.
Proof.
  revert lo. induction markers as [|m r IH]; intros lo; simpl; [constructor|].
  intros (H1 & H2 & H3). constructor; [lia|].
  eapply Forall_impl; [apply (IH _ H3)|]. intros x [Hx1 Hx2]. cbv beta. lia.
Qed.

(** What a successful parse is made of. *)
Lemma parseSegments_inv (docText : string) (parsed : ParsedDoc) :
  parseSegments yaml_parse docText = Ok parsed ->
  exists p markers,
    docText = p +:+ contentWithoutFrontmatter parsed
    /\ JsString.len p = frontmatterEndByte parsed
    /\ extractFrontmatterBlock yaml_parse docText
       = Ok (frontmatter parsed, frontmatterEndByte parsed, contentWithoutFrontmatter parsed)
    /\ parseMarkers (contentWithoutFrontmatter parsed) (frontmatterEndByte parsed) = Ok markers
    /\ segments parsed
       = List.map (instanceOf docText
                     (buildSpecMap (default [] (specsOf (frontmatter parsed))))) markers.
Proof.
  unfold parseSegments.
  destruct (extractFrontmatterBlock yaml_parse docText) as [[[fm fmEnd] content]|] eqn:Hfm;
    [|discriminate].
  simpl bind. destruct (parseMarkers content fmEnd) as [markers|] eqn:Hm; [|discriminate].
  simpl bind. intros [= <-]. simpl.
  destruct (extractFrontmatterBlock_split _ _ _ _ Hfm) as (p & Hdoc & Hp).
  exists p, markers. auto.
Qed.

(** X29. The layout of a parsed document: the document is its frontmatter
    block, of [frontmatterEndByte] characters, followed by the content;
    the bodies of the segments lie after the block and inside the
    document, one after the other in the order of the list; and each body
    is the trimmed text that the content has between the two offsets once
    the length of the block is taken off them. *)
Theorem parseSegments_layout (docText : string) (parsed : ParsedDoc) :
  parseSegments yaml_parse docText = Ok parsed ->
  0 <= frontmatterEndByte parsed
  /\ docText
     = JsString.substring docText 0 (frontmatterEndByte parsed)
       +:+ contentWithoutFrontmatter parsed
  /\ bodiesInOrder (frontmatterEndByte parsed) (segments parsed) (JsString.len docText)
  /\ Forall (fun seg =>
               body seg
               = JsString.trim
                   (JsString.substring (contentWithoutFrontmatter parsed)
                      (startByte seg - frontmatterEndByte parsed)
                      (endByte seg - frontmatterEndByte parsed)))
            (segments parsed).
Proof.
  intros H. destruct (parseSegments_inv _ _ H) as (p & markers & Hdoc & Hp & _ & Hm & ->).
  split; [rewrite <- Hp; apply len_nonneg|]. split; [|split].
  - rewrite <- Hp. rewrite Hdoc at 2. rewrite js_substring_prefix. exact Hdoc.
  - apply bodiesInOrder_map.
    replace (JsString.len docText)
      with (frontmatterEndByte parsed + JsString.len (contentWithoutFrontmatter parsed))
      by (rewrite Hdoc, len_append; lia).
    now apply parseMarkers_in_order.
  - apply Forall_map. apply parseMarkers_in_order, rangesInOrder_lower in Hm.
    eapply Forall_impl; [exact Hm|]. intros m [H1 H2]. simpl.
    rewrite Hdoc at 1. rewrite <- Hp in *. now rewrite js_substring_shift by lia.
Qed.

End RangeYaml.

End RangeFacts.

(** ** Validated documents: the two selections *)

Section PartitionFacts.

Import Segments SegmentUtils.




Section PartitionYaml.

Variable yaml_parse : string -> result (option FrontmatterConfig).


End PartitionYaml.

End PartitionFacts.

Section LayoutExamples.

Import Segments SegmentUtils Samples MoreSamples.

Lemma parseSegments_layout_witness :
  exists parsed,
    parseSegments sampleYaml sampleDoc = Ok parsed
    /\ List.map startByte (segments parsed) = [77; 168]
    /\ 0 <= frontmatterEndByte parsed
    /\ sampleDoc
       = JsString.substring sampleDoc 0 (frontmatterEndByte parsed)
         +:+ contentWithoutFrontmatter parsed
    /\ bodiesInOrder (frontmatterEndByte parsed) (segments parsed) (JsString.len sampleDoc)
    /\ Forall (fun seg =>
                 body seg
                 = JsString.trim
                     (JsString.substring (contentWithoutFrontmatter parsed)
                        (startByte seg - frontmatterEndByte parsed)
                        (endByte seg - frontmatterEndByte parsed)))
              (segments parsed).
Proof.
  eexists. split; [vm_compute; reflexivity|]. split; [reflexivity|].
  apply (parseSegments_layout sampleYaml sampleDoc). vm_compute. reflexivity.
Defined.


End LayoutExamples.

(** ** The navigation tree: flattening, search and breadcrumbs *)

Section NavigationInduction.

Import Navigation.

(** Induction on an item with the hypothesis for all its children. *)
Lemma NavigationItem_forest_ind (P : NavigationItem -> Prop) :
  (forall i t l cs n m,
     match cs with Some cl => Forall P cl | None => True end ->
     P (Item i t l cs n m)) ->
  forall x, P x.
Proof.
  intros H. fix IH 1. intros [i t l cs n m]. apply H.
  destruct cs as [cl|]; [|exact I].
  induction cl as [|c cl IHcl]; constructor; [apply IH | exact IHcl].
Qed.

End NavigationInduction.

Section FlattenFacts.

Import Navigation NavigationBuilder.

Lemma Chain_nonempty (items : list NavigationItem) : ~ Chain items [].
Proof. intros H. inversion H. Qed.

Lemma hasChildren_count (x : NavigationItem) :
  (0 <? childCount x) = match children x with Some (_ :: _) => true | _ => false end.
Proof.
  unfold childCount. destruct (children x) as [[|c cs]|]; reflexivity.
Qed.

Lemma flatBelow_cons (level0 : Z) (path0 : list string) (parent0 : option string)
  (x : NavigationItem) (anc : list NavigationItem) (y : NavigationItem) :
  flatBelow level0 path0 parent0 (x :: anc) y
  = flatBelow (level0 + 1) (path0 ++ [id x]) (Some (id x)) anc y.
Proof.
  unfold flatBelow. f_equal.
  - simpl length. lia.
  - simpl. now rewrite <- app_assoc.
  - destruct anc as [|a anc]; [reflexivity|].
    change (last (x :: a :: anc)) with (last (a :: anc)).
    destruct (last (a :: anc)) eqn:E; [reflexivity|].
    apply last_None in E. discriminate.
Qed.

Lemma traverse_forest (items : list NavigationItem) :
  Forall traverseItem_spec items ->
  forall level0 path0 parent0 f,
    In f (traverse level0 path0 parent0 items)
    <-> exists anc y, Chain items (anc ++ [y]) /\ f = flatBelow level0 path0 parent0 anc y.
Proof.
  intros HP level0 path0 parent0 f. unfold traverse. rewrite in_flat_map. split.
  - intros (x & Hx & Hf). rewrite Forall_forall in HP.
    apply (HP x (proj2 (list_elem_of_In _ _) Hx)) in Hf
      as [-> | (cs & anc & y & Hcs & Hch & ->)].
    + exists [], x. split; [now apply chain_last | reflexivity].
    + exists (x :: anc), y. split; [|reflexivity].
      simpl. eapply chain_step; eassumption.
  - intros (anc & y & Hch & ->).
    inversion Hch as [its x Hin Heq1 Heq2 | its cs x rest Hin Hcs Hrest Heq1 Heq2]; subst.
    + destruct anc as [|a anc]; [|destruct anc; discriminate].
      simpl in Heq2. injection Heq2 as ?; subst. exists y. split; [assumption|].
      rewrite Forall_forall in HP.
      apply (HP y (proj2 (list_elem_of_In _ _) Hin)). now left.
    + destruct anc as [|a anc].
      * simpl in Heq2. injection Heq2 as ? ?; subst. now apply Chain_nonempty in Hrest.
      * simpl in Heq2. injection Heq2 as ? ?; subst. exists a. split; [assumption|].
        rewrite Forall_forall in HP.
        apply (HP a (proj2 (list_elem_of_In _ _) Hin)). right.
        exists cs, anc, y. auto.
Qed.

Lemma traverseItem_ok (x : NavigationItem) : traverseItem_spec x.
Proof.
  induction x as [i t l cs n m IH] using NavigationItem_forest_ind.
  intros level0 path0 parent0 f. cbn [traverseItem].
  assert (Hflat : {| flat_item := Item i t l cs n m; level := level0;
                     path := path0 ++ [i]; parentId := parent0;
                     hasChildren := 0 <? childCount (Item i t l cs n m) |}
                  = flatBelow level0 path0 parent0 [] (Item i t l cs n m)).
  { unfold flatBelow. rewrite hasChildren_count. simpl. f_equal. lia. }
  rewrite Hflat. simpl In. destruct cs as [cl|].
  - fold (traverse (level0 + 1) (path0 ++ [i]) (Some i) cl).
    rewrite (traverse_forest cl IH). split.
    + intros [<- | (anc & y & Hch & ->)]; [now left|].
      right. exists cl, anc, y. split; [reflexivity|]. split; [assumption|].
      now rewrite flatBelow_cons.
    + intros [-> | (cs & anc & y & Hcs & Hch & ->)]; [now left|].
      right. simpl in Hcs. injection Hcs as <-. exists anc, y. split; [assumption|].
      now rewrite flatBelow_cons.
  - split.
    + intros [<- | []]. now left.
    + intros [-> | (cs & anc & y & Hcs & _)]; [now left | discriminate].
Qed.

Lemma in_traverse (items : list NavigationItem) (level0 : Z) (path0 : list string)
  (parent0 : option string) (f : FlatNavigationItem) :
  In f (traverse level0 path0 parent0 items)
  <-> exists anc y, Chain items (anc ++ [y]) /\ f = flatBelow level0 path0 parent0 anc y.
Proof.
  apply traverse_forest. apply Forall_forall. intros x _. apply traverseItem_ok.
Qed.

(** X13. The flattened tree lists exactly the items that a chain of
    children reaches from the top of the tree, each with the number of
    its ancestors as level, their ids and its own as path, the id of the
    last of them as parent, and the flag that tells whether it has a
    child. *)
Theorem flattenTree_paths (tree : NavigationTree) (f : FlatNavigationItem) :
  In f (flattenTree tree)
  <-> exists ancestors x,
        Chain (items tree) (ancestors ++ [x]) /\ f = flatOf ancestors x.
Proof. apply in_traverse. Qed.

End FlattenFacts.

Section FindFacts.

Import Navigation NavigationBuilder.

Lemma find_first_app {A} (p : A -> bool) (a b : list A) :
  List.find p (a ++ b)
  = match List.find p a with Some x => Some x | None => List.find p b end.
Proof.
  induction a as [|x a IH]; simpl; [reflexivity|]. destruct (p x); [reflexivity | exact IH].
Qed.

Lemma search_forest (i : string) (items : list NavigationItem) :
  Forall (searchItem_spec i) items ->
  forall level0 path0 parent0,
    search i items
    = option_map flat_item (List.find (hasId i) (traverse level0 path0 parent0 items)).
Proof.
  intros HP level0 path0 parent0.
  induction HP as [|x items Hx _ IH]; [reflexivity|].
  unfold traverse in *. cbn [search List.flat_map]. rewrite find_first_app.
  rewrite (Hx level0 path0 parent0).
  destruct (List.find (hasId i) (traverseItem level0 path0 parent0 x)); [reflexivity|].
  exact IH.
Qed.

Lemma searchItem_search (i : string) (x : NavigationItem) :
  searchItem i x
  = if String.eqb (id x) i then Some x
    else match children x with Some cl => search i cl | None => None end.
Proof.
  destruct x as [y t l cs n m]. cbn [searchItem id children].
  destruct (String.eqb y i); [reflexivity|]. destruct cs as [cl|]; [|reflexivity].
  induction cl as [|c cl IH]; [reflexivity|].
  cbn [search]. destruct (searchItem i c); [reflexivity | exact IH].
Qed.

Lemma searchItem_ok (i : string) (x : NavigationItem) : searchItem_spec i x.
Proof.
  induction x as [y t l cs n m IH] using NavigationItem_forest_ind.
  intros level0 path0 parent0. rewrite searchItem_search.
  cbn [traverseItem List.find id children]. unfold hasId at 1. cbn [flat_item id].
  destruct (String.eqb y i); [reflexivity|].
  destruct cs as [cl|]; [|reflexivity].
  apply (search_forest i cl IH).
Qed.

(** X14. The search agrees with the flattening: [findItem] returns the
    item of the first entry of the flattened tree that has the id, and
    null when no entry has it. *)
Theorem findItem_flattenTree (tree : NavigationTree) (i : string) :
  findItem tree i = option_map flat_item (List.find (hasId i) (flattenTree tree)).
Proof.
  apply search_forest. apply Forall_forall. intros x _. apply searchItem_ok.
Qed.

End FindFacts.

Section BreadcrumbFacts.

Import Navigation NavigationBuilder.

Lemma Chain_prefix (items : list NavigationItem) (l1 : list NavigationItem)
  (a : NavigationItem) (l2 : list NavigationItem) :
  Chain items (l1 ++ a :: l2) -> Chain items (l1 ++ [a]).
Proof.
  revert items. induction l1 as [|x l1 IH]; intros items H; simpl in *.
  - inversion H; subst; now apply chain_last.
  - inversion H as [? ? Hin | ? cs ? rest Hin Hcs Hrest]; subst.
    + destruct l1; discriminate.
    + eapply chain_step; [eassumption | eassumption | now apply IH].
Qed.

Lemma find_hasId (i : string) (flat : list FlatNavigationItem) (g : FlatNavigationItem) :
  List.find (hasId i) flat = Some g -> id (flat_item g) = i.
Proof.
  intros H. apply List.find_some in H as [_ H]. now apply String.eqb_eq in H.
Qed.

Lemma find_hasId_some (i : string) (flat : list FlatNavigationItem)
  (g : FlatNavigationItem) :
  In g flat -> id (flat_item g) = i -> exists h, List.find (hasId i) flat = Some h.
Proof.
  intros Hin Hid. destruct (List.find (hasId i) flat) as [h|] eqn:E; [eauto|].
  exfalso. pose proof (List.find_none _ _ E g Hin) as Hn.
  unfold hasId in Hn. rewrite Hid, String.eqb_refl in Hn. discriminate.
Qed.

Lemma omap_ids {A} (F : string -> option A) (h : A -> string) (l : list string) :
  (forall j, In j l -> exists g, F j = Some g /\ h g = j) ->
  List.map h (omap F l) = l.
Proof.
  induction l as [|j l IH]; intros H; [reflexivity|].
  destruct (H j (or_introl eq_refl)) as (g & Hg & Hj).
  cbn [omap list_omap]. rewrite Hg. cbn [List.map]. rewrite Hj. f_equal.
  apply IH. intros j' Hj'. apply H. now right.
Qed.

(** X15. The breadcrumbs of an id spell the path of the first entry of
    the flattened tree with that id: their ids, in order, are that path,
    also when ids repeat in the tree; an id that is not in the tree has
    no breadcrumbs. *)
Theorem getBreadcrumbs_path (tree : NavigationTree) (itemId : string) :
  List.map (fun g => id (flat_item g)) (getBreadcrumbs tree itemId)
  = match List.find (hasId itemId) (flattenTree tree) with
    | Some item => path item
    | None => []
    end.
Proof.
  unfold getBreadcrumbs.
  destruct (List.find (hasId itemId) (flattenTree tree)) as [item|] eqn:E; [|reflexivity].
  apply omap_ids. intros j Hj.
  apply List.find_some in E as [Hin _].
  apply in_traverse in Hin as (anc & x & Hch & ->).
  cbn [path flatBelow app] in Hj. apply in_map_iff in Hj as (a & <- & Ha).
  apply in_split in Ha as (l1 & l2 & Hsplit).
  assert (Hpre : Chain (items tree) (l1 ++ [a])).
  { apply (Chain_prefix _ l1 a l2). now rewrite <- Hsplit. }
  assert (Hflat : In (flatOf l1 a) (flattenTree tree)).
  { apply in_traverse. eauto. }
  destruct (find_hasId_some (id a) _ _ Hflat eq_refl) as (h & Hh).
  exists h. split; [assumption|]. eapply find_hasId. eassumption.
Qed.

End BreadcrumbFacts.

(** ** The navigation tree: filtering and normalising *)

Section FilterFacts.

Import Navigation NavigationBuilder.

Variable treeVersions : option (list string).
Variable version : string.

Lemma keeps_pruneItem (x : NavigationItem) :
  keeps treeVersions version (pruneItem treeVersions version x)
  = keeps treeVersions version x.
Proof. destruct x. reflexivity. Qed.

Lemma pruneItem_filterItems (x : NavigationItem) :
  pruneItem treeVersions version x
  = match x with
    | Item i t l cs n m =>
        Item i t l (option_map (filterItems treeVersions version) cs) n m
    end.
Proof.
  destruct x as [i t l cs n m]. cbn [pruneItem]. f_equal.
  destruct cs as [cl|]; [|reflexivity]. cbn [option_map]. f_equal.
  unfold filterItems. induction cl as [|c cl IH]; [reflexivity|].
  cbn [List.filter]. destruct (keeps treeVersions version c); cbn [List.map]; now rewrite IH.
Qed.

Lemma filterItems_cons (x : NavigationItem) (items : list NavigationItem) :
  filterItems treeVersions version (x :: items)
  = if keeps treeVersions version x
    then pruneItem treeVersions version x :: filterItems treeVersions version items
    else filterItems treeVersions version items.
Proof. unfold filterItems. cbn [List.filter]. now destruct (keeps treeVersions version x). Qed.

Lemma filterItems_idempotent_forest (items : list NavigationItem) :
  Forall (fun x => pruneItem treeVersions version (pruneItem treeVersions version x)
                   = pruneItem treeVersions version x) items ->
  filterItems treeVersions version (filterItems treeVersions version items)
  = filterItems treeVersions version items.
Proof.
  induction 1 as [|x items Hx _ IH]; [reflexivity|].
  rewrite filterItems_cons. destruct (keeps treeVersions version x) eqn:Hk; [|exact IH].
  rewrite filterItems_cons, keeps_pruneItem, Hk, Hx, IH. reflexivity.
Qed.

Lemma pruneItem_idempotent (x : NavigationItem) :
  pruneItem treeVersions version (pruneItem treeVersions version x)
  = pruneItem treeVersions version x.
Proof.
  induction x as [i t l cs n m IH] using NavigationItem_forest_ind.
  rewrite (pruneItem_filterItems (Item i t l cs n m)).
  rewrite pruneItem_filterItems. f_equal.
  destruct cs as [cl|]; [|reflexivity]. cbn [option_map]. f_equal.
  now apply filterItems_idempotent_forest.
Qed.

Lemma filterItems_idempotent (items : list NavigationItem) :
  filterItems treeVersions version (filterItems treeVersions version items)
  = filterItems treeVersions version items.
Proof.
  apply filterItems_idempotent_forest. apply Forall_forall. intros x _.
  apply pruneItem_idempotent.
Qed.

End FilterFacts.

Section FilterTheorems.

Import Navigation NavigationBuilder.

(** X16. Filtering a tree by a version a second time changes nothing. *)
Theorem filterByVersion_idempotent (tree : NavigationTree) (version : string) :
  filterByVersion (filterByVersion tree version) version = filterByVersion tree version.
Proof.
  destruct tree as [ti lb its [vs|] df]; unfold filterByVersion, withItems;
    cbn [versions items tree_id label default_].
  - destruct (includes vs version) eqn:Hi; cbn [negb versions items tree_id label default_];
      rewrite ?Hi; cbn [negb]; [|reflexivity].
    now rewrite filterItems_idempotent.
  - now rewrite filterItems_idempotent.
Qed.

Lemma normalizeItem_map (x : NavigationItem) :
  normalizeItem x
  = match x with
    | Item i t l cs n m =>
        Item i t l (option_map (List.map normalizeItem) cs) (Some (default false n)) m
    end.
Proof. destruct x. reflexivity. Qed.

Lemma normalizeItem_idempotent (x : NavigationItem) :
  normalizeItem (normalizeItem x) = normalizeItem x.
Proof.
  induction x as [i t l cs n m IH] using NavigationItem_forest_ind.
  cbn [normalizeItem]. f_equal.
  destruct cs as [cl|]; [|reflexivity]. cbn [option_map]. f_equal.
  rewrite List.map_map. apply List.map_ext_Forall. exact IH.
Qed.

Lemma keeps_normalizeItem (tv : option (list string)) (version : string)
  (x : NavigationItem) :
  keeps tv version (normalizeItem x) = keeps tv version x.
Proof. destruct x. reflexivity. Qed.

Lemma filterItems_normalize_forest (tv : option (list string)) (version : string)
  (items : list NavigationItem) :
  Forall (fun x => pruneItem tv version (normalizeItem x)
                   = normalizeItem (pruneItem tv version x)) items ->
  filterItems tv version (List.map normalizeItem items)
  = List.map normalizeItem (filterItems tv version items).
Proof.
  induction 1 as [|x items Hx _ IH]; [reflexivity|].
  cbn [List.map]. rewrite !filterItems_cons, keeps_normalizeItem.
  destruct (keeps tv version x); [|exact IH].
  cbn [List.map]. now rewrite Hx, IH.
Qed.

Lemma pruneItem_normalizeItem (tv : option (list string)) (version : string)
  (x : NavigationItem) :
  pruneItem tv version (normalizeItem x) = normalizeItem (pruneItem tv version x).
Proof.
  induction x as [i t l cs n m IH] using NavigationItem_forest_ind.
  rewrite (pruneItem_filterItems tv version (Item i t l cs n m)).
  cbn [normalizeItem]. rewrite pruneItem_filterItems. f_equal.
  destruct cs as [cl|]; [|reflexivity]. cbn [option_map]. f_equal.
  now apply filterItems_normalize_forest.
Qed.

(** X17. Building a tree a second time changes nothing, and building
    commutes with filtering: the filtered built tree is the built
    filtered tree. *)
Theorem buildTree_filterByVersion (tree : NavigationTree) :
  buildTree (buildTree tree) = buildTree tree
  /\ forall version,
       filterByVersion (buildTree tree) version = buildTree (filterByVersion tree version).
Proof.
  split.
  - unfold buildTree, withItems. cbn. f_equal.
    rewrite List.map_map. apply List.map_ext. intros x. apply normalizeItem_idempotent.
  - intros version.
    assert (H : filterItems (versions tree) version (List.map normalizeItem (items tree))
                = List.map normalizeItem (filterItems (versions tree) version (items tree))).
    { apply filterItems_normalize_forest. apply Forall_forall. intros x _.
      apply pruneItem_normalizeItem. }
    destruct tree as [ti lb its [vs|] df]; unfold filterByVersion, buildTree, withItems;
      cbn [versions items tree_id label default_] in *.
    + destruct (includes vs version); cbn [negb versions items tree_id label default_];
        [now rewrite H | reflexivity].
    + now rewrite H.
Qed.

End FilterTheorems.

(** ** The link registry *)

Section JsMapFacts.

Context {V : Type}.

Lemma get_set (k j : string) (v : V) (m : JsMap.t V) :
  JsMap.get j (JsMap.set k v m)
  = if String.eqb k j then Some v else JsMap.get j m.
Proof.
  unfold JsMap.get. induction m as [|[k' v'] m IH]; simpl.
  - destruct (String.eqb k j); reflexivity.
  - destruct (String.eqb k' k) eqn:Hk; simpl.
    + apply String.eqb_eq in Hk. subst k'. destruct (String.eqb k j); reflexivity.
    + destruct (String.eqb k' j) eqn:Hj; simpl.
      * apply String.eqb_eq in Hj. subst k'.
        rewrite String.eqb_sym in Hk. now rewrite Hk.
      * exact IH.
Qed.

Lemma has_get (k : string) (m : JsMap.t V) :
  JsMap.has k m = match JsMap.get k m with Some _ => true | None => false end.
Proof.
  unfold JsMap.has, JsMap.get. induction m as [|[k' v'] m IH]; simpl; [reflexivity|].
  destruct (String.eqb k' k); simpl; [reflexivity | exact IH].
Qed.

Lemma keys_set (k : string) (v : V) (m : JsMap.t V) :
  List.map fst (JsMap.set k v m)
  = if JsMap.has k m then List.map fst m else List.map fst m ++ [k].
Proof.
  unfold JsMap.has. induction m as [|[k' v'] m IH]; simpl; [reflexivity|].
  destruct (String.eqb k' k) eqn:Hk; simpl.
  - apply String.eqb_eq in Hk. now subst.
  - rewrite IH. now destruct (existsb _ m).
Qed.

Lemma has_keys (k : string) (m : JsMap.t V) :
  JsMap.has k m = true <-> In k (List.map fst m).
Proof.
  unfold JsMap.has. rewrite existsb_exists, in_map_iff. split.
  - intros (e & He & Hk). apply String.eqb_eq in Hk. eauto.
  - intros (e & Hk & He). exists e. split; [assumption|]. now apply String.eqb_eq.
Qed.

Lemma get_first (k : string) (v : V) (m : JsMap.t V) :
  NoDup (List.map fst m) -> In (k, v) m -> JsMap.get k m = Some v.
Proof.
  unfold JsMap.get. induction m as [|[k' v'] m IH]; simpl; intros Hnd Hin; [contradiction|].
  apply NoDup_cons in Hnd as [Hfresh Hnd].
  destruct Hin as [[= -> ->] | Hin].
  - now rewrite String.eqb_refl.
  - destruct (String.eqb k' k) eqn:Hk.
    + apply String.eqb_eq in Hk. subst k'. exfalso. apply Hfresh.
      apply list_elem_of_fmap. exists (k, v). split; [reflexivity|]. now apply list_elem_of_In.
    + now apply IH.
Qed.

End JsMapFacts.

Section StrongLinksFacts.

Import StrongLinks MoreSamples.

(** What [register] keeps: distinct keys, each the id of its target. *)
Lemma reachable_keys (r : Registry) :
  reachable r ->
  NoDup (List.map fst r) /\ Forall (fun e => id (snd e) = fst e) r.
Proof.
  induction 1 as [|r i target _ [Hnd Hid]].
  - split; constructor.
  - unfold register. split.
    + rewrite keys_set. destruct (JsMap.has i r) eqn:Hh; [assumption|].
      apply NoDup_app. split; [assumption|]. split; [|apply NoDup_singleton].
      intros x Hx Hxi. apply list_elem_of_singleton in Hxi. subst x.
      apply list_elem_of_In, has_keys in Hx. congruence.
    + clear Hnd. induction r as [|[k v] r IH]; simpl.
      * repeat constructor.
      * apply Forall_cons in Hid as [Hk Hr].
        destruct (String.eqb k i); constructor; auto.
Qed.

(** X18. In a registry made by registering, whatever the ids and the
    order, the links listed by [all] have distinct ids, and each of them
    is what its own id resolves to; [has] answers true on it. *)
Theorem reachable_all_resolve (r : Registry) :
  reachable r ->
  NoDup (List.map id (all r))
  /\ forall link, In link (all r) ->
       resolve r (id link) = Some link /\ has r (id link) = true.
Proof.
  intros H. destruct (reachable_keys r H) as [Hnd Hid].
  assert (Hids : List.map id (all r) = List.map fst r).
  { unfold all, JsMap.values. rewrite List.map_map. apply List.map_ext_Forall.
    eapply Forall_impl; [exact Hid|]. now intros e He. }
  split; [now rewrite Hids|].
  intros link Hin. unfold all, JsMap.values in Hin.
  apply in_map_iff in Hin as ([k v] & <- & Hin). simpl.
  rewrite Forall_forall in Hid.
  pose proof (Hid (k, v) (proj2 (list_elem_of_In _ _) Hin)) as Hk. simpl in Hk. rewrite Hk.
  assert (Hget : resolve r k = Some v) by (now apply get_first).
  split; [assumption|]. unfold has. rewrite has_get.
  unfold resolve in Hget. now rewrite Hget.
Qed.

Lemma loadFromConfig_reachable (r : Registry) (config : list (string * LinkTarget)) :
  reachable r -> reachable (loadFromConfig r config).
Proof.
  unfold loadFromConfig. revert r.
  induction config as [|[i target] config IH]; intros r Hr; simpl; [assumption|].
  apply IH. now constructor.
Qed.

Lemma createRegistry_reachable (config : option (list (string * LinkTarget))) :
  reachable (createRegistry config).
Proof.
  destruct config as [c|]; [|constructor].
  apply loadFromConfig_reachable. constructor.
Qed.

Lemma set_fresh {V} (k : string) (v : V) (m : JsMap.t V) :
  ~ In k (List.map fst m) -> JsMap.set k v m = m ++ [(k, v)].
Proof.
  induction m as [|[k' v'] m IH]; simpl; intros H; [reflexivity|].
  destruct (String.eqb k' k) eqn:Hk.
  - apply String.eqb_eq in Hk. tauto.
  - f_equal. apply IH. tauto.
Qed.

Lemma loadFromConfig_fresh (r : Registry) (config : list (string * LinkTarget)) :
  NoDup (List.map fst r ++ List.map fst config) ->
  loadFromConfig r config
  = r ++ List.map (fun e => (fst e, withId (snd e) (fst e))) config.
Proof.
  unfold loadFromConfig. revert r.
  induction config as [|[i target] config IH]; intros r Hnd; simpl.
  - now rewrite app_nil_r.
  - unfold register at 2. rewrite set_fresh.
    + rewrite IH.
      * now rewrite <- app_assoc.
      * rewrite List.map_app. simpl. rewrite <- app_assoc. exact Hnd.
    + apply NoDup_app in Hnd as (_ & Hdis & _). intros Hin.
      apply (Hdis i); [now apply list_elem_of_In | simpl; left].
Qed.

(** X19. A registry created from a configuration, whose keys are
    distinct, lists the targets of the configuration in its order, each
    with its key as id, and resolves every key to its target. *)
Theorem createRegistry_config (config : list (string * LinkTarget)) :
  NoDup (List.map fst config) ->
  all (createRegistry (Some config))
  = List.map (fun e => withId (snd e) (fst e)) config
  /\ forall i target, In (i, target) config ->
       resolve (createRegistry (Some config)) i = Some (withId target i).
Proof.
  intros Hnd. unfold createRegistry.
  rewrite loadFromConfig_fresh by exact Hnd. unfold newRegistry. cbn [app].
  split.
  - unfold all, JsMap.values. rewrite List.map_map. reflexivity.
  - intros i target Hin. apply get_first.
    + rewrite List.map_map. exact Hnd.
    + apply in_map_iff. exists (i, target). split; [reflexivity | assumption].
Qed.

Lemma reachable_all_resolve_witness :
  NoDup (List.map id (all (createRegistry (Some linkConfig))))
  /\ forall l, In l (all (createRegistry (Some linkConfig))) ->
       resolve (createRegistry (Some linkConfig)) (id l) = Some l
       /\ has (createRegistry (Some linkConfig)) (id l) = true.
Proof.
  apply (reachable_all_resolve (createRegistry (Some linkConfig))).
  apply (reachable_register
           (register newRegistry "install" (withId installLink "install"))
           "home" (withId homeLink "home")).
  apply (reachable_register newRegistry "install" (withId installLink "install")).
  apply reachable_new.
Defined.

Lemma createRegistry_config_witness :
  all (createRegistry (Some linkConfig))
  = List.map (fun e => withId (snd e) (fst e)) linkConfig
  /\ forall i target, In (i, target) linkConfig ->
       resolve (createRegistry (Some linkConfig)) i = Some (withId target i).
Proof.
  apply (createRegistry_config linkConfig).
  apply (bool_decide_unpack _). vm_compute. exact I.
Defined.

End StrongLinksFacts.

(** ** The frontmatter of a page *)

Section JoinFacts.

(** Splitting a text and joining the parts gives the text back. *)
Lemma join_split (sep : ascii) (s : string) :
  JsString.join (String sep EmptyString) (JsString.split sep s) = s.
Proof.
  induction s as [|c r IH]; [reflexivity|]. simpl.
  pose proof (split_nonempty sep r) as Hne.
  destruct (Ascii.eqb c sep) eqn:Hc.
  - apply Ascii.eqb_eq in Hc. subst c.
    destruct (JsString.split sep r) as [|h t] eqn:E; [congruence|].
    change (JsString.join (String sep EmptyString) (EmptyString :: h :: t))
      with (String sep (JsString.join (String sep EmptyString) (h :: t))).
    now rewrite IH.
  - destruct (JsString.split sep r) as [|h t] eqn:E; [congruence|].
    rewrite <- IH. destruct t; reflexivity.
Qed.

Lemma slice_middle {A} (a b c : list A) :
  JsArray.slice (a ++ b ++ c) (Z.of_nat (length a)) (Z.of_nat (length a) + Z.of_nat (length b))
  = b.
Proof.
  unfold JsArray.slice, JsArray.relative. rewrite !length_app.
  destruct (Z.of_nat (length a) <? 0) eqn:E1; [apply Z.ltb_lt in E1; lia|].
  destruct (Z.of_nat (length a) + Z.of_nat (length b) <? 0) eqn:E2; [apply Z.ltb_lt in E2; lia|].
  replace (Z.to_nat (Z.min (Z.of_nat (length a)) _)) with (length a) by lia.
  replace (Z.to_nat (_ - _)) with (length b) by lia.
  rewrite drop_app_length. apply take_app_length.
Qed.

Lemma sliceFrom_suffix {A} (a b : list A) (n : Z) :
  n = Z.of_nat (length a) -> JsArray.sliceFrom (a ++ b) n = b.
Proof.
  intros ->. unfold JsArray.sliceFrom.
  pose proof (slice_middle a b []) as H. rewrite app_nil_r in H.
  rewrite length_app. replace (Z.of_nat (length a + length b))
    with (Z.of_nat (length a) + Z.of_nat (length b)) by lia. exact H.
Qed.

End JoinFacts.

Section FrontmatterFacts.

Import Frontmatter.

Variable F : Type.
Variable yaml_load : string -> result F.

Lemma findClosing_spec (lines : list string) (i : Z) :
  (Forall (fun l => l <> fence) lines /\ findClosing lines i = -1)
  \/ exists y rest, lines = y ++ fence :: rest /\ Forall (fun l => l <> fence) y
                    /\ findClosing lines i = i + Z.of_nat (length y).
Proof.
  revert i. induction lines as [|l lines IH]; intros i; simpl.
  - left. split; [constructor | reflexivity].
  - destruct (String.eqb l fence) eqn:Hl.
    + apply String.eqb_eq in Hl. subst l. right. exists [], lines.
      split; [reflexivity|]. split; [constructor | simpl; lia].
    + apply String.eqb_neq in Hl.
      destruct (IH (i + 1)) as [[Hall Hres] | (y & rest & -> & Hall & Hres)].
      * left. split; [now constructor | assumption].
      * right. exists (l :: y), rest. split; [reflexivity|].
        split; [now constructor|]. rewrite Hres. simpl length. lia.
Qed.

(** The shape of a document in which the frontmatter block is found. *)
Lemma parseFrontmatter_lines (y rest : list string) :
  Forall (fun l => l <> fence) y ->
  let lines := [fence] ++ y ++ [fence] ++ rest in
  findClosing (tail lines) 1 = 1 + Z.of_nat (length y)
  /\ JsArray.slice lines 1 (1 + Z.of_nat (length y)) = y
  /\ JsArray.sliceFrom lines (1 + Z.of_nat (length y) + 1) = rest.
Proof.
  intros Hy lines. split; [|split].
  - unfold lines. cbn [tail app].
    destruct (findClosing_spec (y ++ fence :: rest) 1)
      as [[Hall _] | (y' & rest' & Heq & Hall' & ->)].
    + apply Forall_app in Hall as [_ Hall]. apply Forall_cons in Hall as [Hf _]. congruence.
    + f_equal. f_equal. revert y' Heq Hall'. induction Hy as [|l y Hl _ IH]; intros y' Heq Hall'.
      * destruct y' as [|l' y']; [reflexivity|]. simpl in Heq. injection Heq as <- _.
        apply Forall_cons in Hall' as [Hf _]. congruence.
      * destruct y' as [|l' y']; simpl in Heq.
        -- injection Heq as -> _. congruence.
        -- injection Heq as <- Heq. apply Forall_cons in Hall' as [_ Hall'].
           simpl. f_equal. now apply IH.
  - apply (slice_middle [fence] y ([fence] ++ rest)).
  - unfold lines. replace ([fence] ++ y ++ [fence] ++ rest)
      with (([fence] ++ y ++ [fence]) ++ rest) by (now rewrite <- !app_assoc).
    apply sliceFrom_suffix. rewrite !length_app. simpl length. lia.
Qed.

(** X20. Round trip of the frontmatter parser: a page made of a delimiter
    line, lines of YAML, a delimiter line and the lines of the content
    gives the joined lines of YAML to the loader and returns the joined
    lines of the content; it throws exactly when the loader does. No line
    holds a line break and no line of YAML is the delimiter. *)
Theorem parseFrontmatter_round_trip (y rest : list string) :
  Forall (fun l => l <> fence /\ JsString.contains JsString.LF l = false) y ->
  Forall (fun l => JsString.contains JsString.LF l = false) rest ->
  parseFrontmatter F yaml_load
    (JsString.join (String JsString.LF EmptyString) ([fence] ++ y ++ [fence] ++ rest))
  = bind (yaml_load (JsString.join (String JsString.LF EmptyString) y)) (fun fm =>
    Ok {| frontmatter := Some fm;
          content := JsString.join (String JsString.LF EmptyString) rest |}).
Proof.
  intros Hy Hrest. unfold parseFrontmatter.
  rewrite split_join.
  - assert (Hy' : Forall (fun l => l <> fence) y).
    { eapply Forall_impl; [exact Hy|]. now intros l [Hl _]. }
    destruct (parseFrontmatter_lines y rest Hy') as (Hclose & Hyaml & Hcontent).
    cbv zeta in Hclose, Hyaml, Hcontent.
    rewrite Hclose, Hyaml, Hcontent. cbn [app negb]. rewrite String.eqb_refl. cbn [negb].
    replace (1 + Z.of_nat (length y) =? -1) with false by (symmetry; apply Z.eqb_neq; lia).
    reflexivity.
  - discriminate.
  - constructor; [reflexivity|]. apply Forall_app. split.
    + eapply Forall_impl; [exact Hy|]. now intros l [_ Hl].
    + constructor; [reflexivity | assumption].
Qed.

(** X21. What the frontmatter parser returns puts the page together
    again: without frontmatter the content is the whole page; with it,
    the page is a delimiter line, the lines given to the loader, none of
    them the delimiter, a delimiter line, and the content. *)
Theorem parseFrontmatter_reassembles (markdown : string) (r : Parsed F) :
  parseFrontmatter F yaml_load markdown = Ok r ->
  match frontmatter r with
  | None => content r = markdown
  | Some fm =>
      exists y rest,
        markdown = JsString.join (String JsString.LF EmptyString)
                                 ([fence] ++ y ++ [fence] ++ rest)
        /\ Forall (fun l => l <> fence) y
        /\ yaml_load (JsString.join (String JsString.LF EmptyString) y) = Ok fm
        /\ content r = JsString.join (String JsString.LF EmptyString) rest
  end.
Proof.
  unfold parseFrontmatter.
  pose proof (join_split JsString.LF markdown) as Hjoin.
  destruct (JsString.split JsString.LF markdown) as [|l0 tl] eqn:Hsplit.
  - simpl. now intros [= <-].
  - destruct (String.eqb l0 fence) eqn:Hl0; cbn [negb]; [|now intros [= <-]].
    apply String.eqb_eq in Hl0. subst l0. cbn [tail].
    destruct (findClosing_spec tl 1) as [[_ ->] | (y & rest & -> & Hy & Hres)].
    + simpl. now intros [= <-].
    + rewrite Hres.
      replace (1 + Z.of_nat (length y) =? -1) with false by (symmetry; apply Z.eqb_neq; lia).
      destruct (parseFrontmatter_lines y rest Hy) as (_ & Hyaml & Hcontent).
      cbv zeta in Hyaml, Hcontent. cbn [app] in Hyaml, Hcontent.
      rewrite Hyaml, Hcontent.
      destruct (yaml_load _) as [fm|e] eqn:Hload; simpl; [|discriminate].
      intros [= <-]. simpl. exists y, rest. cbn [app]. auto.
Qed.

End FrontmatterFacts.

Section FrontmatterValidation.

Import Frontmatter.

Variable numberToString : number -> string.

Lemma say_nil (b : bool) (msg : string) : say b msg = [] <-> b = false.
Proof. destruct b; simpl; split; congruence. Qed.

Lemma segmentErrors_nil (ids : gset string) (seg : SegmentDefinition) :
  segmentErrors numberToString ids seg = []
  <-> (id seg ∉ ids)
      /\ outside (boost seg) 0%float 10%float = false
      /\ below (returnMax seg) 1%float = false
      /\ below (returnMin seg) 1%float = false
      /\ below (generateMax seg) 1%float = false
      /\ below (generateMin seg) 1%float = false
      /\ outside (generateTemperature seg) 0%float 2%float = false.
Proof.
  unfold segmentErrors.
  rewrite !app_nil, !say_nil, bool_decide_eq_false.
  assert (Hb : boostErrors numberToString seg = []
               <-> outside (boost seg) 0%float 10%float = false).
  { unfold boostErrors, outside. destruct (boost seg); [apply say_nil | tauto]. }
  rewrite Hb. tauto.
Qed.

Lemma validateFrontmatter_fold (segs : list SegmentDefinition) (errors : list string)
  (ids : gset string) :
  fst (fold_left (stepSegment numberToString) segs (errors, ids)) = []
  <-> errors = [] /\ Forall wellFormed segs
      /\ Forall (fun s => id s ∉ ids) segs /\ NoDup (List.map id segs).
Proof.
  revert errors ids. induction segs as [|s segs IH]; intros errors ids.
  - simpl. split; [intros ->; repeat split; constructor | now intros (-> & _)].
  - cbn [fold_left List.map]. unfold stepSegment at 2.
    rewrite NoDup_cons, !Forall_cons.
    destruct (String.eqb (id s) EmptyString) eqn:He.
    + rewrite IH. apply String.eqb_eq in He. split.
      * intros (Herr & _). now destruct errors.
      * intros (_ & [(Hne & _) _] & _). congruence.
    + rewrite IH, app_nil, segmentErrors_nil. apply String.eqb_neq in He.
      unfold wellFormed. split.
      * intros ((-> & Hfresh & Hs) & Hall & Hids & Hnd).
        split; [reflexivity|]. split; [tauto|]. split.
        -- split; [assumption|]. eapply Forall_impl; [exact Hids|].
           intros x Hx Hk. apply Hx. now apply elem_of_union_r.
        -- split; [|assumption]. intros Hin. apply list_elem_of_fmap in Hin as (x & Hx & Hin).
           rewrite Forall_forall in Hids. specialize (Hids x Hin).
           apply Hids. apply elem_of_union_l, elem_of_singleton. congruence.
      * intros (-> & [Hs Hall] & [Hfresh Hids] & [Hnew Hnd]).
        split; [tauto|]. split; [assumption|]. split; [|assumption].
        rewrite Forall_forall in Hids |- *. intros x Hx. specialize (Hids x Hx).
        intros Hin. apply elem_of_union in Hin as [Hin | Hin]; [|auto].
        apply elem_of_singleton in Hin. apply Hnew. rewrite <- Hin.
        apply list_elem_of_fmap. eauto.
Qed.

(** X22. Validation of a frontmatter finds nothing exactly when every
    segment definition has an id and its numbers in range (boost within
    0 and 10, token limits at least 1, temperature within 0 and 2) and no
    two definitions share an id. *)
Theorem validateFrontmatter_accepts (fm : Frontmatter) :
  validateFrontmatter numberToString fm = []
  <-> Forall wellFormed (extractSegmentDefinitions fm)
      /\ NoDup (List.map id (extractSegmentDefinitions fm)).
Proof.
  unfold validateFrontmatter, extractSegmentDefinitions.
  destruct (werkcontext fm) as [w|].
  - rewrite validateFrontmatter_fold. split.
    + tauto.
    + intros [Hall Hnd]. split; [reflexivity|]. split; [assumption|]. split; [|assumption].
      apply Forall_forall. intros x _. apply not_elem_of_empty.
  - split; [intros _; split; constructor | reflexivity].
Qed.

End FrontmatterValidation.

Section FrontmatterExamples.

Import Frontmatter Samples MoreSamples.

Lemma parseFrontmatter_round_trip_witness :
  parseFrontmatter string textLoader
    (JsString.join nl ([fence] ++ ["title: Guide"; "draft: true"] ++ [fence]
                         ++ ["# Guide"; EmptyString]))
  = bind (textLoader (JsString.join nl ["title: Guide"; "draft: true"])) (fun fm =>
    Ok {| frontmatter := Some fm; content := JsString.join nl ["# Guide"; EmptyString] |}).
Proof.
  apply (parseFrontmatter_round_trip string textLoader
           ["title: Guide"; "draft: true"] ["# Guide"; EmptyString]).
  - constructor; [split; [discriminate | reflexivity]|].
    constructor; [split; [discriminate | reflexivity] | constructor].
  - constructor; [reflexivity|]. constructor; [reflexivity | constructor].
Defined.

Lemma parseFrontmatter_reassembles_witness :
  exists y rest,
    JsString.join nl ["---"; "title: Guide"; "---"; "# Guide"]
    = JsString.join nl ([fence] ++ y ++ [fence] ++ rest)
    /\ Forall (fun l => l <> fence) y
    /\ textLoader (JsString.join nl y) = Ok "title: Guide"
    /\ "# Guide" = JsString.join nl rest.
Proof.
  apply (parseFrontmatter_reassembles string textLoader
           (JsString.join nl ["---"; "title: Guide"; "---"; "# Guide"])
           {| frontmatter := Some "title: Guide"; content := "# Guide" |}).
  reflexivity.
Defined.

End FrontmatterExamples.

(** ** Aggregation: the sets of a page and of a project *)

Section SetFacts.

Import Aggregate.

Lemma in_setAdd (x y : string) (set : list string) :
  In y (setAdd x set) <-> y = x \/ In y set.
Proof.
  unfold setAdd. destruct (existsb (String.eqb x) set) eqn:E.
  - split; [tauto|]. intros [-> | H]; [|assumption].
    apply existsb_exists in E as (z & Hz & Hxz). apply String.eqb_eq in Hxz. now subst.
  - rewrite in_app_iff. simpl. intuition congruence.
Qed.

Lemma NoDup_setAdd (x : string) (set : list string) :
  NoDup set -> NoDup (setAdd x set).
Proof.
  intros H. unfold setAdd. destruct (existsb (String.eqb x) set) eqn:E; [assumption|].
  apply NoDup_app. split; [assumption|]. split; [|apply NoDup_singleton].
  intros y Hy Hyx. apply list_elem_of_singleton in Hyx. subst y.
  assert (Ht : existsb (String.eqb x) set = true).
  { apply existsb_exists. exists x. split; [now apply list_elem_of_In | apply String.eqb_refl]. }
  congruence.
Qed.

Lemma in_setAddAll (xs : list string) (y : string) (set : list string) :
  In y (setAddAll xs set) <-> In y xs \/ In y set.
Proof.
  unfold setAddAll. revert set. induction xs as [|x xs IH]; intros set; simpl.
  - tauto.
  - rewrite IH, in_setAdd. intuition congruence.
Qed.

Lemma NoDup_setAddAll (xs set : list string) :
  NoDup set -> NoDup (setAddAll xs set).
Proof.
  unfold setAddAll. revert set. induction xs as [|x xs IH]; intros set H; simpl;
    [assumption|]. apply IH. now apply NoDup_setAdd.
Qed.

Lemma setAddAll_nonempty (xs set : list string) :
  set <> [] -> setAddAll xs set <> [].
Proof.
  unfold setAddAll. revert set. induction xs as [|x xs IH]; intros set H; simpl;
    [assumption|]. apply IH. unfold setAdd.
  destruct (existsb (String.eqb x) set); [assumption|]. destruct set; discriminate.
Qed.

End SetFacts.

Section PageSets.

Import Aggregate.

Variable sha256_hex : string -> string.

(** The two sets of the loop: what they hold after the segments [segs]. *)
Lemma fold_step_sets (segs : list AnnotatedSegment) (a : Accum) :
  (NoDup (acc_concepts a) -> NoDup (acc_concepts (fold_left step segs a)))
  /\ (NoDup (acc_audienceRoles a) -> NoDup (acc_audienceRoles (fold_left step segs a)))
  /\ (forall c, In c (acc_concepts (fold_left step segs a))
                <-> In c (acc_concepts a)
                    \/ exists seg, In seg segs /\ In c (toList (concepts seg)))
  /\ (forall r, In r (acc_audienceRoles (fold_left step segs a))
                <-> In r (acc_audienceRoles a)
                    \/ exists seg, In seg segs /\ In r (toList (audience_role seg))).
Proof.
  revert a. induction segs as [|seg segs IH]; intros a; simpl.
  - repeat split; try tauto; intros [H | (seg & [] & _)]; assumption.
  - destruct (IH (step a seg)) as (H1 & H2 & H3 & H4). clear IH.
    split; [|split; [|split]].
    + intros H. apply H1. simpl. now apply NoDup_setAddAll.
    + intros H. apply H2. simpl. now apply NoDup_setAddAll.
    + intros c. rewrite H3. simpl acc_concepts. rewrite in_setAddAll. split.
      * intros [[H | H] | (s & Hs & Hc)]; eauto.
      * intros [H | (s & [<- | Hs] & Hc)]; eauto.
    + intros r. rewrite H4. simpl acc_audienceRoles. rewrite in_setAddAll. split.
      * intros [[H | H] | (s & Hs & Hc)]; eauto.
      * intros [H | (s & [<- | Hs] & Hc)]; eauto.
Qed.

(** The concepts of a page are those of its segments. *)
Lemma aggregatePageMetadata_concepts (annotations : ExternalAnnotations) (c : string) :
  In c (agg_concepts (aggregatePageMetadata sha256_hex annotations))
  <-> exists seg, In seg (segments annotations) /\ In c (toList (concepts seg)).
Proof.
  unfold aggregatePageMetadata. cbn [agg_concepts].
  destruct (fold_step_sets (segments annotations) (initial annotations))
    as (_ & _ & H3 & _).
  rewrite H3. simpl. tauto.
Qed.

(** X23. The concepts and the audience roles of a page aggregation are
    sets: no value is listed twice, and a value is listed exactly when a
    segment of the page names it, as one non-empty string or in an array. *)
Theorem aggregatePageMetadata_sets (annotations : ExternalAnnotations) :
  let page := aggregatePageMetadata sha256_hex annotations in
  NoDup (agg_concepts page) /\ NoDup (agg_audience_role page)
  /\ (forall c, In c (agg_concepts page)
                <-> exists seg, In seg (segments annotations)
                                /\ In c (toList (concepts seg)))
  /\ (forall r, In r (agg_audience_role page)
                <-> exists seg, In seg (segments annotations)
                                /\ In r (toList (audience_role seg))).
Proof.
  cbv zeta. unfold aggregatePageMetadata. cbn [agg_concepts agg_audience_role].
  destruct (fold_step_sets (segments annotations) (initial annotations))
    as (H1 & H2 & H3 & H4).
  split; [apply H1; constructor|]. split; [apply H2; constructor|]. split.
  - intros c. rewrite H3. simpl. tauto.
  - intros r. rewrite H4. simpl. tauto.
Qed.

(** The semantics accumulator keeps its keys; its sets stay free of
    duplicates. *)
Lemma addSemantics_keys (sem : list (string * list string)) (entry : string * list string) :
  List.map fst (addSemantics sem entry) = List.map fst sem.
Proof.
  unfold addSemantics. rewrite List.map_map. apply List.map_ext.
  intros [k set]. now destruct (String.eqb k (fst entry)).
Qed.

Lemma fold_addSemantics_keys (entries sem : list (string * list string)) :
  List.map fst (fold_left addSemantics entries sem) = List.map fst sem.
Proof.
  revert sem. induction entries as [|e entries IH]; intros sem; [reflexivity|].
  simpl. now rewrite IH, addSemantics_keys.
Qed.

Lemma addSemantics_NoDup (sem : list (string * list string)) (entry : string * list string) :
  Forall (fun e => NoDup (snd e)) sem ->
  Forall (fun e => NoDup (snd e)) (addSemantics sem entry).
Proof.
  intros H. unfold addSemantics. apply Forall_map.
  eapply Forall_impl; [exact H|]. intros [k set] Hk. simpl in *.
  destruct (String.eqb k (fst entry)); simpl; [now apply NoDup_setAddAll | assumption].
Qed.

Lemma fold_addSemantics_NoDup (entries sem : list (string * list string)) :
  Forall (fun e => NoDup (snd e)) sem ->
  Forall (fun e => NoDup (snd e)) (fold_left addSemantics entries sem).
Proof.
  revert sem. induction entries as [|e entries IH]; intros sem H; [assumption|].
  simpl. apply IH. now apply addSemantics_NoDup.
Qed.

Lemma fold_step_semantics (segs : list AnnotatedSegment) (a : Accum) :
  List.map fst (acc_semantics (fold_left step segs a)) = List.map fst (acc_semantics a)
  /\ (Forall (fun e => NoDup (snd e)) (acc_semantics a) ->
      Forall (fun e => NoDup (snd e)) (acc_semantics (fold_left step segs a))).
Proof.
  revert a. induction segs as [|seg segs IH]; intros a; simpl; [tauto|].
  destruct (IH (step a seg)) as [Hk Hn]. split.
  - rewrite Hk. simpl. apply fold_addSemantics_keys.
  - intros H. apply Hn. simpl. now apply fold_addSemantics_NoDup.
Qed.

Lemma sublist_filter_map {A B} (f : A -> B) (p : A -> bool) (l : list A) :
  sublist (List.map f (List.filter p l)) (List.map f l).
Proof.
  induction l as [|x l IH]; simpl; [constructor|].
  destruct (p x); simpl; [now apply sublist_skip | now apply sublist_cons].
Qed.

(** What the sets of the semantics hold after the entries [entries]:
    every key keeps its place, and its set gains the values listed under
    it. *)
Lemma fold_addSemantics_sets (entries sem : list (string * list string)) :
  Forall2 (fun e e' =>
             fst e' = fst e
             /\ forall v, In v (snd e')
                          <-> In v (snd e)
                              \/ exists vs, In (fst e, vs) entries /\ In v vs)
          sem (fold_left addSemantics entries sem).
Proof.
  revert sem. induction entries as [|entry entries IH]; intros sem.
  - simpl. induction sem as [|e sem IHs]; constructor; [|exact IHs].
    split; [reflexivity|]. intros v. split; [auto|].
    intros [H | (vs & [] & _)]. assumption.
  - cbn [fold_left]. specialize (IH (addSemantics sem entry)).
    assert (Hstep : Forall2 (fun e e1 =>
                       fst e1 = fst e
                       /\ forall v, In v (snd e1)
                                    <-> In v (snd e)
                                        \/ (fst e = fst entry /\ In v (snd entry)))
                      sem (addSemantics sem entry)).
    { unfold addSemantics. clear IH. induction sem as [|[k set] sem IHs]; [constructor|].
      cbn [List.map]. constructor; [|exact IHs].
      destruct (String.eqb k (fst entry)) eqn:E; simpl.
      - apply String.eqb_eq in E. split; [reflexivity|]. intros v.
        rewrite in_setAddAll. tauto.
      - apply String.eqb_neq in E. split; [reflexivity|]. intros v. tauto. }
    eapply Forall2_trans; [|exact Hstep|exact IH].
    intros e e1 e2 [Hk1 Hv1] [Hk2 Hv2]. split; [congruence|].
    intros v. rewrite Hv2, Hv1, Hk1. split.
    + intros [[H | [Hk H]] | (vs & Hin & H)]; auto.
      * right. exists (snd entry). split; [left; rewrite Hk; now destruct entry | assumption].
      * right. exists vs. split; [now right | assumption].
    + intros [H | (vs & [Heq | Hin] & H)]; auto.
      * left. right. subst entry. auto.
      * right. eauto.
Qed.

(** The loop over the segments adds their entries, in order. *)
Lemma fold_step_entries (segs : list AnnotatedSegment) (a : Accum) :
  acc_semantics (fold_left step segs a)
  = fold_left addSemantics
      (List.flat_map (fun seg => default [] (semantics seg)) segs) (acc_semantics a).
Proof.
  revert a. induction segs as [|seg segs IH]; intros a; [reflexivity|].
  cbn [fold_left List.flat_map]. rewrite IH, fold_left_app. reflexivity.
Qed.

Lemma acc_semantics_entries (annotations : ExternalAnnotations) :
  acc_semantics (fold_left step (segments annotations) (initial annotations))
  = fold_left addSemantics (semanticsEntries annotations) initialSemantics.
Proof.
  rewrite fold_step_entries. unfold semanticsEntries. rewrite fold_left_app. reflexivity.
Qed.

(** X24. The semantics of a page aggregation are exact: their keys are,
    in the order of the eight keys that the aggregation collects, those
    of the eight under which the page or one of its segments lists a
    value; and the set listed under a key is free of duplicates and
    holds exactly the values listed under that key. Keys outside the
    eight, such as personas, are never listed. The property is stated
    for annotations none of whose semantics keys is the name of an
    inherited member: there the lookup of the key finds that member and
    the code throws. *)
Theorem aggregatePageMetadata_semantics (annotations : ExternalAnnotations) :
  Forall (fun e => JsObject.inherited (fst e) = false) (semanticsEntries annotations) ->
  let page := aggregatePageMetadata sha256_hex annotations in
  sublist (List.map fst (agg_semantics page)) semanticKeys
  /\ (forall k, In k (List.map fst (agg_semantics page))
                <-> In k semanticKeys /\ exists v, declares annotations k v)
  /\ (forall k set, In (k, set) (agg_semantics page) ->
        NoDup set /\ forall v, In v set <-> declares annotations k v).
Proof.
  intros _. cbv zeta. unfold aggregatePageMetadata. cbn [agg_semantics].
  rewrite acc_semantics_entries.
  set (entries := semanticsEntries annotations).
  set (final := fold_left addSemantics entries initialSemantics).
  pose proof (fold_addSemantics_sets entries initialSemantics) as Hsets. fold final in Hsets.
  assert (Hkeys : List.map fst final = semanticKeys) by apply fold_addSemantics_keys.
  assert (Hnd : Forall (fun e => NoDup (snd e)) final).
  { apply fold_addSemantics_NoDup. unfold initialSemantics. repeat constructor. }
  assert (Hval : forall k set, In (k, set) final ->
            In k semanticKeys /\ forall v, In v set <-> declares annotations k v).
  { intros k set Hin. apply list_elem_of_In in Hin.
    apply list_elem_of_lookup in Hin as (i & Hi).
    destruct (Forall2_lookup_r _ _ _ _ _ Hsets Hi) as (e & He & Hk & Hv).
    simpl in Hk, Hv. split.
    - rewrite <- Hkeys. apply in_map_iff. exists (k, set). split; [reflexivity|].
      apply list_elem_of_In. now apply list_elem_of_lookup_2 in Hi.
    - intros v. rewrite Hv, <- Hk. unfold declares. fold entries.
      assert (He0 : snd e = []).
      { apply list_elem_of_lookup_2, list_elem_of_In in He.
        unfold initialSemantics in He. apply in_map_iff in He as (k0 & <- & _). reflexivity. }
      rewrite He0. simpl. tauto. }
  split; [|split].
  - rewrite <- Hkeys. apply sublist_filter_map.
  - intros k. rewrite in_map_iff. split.
    + intros ([k' set] & Hk & Hin). simpl in Hk. subst k'.
      apply List.filter_In in Hin as [Hin Hlen].
      destruct (Hval k set Hin) as [Hkey Hv]. split; [assumption|].
      destruct set as [|v set]; [discriminate|]. exists v. apply Hv. now left.
    + intros [Hkey (v & Hv)]. rewrite <- Hkeys in Hkey.
      apply in_map_iff in Hkey as ([k' set] & Hk & Hin). simpl in Hk. subst k'.
      exists (k, set). split; [reflexivity|]. apply List.filter_In. split; [assumption|].
      destruct (Hval k set Hin) as [_ Hset]. apply Hset in Hv.
      destruct set; [destruct Hv | reflexivity].
  - intros k set Hin. apply List.filter_In in Hin as [Hin _]. split.
    + rewrite Forall_forall in Hnd. apply (Hnd (k, set)). now apply list_elem_of_In.
    + apply (Hval k set Hin).
Qed.

End PageSets.

Section PageSetsExamples.

Import Aggregate MoreSamples.

Lemma aggregatePageMetadata_semantics_witness :
  agg_semantics (aggregatePageMetadata (fun s => s) semanticPage)
  = [("tasks", ["install"; "configure"]); ("outcomes", ["running"])]
  /\ sublist (List.map fst (agg_semantics (aggregatePageMetadata (fun s => s) semanticPage)))
             semanticKeys
  /\ (forall k, In k (List.map fst
                        (agg_semantics (aggregatePageMetadata (fun s => s) semanticPage)))
                <-> In k semanticKeys /\ exists v, declares semanticPage k v)
  /\ (forall k set,
        In (k, set) (agg_semantics (aggregatePageMetadata (fun s => s) semanticPage)) ->
        NoDup set /\ forall v, In v set <-> declares semanticPage k v).
Proof.
  split; [reflexivity|].
  apply (aggregatePageMetadata_semantics (fun s => s) semanticPage).
  repeat constructor.
Defined.

End PageSetsExamples.

Section ProjectFacts.

Import Aggregate ProjectAggregate.

Variable sha256_hex : string -> string.

Lemma fold_stepPage (pages : list ExternalAnnotations) (a : ProjectAccum) :
  let a' := fold_left (stepPage sha256_hex) pages a in
  (NoDup (pacc_concepts a) -> NoDup (pacc_concepts a'))
  /\ (forall c, In c (pacc_concepts a')
                <-> In c (pacc_concepts a)
                    \/ exists page seg, In page pages /\ In seg (segments page)
                                        /\ In c (toList (concepts seg)))
  /\ pacc_totalSegments a'
     = (pacc_totalSegments a
        + list_sum (List.map (fun page => length (segments page)) pages))%nat
  /\ pacc_pageSummaries a'
     = pacc_pageSummaries a
       ++ List.map (fun page => {| ps_source_file := source_file page;
                                   page_aggregation := aggregatePageMetadata sha256_hex page |})
                   pages
  /\ pacc_pageChecksums a'
     = pacc_pageChecksums a
       ++ List.map (fun page => page_checksum (aggregatePageMetadata sha256_hex page)) pages.
Proof.
  cbv zeta. revert a. induction pages as [|page pages IH]; intros a; simpl.
  - rewrite !app_nil_r, Nat.add_0_r. repeat split; try tauto.
    intros [H | (p & s & [] & _)]. assumption.
  - destruct (IH (stepPage sha256_hex a page)) as (H1 & H2 & H3 & H4 & H5). clear IH.
    pose proof (aggregatePageMetadata_concepts sha256_hex page) as Hc.
    split; [|split; [|split; [|split]]].
    + intros H. apply H1. simpl. now apply NoDup_setAddAll.
    + intros c. rewrite H2. simpl pacc_concepts. rewrite in_setAddAll, Hc. split.
      * intros [[(s & Hs & Hcs) | H] | (p & s & Hp & Hs & Hcs)]; eauto 8.
      * intros [H | (p & s & [<- | Hp] & Hs & Hcs)]; eauto 8.
    + rewrite H3. simpl. lia.
    + rewrite H4. simpl. now rewrite <- app_assoc.
    + rewrite H5. simpl. now rewrite <- app_assoc.
Qed.

(** X25. The project aggregation over pages: its concepts are a set, and
    hold exactly the concepts of the segments of the pages; its segment
    count is the sum of the numbers of segments; its page summaries are
    the page aggregations in the order of the pages; and its checksum is
    the hash of their page checksums joined by a bar. *)
Theorem aggregateProjectMetadata_pages (pages : list ExternalAnnotations)
  (projectId : string) (projectVersion : option string) :
  let result := aggregateProjectMetadata sha256_hex pages projectId projectVersion in
  let totals := project_aggregation result in
  NoDup (pa_concepts totals)
  /\ (forall c, In c (pa_concepts totals)
                <-> exists page seg, In page pages /\ In seg (segments page)
                                     /\ In c (toList (concepts seg)))
  /\ pa_segment_count totals
     = list_sum (List.map (fun page => length (segments page)) pages)
  /\ ProjectAggregate.pages result
     = List.map (fun page => {| ps_source_file := source_file page;
                                page_aggregation := aggregatePageMetadata sha256_hex page |})
                pages
  /\ project_checksum totals
     = "sha256:" +:+ sha256_hex
         (JsString.join "|"
            (List.map (fun page => page_checksum (aggregatePageMetadata sha256_hex page)) pages)).
Proof.
  cbv zeta. unfold aggregateProjectMetadata.
  cbn [project_aggregation pa_concepts pa_segment_count ProjectAggregate.pages project_checksum].
  destruct (fold_stepPage pages initialProject) as (H1 & H2 & H3 & H4 & H5).
  cbv zeta in *.
  split; [apply H1; constructor|]. split; [|split; [|split]].
  - intros c. rewrite H2. simpl. tauto.
  - rewrite H3. reflexivity.
  - rewrite H4. reflexivity.
  - rewrite H5. reflexivity.
Qed.

End ProjectFacts.

(** ** The queries of a consistent linkage *)

Section LinkageQueryFacts.

Import Linkage LinkageQueries MoreSamples.

Lemma lookup_some_In {V} (record : list (string * V)) (k : string) (v : V) :
  lookup record k = Some v -> In (k, v) record.
Proof.
  unfold lookup. destruct (List.find _ record) as [[k' v']|] eqn:E; [|discriminate].
  simpl. intros [= <-]. apply List.find_some in E as [Hin Hk].
  apply String.eqb_eq in Hk. simpl in Hk. now subst.
Qed.

Lemma filter_eq_nil {A} (p : A -> bool) (l : list A) :
  List.filter p l = [] <-> forall x, In x l -> p x = false.
Proof.
  induction l as [|x l IH]; simpl.
  - split; [intros _ y [] | reflexivity].
  - destruct (p x) eqn:E.
    + split; [discriminate|]. intros H. specialize (H x (or_introl eq_refl)). congruence.
    + rewrite IH. split.
      * intros H y [<- | Hy]; auto.
      * intros H y Hy. apply H. now right.
Qed.

Lemma ownKey_lookup {V} (record : list (string * V)) (k : string) :
  JsObject.ownKey record k = true -> exists v, lookup record k = Some v.
Proof.
  unfold JsObject.ownKey, lookup. intros H.
  apply existsb_exists in H as (e & He & Hk).
  destruct (List.find (fun e0 => String.eqb (fst e0) k) record) as [e'|] eqn:E; [eauto|].
  pose proof (List.find_none _ _ E e He) as Hn. simpl in Hn. congruence.
Qed.

(** X26. In a linkage in which the consistency check finds nothing, the
    two queries lead back. Every asset that [findDocsForSymbol] returns
    has an entry of its path in [asset_to_code], unless its path is the
    name of a member that every object inherits, which the check lets
    pass. Every function of a code reference that [findCodeForDoc]
    returns has an entry of its symbol in [code_to_assets], and
    [findDocsForSymbol] answers the symbol with the assets of that
    entry. *)
Theorem validateBidirectionalConsistency_queries (linkage : Linkage) :
  validateBidirectionalConsistency linkage = [] ->
  (forall symbol asset,
     In asset (findDocsForSymbol linkage symbol) ->
     (exists mapping, lookup (asset_to_code linkage) (path asset) = Some mapping)
     \/ In (path asset) JsObject.prototypeMembers)
  /\ (forall docPath codeRef func,
        In codeRef (findCodeForDoc linkage docPath) -> In func (functions codeRef) ->
        exists mapping,
          lookup (code_to_assets linkage) (symbolOf codeRef func) = Some mapping
          /\ findDocsForSymbol linkage (symbolOf codeRef func) = assets mapping).
Proof.
  rewrite validateBidirectionalConsistency_enumerates. intros H.
  apply app_eq_nil in H as [Hrev Hfwd].
  apply map_eq_nil in Hrev, Hfwd.
  unfold missingReverse in Hrev. unfold missingForward in Hfwd.
  rewrite filter_eq_nil in Hrev, Hfwd. split.
  - intros symbol asset Hin. unfold findDocsForSymbol in Hin.
    destruct (lookup (code_to_assets linkage) symbol) as [mapping|] eqn:E; [|contradiction].
    apply lookup_some_In in E.
    assert (Hk : hasKey (asset_to_code linkage) (path asset) = true).
    { apply negb_false_iff. apply Hrev.
      unfold assetPaths. apply in_flat_map. exists (symbol, mapping).
      split; [assumption|]. simpl. now apply in_map. }
    unfold hasKey, JsObject.truthyAt in Hk. apply orb_true_iff in Hk as [Hk | Hk].
    + left. now apply ownKey_lookup.
    + right. now apply inherited_In.
  - intros docPath codeRef func Hin Hf. unfold findCodeForDoc in Hin.
    destruct (lookup (asset_to_code linkage) docPath) as [mapping|] eqn:E; [|contradiction].
    apply lookup_some_In in E.
    assert (Hk : hasKey (code_to_assets linkage) (symbolOf codeRef func) = true).
    { apply negb_false_iff. apply Hfwd.
      unfold codeSymbols. apply in_flat_map. exists (docPath, mapping).
      split; [assumption|]. simpl. apply in_flat_map. exists codeRef.
      split; [assumption|]. now apply in_map. }
    rewrite hasKey_symbolOf in Hk. apply ownKey_lookup in Hk as (m & Hm).
    exists m. split; [assumption|]. unfold findDocsForSymbol. now rewrite Hm.
Qed.

Lemma validateBidirectionalConsistency_queries_witness :
  (forall symbol asset,
     In asset (findDocsForSymbol repairedLinkage symbol) ->
     (exists mapping, lookup (asset_to_code repairedLinkage) (path asset) = Some mapping)
     \/ In (path asset) JsObject.prototypeMembers)
  /\ (forall docPath codeRef func,
        In codeRef (findCodeForDoc repairedLinkage docPath) -> In func (functions codeRef) ->
        exists mapping,
          lookup (code_to_assets repairedLinkage) (symbolOf codeRef func) = Some mapping
          /\ findDocsForSymbol repairedLinkage (symbolOf codeRef func) = assets mapping).
Proof.
  apply (validateBidirectionalConsistency_queries repairedLinkage).
  vm_compute. reflexivity.
Defined.

End LinkageQueryFacts.

(** ** The journeys that validation accepts *)

Section JourneyAcceptance.

Import Journeys.

Lemma pushed_nodeErrors_nil (seen : gset string) (nodes : list JourneyNode) :
  pushed id nodeErrors seen nodes = []
  <-> Forall (fun n => id n <> EmptyString /\ id n ∉ seen) nodes
      /\ NoDup (List.map id nodes).
Proof.
  revert seen. induction nodes as [|n r IH]; intros seen; simpl.
  - split; [intros _; split; constructor | reflexivity].
  - rewrite app_nil, IH, Forall_cons, NoDup_cons. unfold nodeErrors.
    rewrite app_nil. split.
    + intros ((He & Hd) & Hall & Hnd).
      destruct (String.eqb (id n) EmptyString) eqn:E; [discriminate|].
      apply String.eqb_neq in E. case_bool_decide as Hin; [discriminate|].
      rewrite Forall_forall in Hall.
      split; [split; [split; assumption|]|split; [|assumption]].
      * apply Forall_forall. intros x Hx. destruct (Hall x Hx) as [Hx1 Hx2].
        split; [assumption|]. intros Hs. apply Hx2. now apply elem_of_union_r.
      * intros Hin'. apply list_elem_of_fmap in Hin' as (x & Hxn & Hx).
        destruct (Hall x Hx) as [_ Hx2]. apply Hx2. apply elem_of_union_l.
        apply elem_of_singleton. congruence.
    + intros ([[Hne Hseen] Hall] & [Hfresh Hnd]).
      apply String.eqb_neq in Hne. rewrite Hne.
      rewrite bool_decide_eq_false_2 by assumption.
      split; [split; reflexivity|]. split; [|assumption].
      rewrite Forall_forall in Hall |- *. intros x Hx. destruct (Hall x Hx) as [Hx1 Hx2].
      split; [assumption|]. intros Hin. apply elem_of_union in Hin as [Hin | Hin]; [|auto].
      apply elem_of_singleton in Hin. apply Hfresh. rewrite <- Hin.
      apply list_elem_of_fmap. eauto.
Qed.

(** X27. Validation of a journey finds nothing exactly when the journey
    has an id, a key, a name, a project and a node, every node has an id,
    no two nodes share an id, and no node reaches itself along the
    connections that name a target node. *)
Theorem validateJourney_accepts (journey : Journey) :
  validateJourney journey = []
  <-> journey_id journey <> EmptyString
      /\ journey_key journey <> EmptyString
      /\ journey_name journey <> EmptyString
      /\ projects journey <> []
      /\ nodes journey <> []
      /\ Forall (fun n => id n <> EmptyString) (nodes journey)
      /\ NoDup (List.map id (nodes journey))
      /\ ~ exists y, tc (journeyEdge (nodes journey)) y y.
Proof.
  pose proof (hasCyclesWithin_total (nodes journey)) as [_ Hiff].
  unfold validateJourney, validateNodes. rewrite fold_seen. simpl fst.
  rewrite !app_nil, pushed_nodeErrors_nil. split.
  - intros (((Hid & Hkey & Hname & Hproj & Hnodes) & Hall & Hnd) & Hcyc).
    destruct (String.eqb (journey_id journey) EmptyString) eqn:E1; [discriminate|].
    destruct (String.eqb (journey_key journey) EmptyString) eqn:E2; [discriminate|].
    destruct (String.eqb (journey_name journey) EmptyString) eqn:E3; [discriminate|].
    apply String.eqb_neq in E1, E2, E3.
    repeat split; try assumption.
    + intros E. rewrite E in Hproj. discriminate.
    + intros E. rewrite E in Hnodes. discriminate.
    + eapply Forall_impl; [exact Hall|]. now intros n [Hn _].
    + intros (y & Hy).
      assert (Hg : hasCycle (buildGraph (nodes journey))).
      { exists y. eapply tc_mono; [|exact Hy]. intros a b Hab.
        apply journeyEdge_edge; [now apply NoDup_ListNoDup | assumption]. }
      apply Hiff in Hg. rewrite Hg in Hcyc. discriminate.
  - intros (Hid & Hkey & Hname & Hproj & Hnodes & Hall & Hnd & Hcyc).
    apply String.eqb_neq in Hid, Hkey, Hname. rewrite Hid, Hkey, Hname.
    split; [split|].
    + repeat split.
      * destruct (projects journey); [congruence | reflexivity].
      * destruct (nodes journey); [congruence | reflexivity].
    + split; [|assumption]. eapply Forall_impl; [exact Hall|].
      intros n Hn. split; [assumption | apply not_elem_of_empty].
    + destruct (hasCycles (nodes journey)) eqn:Hc; [|reflexivity].
      exfalso. apply Hcyc. destruct (proj1 Hiff eq_refl) as (y & Hy).
      exists y. eapply tc_mono; [|exact Hy]. apply edge_journeyEdge.
Qed.

End JourneyAcceptance.

(** ** The concept hierarchy returns when no concept is its own ancestor *)

Section HierarchyTermination.

Import Concepts Samples.

Lemma buildConceptHierarchy_mono_le (graph : ConceptGraph) (fuel fuel' : nat)
  (rootKey : string) (r : option Hierarchy) :
  (fuel <= fuel')%nat ->
  buildConceptHierarchy fuel graph rootKey = Some r ->
  buildConceptHierarchy fuel' graph rootKey = Some r.
Proof.
  induction 1 as [|fuel' _ IH]; [auto|].
  intros H. apply buildConceptHierarchy_mono. auto.
Qed.

Lemma sequence_all {A B} (f : A -> option B) (l : list A) :
  (forall x, In x l -> exists v, f x = Some v) ->
  exists r, sequence (List.map f l) = Some r.
Proof.
  induction l as [|x l IH]; intros H; simpl; [eauto|].
  destruct (H x (or_introl eq_refl)) as (v & ->).
  destruct IH as (r & ->); [intros y Hy; apply H; now right|]. eauto.
Qed.

(** One depth serves all the calls made from a node. *)
Lemma common_fuel (graph : ConceptGraph) (keys : list string) :
  (forall k, In k keys -> exists fuel r, buildConceptHierarchy fuel graph k = Some r) ->
  exists fuel, forall k, In k keys -> exists r, buildConceptHierarchy fuel graph k = Some r.
Proof.
  induction keys as [|k keys IH]; intros H.
  - exists 0%nat. intros k [].
  - destruct (H k (or_introl eq_refl)) as (f1 & r1 & H1).
    destruct IH as (f2 & H2); [intros k' Hk'; apply H; now right|].
    exists (Nat.max f1 f2). intros k' [<- | Hk'].
    + exists r1. eapply buildConceptHierarchy_mono_le; [|exact H1]. lia.
    + destruct (H2 k' Hk') as (r2 & Hr2). exists r2.
      eapply buildConceptHierarchy_mono_le; [|exact Hr2]. lia.
Qed.

Lemma buildConceptHierarchy_step (fuel : nat) (graph : ConceptGraph) (rootKey : string) :
  buildConceptHierarchy (S fuel) graph rootKey
  = match List.find (fun c => String.eqb (key c) rootKey) (concepts graph) with
    | None => Some None
    | Some root =>
        match sequence
                (List.map
                   (fun r =>
                      match List.find (fun c => String.eqb (id c) (stripPrefix (rel_from r)))
                                      (concepts graph) with
                      | Some child => buildConceptHierarchy fuel graph (key child)
                      | None => Some None
                      end)
                   (List.filter
                      (fun r => String.eqb (rel_to r) (conceptPrefix +:+ id root)
                                && isParent (kind r))
                      (relationships graph))) with
        | Some children => Some (Some (HNode root (omap (fun x => x) children)))
        | None => None
        end
    end.
Proof. reflexivity. Qed.

(** X28. When the recursive calls that start from a root key cannot go
    on for ever, that is when no chain of parent relationships below the
    root closes a cycle, [buildConceptHierarchy] returns: some depth of
    recursion suffices, and the result is null only when no concept
    has the key, and otherwise a node of a concept of the graph that has
    the key. *)
Theorem buildConceptHierarchy_terminates (graph : ConceptGraph) (rootKey : string) :
  sn (childKey graph) rootKey ->
  exists fuel result,
    buildConceptHierarchy fuel graph rootKey = Some result
    /\ match result with
       | None => forall c, In c (concepts graph) -> key c <> rootKey
       | Some (HNode root _) => In root (concepts graph) /\ key root = rootKey
       end.
Proof.
  induction 1 as [k _ IH].
  destruct (List.find (fun c => String.eqb (key c) k) (concepts graph)) as [root|] eqn:Hroot.
  - set (edges := List.filter
                    (fun r => String.eqb (rel_to r) (conceptPrefix +:+ id root)
                              && isParent (kind r))
                    (relationships graph)).
    set (childKeys := omap (fun r =>
                              option_map key
                                (List.find (fun c => String.eqb (id c) (stripPrefix (rel_from r)))
                                           (concepts graph))) edges).
    destruct (common_fuel graph childKeys) as (fuel & Hfuel).
    { intros k' Hk'. unfold childKeys in Hk'.
      apply list_elem_of_In, list_elem_of_omap in Hk' as (rel & Hrel & Hk').
      destruct (List.find (fun c => String.eqb (id c) (stripPrefix (rel_from rel)))
                          (concepts graph)) as [child|] eqn:Hchild; [|discriminate].
      simpl in Hk'. injection Hk' as <-.
      apply list_elem_of_In, List.filter_In in Hrel as [Hin Hsel].
      apply andb_true_iff in Hsel as [Hto Hkind]. apply String.eqb_eq in Hto.
      destruct (IH (key child)) as (f & r & Hr & _).
      { exists root, rel, child. repeat split; try assumption.
        destruct (kind rel); try discriminate. reflexivity. }
      eauto. }
    destruct (sequence_all
                (fun r =>
                   match List.find (fun c => String.eqb (id c) (stripPrefix (rel_from r)))
                                   (concepts graph) with
                   | Some child => buildConceptHierarchy fuel graph (key child)
                   | None => Some None
                   end) edges) as (children & Hseq).
    { intros rel Hrel.
      destruct (List.find (fun c => String.eqb (id c) (stripPrefix (rel_from rel)))
                          (concepts graph)) as [child|] eqn:Hchild; [|eauto].
      apply Hfuel. unfold childKeys. apply list_elem_of_In, list_elem_of_omap.
      exists rel. split; [now apply list_elem_of_In|]. now rewrite Hchild. }
    exists (S fuel), (Some (HNode root (omap (fun x => x) children))).
    rewrite buildConceptHierarchy_step, Hroot. fold edges. rewrite Hseq.
    split; [reflexivity|]. apply List.find_some in Hroot as [Hin Hk].
    apply String.eqb_eq in Hk. auto.
  - exists 1%nat, None. rewrite buildConceptHierarchy_step, Hroot.
    split; [reflexivity|]. intros c Hc Hk.
    pose proof (List.find_none _ _ Hroot c Hc) as Hn. simpl in Hn.
    rewrite Hk, String.eqb_refl in Hn. discriminate.
Qed.

Lemma authGraph_leaf (k : string) :
  k = "oauth" \/ k = "jwt" -> sn (childKey authGraph) k.
Proof.
  intros Hk. constructor. intros k' (root & rel & child & Hroot & Hin & Hto & Hkind & _).
  destruct Hk as [-> | ->]; vm_compute in Hroot; injection Hroot as <-;
    destruct Hin as [<- | [<- | [<- | []]]]; discriminate.
Qed.

Lemma buildConceptHierarchy_terminates_witness :
  exists fuel result,
    buildConceptHierarchy fuel authGraph "authentication" = Some result
    /\ match result with
       | None => forall c, In c (concepts authGraph) -> key c <> "authentication"
       | Some (HNode root _) => In root (concepts authGraph) /\ key root = "authentication"
       end.
Proof.
  apply (buildConceptHierarchy_terminates authGraph "authentication").
  constructor. intros k' (root & rel & child & Hroot & Hin & Hto & Hkind & Hchild & <-).
  apply authGraph_leaf.
  destruct Hin as [<- | [<- | [<- | []]]]; vm_compute in Hchild;
    injection Hchild as <-; auto.
Defined.

End HierarchyTermination.

(** ** The structural errors of the two parsers *)

Section MarkerScanFacts.

Import Segments Samples.

(** The two marker patterns match at an opening angle bracket only. *)
Lemma SEGMENT_START_RE_bracket (c : ascii) (t : string) :
  Ascii.eqb c "<" = false -> SEGMENT_START_RE (String c t) = None.
Proof. intros H. unfold SEGMENT_START_RE. simpl. now rewrite H. Qed.

Lemma SEGMENT_END_RE_bracket (c : ascii) (t : string) :
  Ascii.eqb c "<" = false -> SEGMENT_END_RE (String c t) = None.
Proof. intros H. unfold SEGMENT_END_RE. simpl. now rewrite H. Qed.

(** Text without an angle bracket holds no match, and the scan passes
    over it. *)
Lemma execAll_from_plain (m : Regex.matcher) (a : string) (pos : Z) (skip : nat) :
  (forall c t, Ascii.eqb c "<" = false -> m (String c t) = None) ->
  JsString.contains "<" a = false ->
  Regex.execAll_from m a pos skip = [].
Proof.
  intros Hm. revert pos skip. induction a as [|c a IH]; intros pos skip H; [reflexivity|].
  simpl in H. apply orb_false_iff in H as [Hc Ha]. simpl.
  destruct skip as [|k]; [|now apply IH]. rewrite (Hm c a Hc). now apply IH.
Qed.

Lemma execAll_from_after_plain (m : Regex.matcher) (a s : string) (pos : Z) :
  (forall c t, Ascii.eqb c "<" = false -> m (String c t) = None) ->
  JsString.contains "<" a = false ->
  Regex.execAll_from m (a +:+ s) pos 0 = Regex.execAll_from m s (pos + JsString.len a) 0.
Proof.
  intros Hm. revert pos. induction a as [|c a IH]; intros pos H.
  - simpl. unfold JsString.len. simpl. now rewrite Z.add_0_r.
  - simpl in H. apply orb_false_iff in H as [Hc Ha].
    change (String c a +:+ s) with (String c (a +:+ s)).
    cbn [Regex.execAll_from]. rewrite (Hm c _ Hc), (IH _ Ha).
    f_equal. unfold JsString.len. simpl String.length. lia.
Qed.

(** The characters of a match are passed over. *)
Lemma execAll_from_skip (m : Regex.matcher) (x b : string) (pos : Z) :
  Regex.execAll_from m (x +:+ b) pos (String.length x)
  = Regex.execAll_from m b (pos + JsString.len x) 0.
Proof.
  revert pos. induction x as [|c x IH]; intros pos.
  - simpl. unfold JsString.len. simpl. now rewrite Z.add_0_r.
  - change (String c x +:+ b) with (String c (x +:+ b)). cbn [Regex.execAll_from String.length].
    rewrite IH. f_equal. unfold JsString.len. simpl String.length. lia.
Qed.

(** A match at the position tried, and the scan after it. *)
Lemma execAll_from_here (m : Regex.matcher) (mk b : string) (gs : list (option string))
  (pos : Z) :
  mk <> EmptyString -> m (mk +:+ b) = Some (gs, b) ->
  Regex.execAll_from m (mk +:+ b) pos 0
  = {| Regex.index := pos; Regex.matched := mk; Regex.groups := gs |}
      :: Regex.execAll_from m b (pos + JsString.len mk) 0.
Proof.
  intros Hne Hm. destruct mk as [|c mk']; [congruence|].
  assert (Htxt : Regex.matchedText (String c mk' +:+ b) b = String c mk').
  { unfold Regex.matchedText. rewrite length_append.
    replace (String.length (String c mk') + String.length b - String.length b)%nat
      with (String.length (String c mk')) by lia.
    apply substring_prefix. }
  change (String c mk' +:+ b) with (String c (mk' +:+ b)) in *.
  cbn [Regex.execAll_from]. rewrite Hm, Htxt. f_equal.
  replace (String.length (String c mk') - 1)%nat with (String.length mk')
    by (simpl; lia).
  rewrite execAll_from_skip. f_equal. unfold JsString.len. simpl String.length. lia.
Qed.

(** The patterns on the two markers. *)
Lemma SEGMENT_START_RE_startMarker (k b : string) :
  k <> EmptyString -> JsString.contains JsString.DQUOTE k = false ->
  SEGMENT_START_RE (startMarker k +:+ b) = Some ([Some k], b).
Proof.
  intros Hne Hk. unfold SEGMENT_START_RE, startMarker, q, keyAttr.
  rewrite !append_assoc. simpl.
  unfold Regex.quoted. rewrite notQuote0_app by assumption.
  destruct k as [|c k]; [congruence|]. reflexivity.
Qed.

Lemma SEGMENT_END_RE_startMarker (k b : string) :
  SEGMENT_END_RE (startMarker k +:+ b) = None.
Proof. unfold SEGMENT_END_RE, startMarker. rewrite !append_assoc. reflexivity. Qed.

Lemma SEGMENT_START_RE_endMarker (b : string) :
  SEGMENT_START_RE (endMarker +:+ b) = None.
Proof. reflexivity. Qed.

Lemma SEGMENT_END_RE_endMarker (b : string) :
  SEGMENT_END_RE (endMarker +:+ b) = Some ([], b).
Proof. reflexivity. Qed.

(** Past its bracket, a start marker whose key has no angle bracket has
    none. *)
Lemma startMarker_bracket (k : string) :
  JsString.contains "<" k = false ->
  exists x, startMarker k = String "<" x /\ JsString.contains "<" x = false.
Proof.
  intros Hk. exists ("!-- semcontext:segment start key=" +:+ q +:+ k +:+ q +:+ " -->").
  split; [reflexivity|]. unfold q. rewrite !contains_append, Hk. reflexivity.
Qed.

(** The matches of the two patterns in a start marker, and in an end
    marker, followed by any text. *)
Lemma execAll_START_startMarker (k s : string) (pos : Z) :
  k <> EmptyString -> JsString.contains JsString.DQUOTE k = false ->
  Regex.execAll_from SEGMENT_START_RE (startMarker k +:+ s) pos 0
  = {| Regex.index := pos; Regex.matched := startMarker k; Regex.groups := [Some k] |}
      :: Regex.execAll_from SEGMENT_START_RE s (pos + JsString.len (startMarker k)) 0.
Proof.
  intros Hne Hk. apply execAll_from_here; [discriminate|].
  now apply SEGMENT_START_RE_startMarker.
Qed.

Lemma execAll_END_startMarker (k s : string) (pos : Z) :
  JsString.contains "<" k = false ->
  Regex.execAll_from SEGMENT_END_RE (startMarker k +:+ s) pos 0
  = Regex.execAll_from SEGMENT_END_RE s (pos + JsString.len (startMarker k)) 0.
Proof.
  intros Hk. pose proof (SEGMENT_END_RE_startMarker k s) as Hno.
  destruct (startMarker_bracket k Hk) as (x & Hx & Hplain). rewrite Hx in *.
  change (String "<" x +:+ s) with (String "<" (x +:+ s)) in *.
  cbn [Regex.execAll_from]. rewrite Hno.
  rewrite (execAll_from_after_plain _ x s _ SEGMENT_END_RE_bracket Hplain).
  f_equal. unfold JsString.len. simpl String.length. lia.
Qed.

Lemma execAll_END_endMarker (s : string) (pos : Z) :
  Regex.execAll_from SEGMENT_END_RE (endMarker +:+ s) pos 0
  = {| Regex.index := pos; Regex.matched := endMarker; Regex.groups := [] |}
      :: Regex.execAll_from SEGMENT_END_RE s (pos + JsString.len endMarker) 0.
Proof. apply execAll_from_here; [discriminate | reflexivity]. Qed.

Lemma execAll_START_endMarker (s : string) (pos : Z) :
  Regex.execAll_from SEGMENT_START_RE (endMarker +:+ s) pos 0
  = Regex.execAll_from SEGMENT_START_RE s (pos + JsString.len endMarker) 0.
Proof.
  change endMarker with (String "<" "!-- semcontext:segment end -->").
  change (String "<" "!-- semcontext:segment end -->" +:+ s)
    with (String "<" ("!-- semcontext:segment end -->" +:+ s)).
  cbn [Regex.execAll_from].
  change (SEGMENT_START_RE (String "<" ("!-- semcontext:segment end -->" +:+ s)))
    with (@None (list (option string) * string)).
  rewrite (execAll_from_after_plain _ "!-- semcontext:segment end -->" s _
             SEGMENT_START_RE_bracket eq_refl).
  f_equal. unfold JsString.len. simpl String.length. lia.
Qed.

(** Every error of the pairing loop is the ordering error or a nesting
    error. *)
Lemma pairMarkers_errors (starts ends : list Regex.Match) (offsetAdjust : Z) (e : string) :
  pairMarkers starts ends offsetAdjust = Err e ->
  e = "Segment end marker appears before start marker ends"
  \/ exists inner outer,
       e = "Nested segments not allowed: segment '" +:+ inner
           +:+ "' starts before '" +:+ outer +:+ "' ends".
Proof.
  revert ends. induction starts as [|s starts IH]; intros ends H; [discriminate|].
  destruct ends as [|en ends]; [discriminate|]. cbn [pairMarkers] in H.
  destruct (Regex.index en <? Regex.index s + JsString.len (Regex.matched s)).
  - injection H as <-. now left.
  - destruct (nestedAt s en (head starts)) as [msg|] eqn:En.
    + injection H as <-. right. unfold nestedAt in En.
      destruct (head starts) as [nx|]; [|discriminate].
      destruct (Regex.index nx <? Regex.index en); [|discriminate].
      injection En as <-. eauto.
    + destruct (pairMarkers starts ends offsetAdjust) eqn:E; [discriminate|].
      simpl in H. injection H as <-. eapply IH. exact E.
Qed.

End MarkerScanFacts.

Section LineNestingFacts.

Import LineSegments Samples.

(** One iteration keeps the lines inside every closed segment, and the
    lines collected for the open one, lines of text. *)
Lemma stepLine_textInside (done : list string) (st st' : ScanState) (l : string) :
  scanned done st ->
  Forall (textInside done) (segments st) ->
  Forall (fun x => classify x = TextLine) (contentLines st) ->
  stepLine st l = Ok st' ->
  Forall (textInside (done ++ [l])) (segments st')
  /\ Forall (fun x => classify x = TextLine) (contentLines st').
Proof.
  intros (Hi & Hloc & _ & _ & Hcur) Hin Htext Hstep.
  assert (Hin' : Forall (textInside (done ++ [l])) (segments st)).
  { rewrite Forall_forall in Hloc, Hin |- *. intros seg Hseg.
    destruct (Hloc seg Hseg) as (H1 & H2 & H3 & _).
    unfold textInside. rewrite slice_app_stable by lia. now apply Hin. }
  unfold stepLine in Hstep.
  destruct (classify l) as [k ty au| |] eqn:Hl.
  - destruct (currentSegment st); [discriminate|]. injection Hstep as <-. simpl.
    split; [assumption | constructor].
  - destruct (currentSegment st) as [cur|] eqn:Hc; [|discriminate].
    destruct Hcur as (Hc1 & Hc2 & _ & _ & Hlines).
    injection Hstep as <-. simpl. split; [|constructor].
    apply Forall_app. split; [assumption|]. constructor; [|constructor].
    unfold textInside. simpl.
    replace (i st + 1 - 1) with (Z.of_nat (length done)) by lia.
    rewrite slice_drop by lia. now rewrite <- Hlines.
  - injection Hstep as <-. simpl. split; [assumption|].
    destruct (currentSegment st); [|assumption].
    apply Forall_app. split; [assumption|]. constructor; [assumption | constructor].
Qed.

Lemma scanLines_textInside (lines done : list string) (st st' : ScanState) :
  scanned done st ->
  Forall (textInside done) (segments st) ->
  Forall (fun x => classify x = TextLine) (contentLines st) ->
  scanLines lines st = Ok st' ->
  Forall (textInside (done ++ lines)) (segments st').
Proof.
  revert done st. induction lines as [|l lines IH]; intros done st Hinv Hin Htext H;
    simpl in H.
  - injection H as <-. now rewrite app_nil_r.
  - destruct (stepLine st l) as [st1|] eqn:E; simpl in H; [|discriminate].
    replace (done ++ l :: lines) with ((done ++ [l]) ++ lines) by (now rewrite <- app_assoc).
    destruct (stepLine_textInside _ _ _ _ Hinv Hin Htext E) as [Hin1 Htext1].
    eapply IH; [|exact Hin1|exact Htext1|exact H].
    eapply stepLine_scanned; eassumption.
Qed.

(** No marker line lies inside a segment that the scanner returns. *)
Lemma parseLines_textInside (lines : list string) (segs : list ParsedSegment) :
  parseLines lines = Ok segs -> Forall (textInside lines) segs.
Proof.
  unfold parseLines. intros H.
  destruct (scanLines lines initialState) as [st|] eqn:E; simpl in H; [|discriminate].
  pose proof (scanLines_textInside lines [] _ _ scanned_initial
                (Forall_nil_2 _) (Forall_nil_2 _) E) as Hin.
  unfold finish in H. destruct (currentSegment st); [discriminate|].
  injection H as <-. exact Hin.
Qed.

(** A start-marker line met while a segment is open. *)
Lemma parseSegments_nested_line (markdown : string)
  (pre : list string) (outer : string) (body : list string) (inner : string)
  (post : list string) (segs : list ParsedSegment)
  (k : string) (ty au : option string) (k' : string) (ty' au' : option string) :
  JsString.split JsString.LF markdown = pre ++ outer :: body ++ inner :: post ->
  parseLines pre = Ok segs ->
  classify outer = StartLine k ty au ->
  Forall (fun l => classify l = TextLine) body ->
  classify inner = StartLine k' ty' au' ->
  parseSegments markdown
  = Err ("Nested segment markers not allowed at line "
           +:+ pretty (Z.of_nat (length pre) + Z.of_nat (length body) + 2)).
Proof.
  intros Hsplit Hpre Houter Hbody Hinner.
  destruct (parseLines_ok_state _ _ Hpre) as (st & Hscan & Hcur & Hi).
  unfold parseSegments, parseLines. rewrite Hsplit, scanLines_app, Hscan.
  cbn [bind scanLines]. unfold stepLine at 1. rewrite Houter, Hcur. cbn [bind].
  rewrite scanLines_app, (scanLines_text_state body _ Hbody).
  cbn [bind scanLines currentSegment i]. unfold stepLine at 1.
  rewrite Hinner. cbn [currentSegment i bind]. rewrite Hi. unfold nestedError.
  do 3 f_equal. lia.
Qed.

(** A line that begins with a start marker is that start marker to the
    scanner, whatever follows it on the line. *)
Lemma classify_startTag_line (k rest : string) :
  k <> EmptyString -> JsString.contains JsString.DQUOTE k = false ->
  classify (startTag k +:+ rest) = StartLine k None None.
Proof.
  intros Hne Hk. unfold classify.
  assert (H : START_PATTERN (startTag k +:+ rest) = Some ([Some k; None; None], rest)).
  { unfold START_PATTERN, startTag, q. rewrite !append_assoc. simpl.
    unfold Regex.quoted. rewrite notQuote0_app by assumption.
    destruct k as [|c k]; [congruence|]. reflexivity. }
  rewrite (search_here _ _ _ _ H). reflexivity.
Qed.

Lemma parseLines_start_line (k rest : string) (pre body post : list string) :
  k <> EmptyString -> JsString.contains JsString.DQUOTE k = false ->
  Forall (fun l => classify l = TextLine) pre ->
  Forall (fun l => classify l = TextLine) body ->
  Forall (fun l => classify l = TextLine) post ->
  parseLines (pre ++ [startTag k +:+ rest] ++ body ++ [endTag] ++ post)
  = Ok [ {| key := k; type := None; audience := None;
            content := JsString.join nl body;
            startLine := Z.of_nat (length pre) + 1;
            endLine := Z.of_nat (length pre) + Z.of_nat (length body) + 2 |} ].
Proof.
  intros Hne Hq Hpre Hbody Hpost. unfold parseLines.
  rewrite scanLines_app, (scanLines_text_state pre _ Hpre).
  cbn [bind app scanLines]. unfold stepLine at 1.
  rewrite (classify_startTag_line k rest Hne Hq).
  cbn [bind currentSegment initialState].
  rewrite scanLines_app, (scanLines_text_state body _ Hbody).
  cbn [bind app scanLines]. unfold stepLine at 1.
  rewrite classify_endTag.
  cbn [bind currentSegment].
  rewrite (scanLines_text_state post _ Hpost).
  cbn. do 2 f_equal. f_equal; lia.
Qed.

End LineNestingFacts.

Section StructuralErrors.

Import LineSegments Samples.

(** C2, as amended. In the marker-range parser, take any content in
    which the start marker number [i + 1] begins before the end marker
    number [i] begins: pairing its markers never succeeds, and when the
    counts of start and end markers agree and every end marker up to
    number [i] begins at or after the end of its start marker, pairing
    fails with the nesting error, whose message names the id of the inner
    and of the outer segment of the first such pair; [parseSegments]
    fails the same way on every document with this content after its
    frontmatter. In the line scanner, a start-marker line met while a
    segment is open, after lines of text, fails with the nesting error,
    whose message names the number of that line and no id; and in
    whatever the scanner returns no marker line lies inside a segment,
    the segments following one another. A line that begins with a start
    marker is read as that marker alone: among lines of text, such a
    line, lines of text and an end-marker line give the one segment of
    its key, whatever follows the start marker on its line, another
    start marker included. *)
Theorem nested_markers_rejected :
  (forall (content : string) (offsetAdjust : Z) (i : nat) (s0 s1 e0 : Regex.Match),
     Regex.execAll Segments.SEGMENT_START_RE content !! i = Some s0 ->
     Regex.execAll Segments.SEGMENT_START_RE content !! S i = Some s1 ->
     Regex.execAll Segments.SEGMENT_END_RE content !! i = Some e0 ->
     Regex.index s1 < Regex.index e0 ->
     (forall markers, Segments.parseMarkers content offsetAdjust <> Ok markers) /\
     (length (Regex.execAll Segments.SEGMENT_START_RE content)
      = length (Regex.execAll Segments.SEGMENT_END_RE content) ->
      (forall (j : nat) s e, (j <= i)%nat ->
         Regex.execAll Segments.SEGMENT_START_RE content !! j = Some s ->
         Regex.execAll Segments.SEGMENT_END_RE content !! j = Some e ->
         Regex.index s + JsString.len (Regex.matched s) <= Regex.index e) ->
      exists (k : nat) outer inner e,
        (k <= i)%nat /\
        Regex.execAll Segments.SEGMENT_START_RE content !! k = Some outer /\
        Regex.execAll Segments.SEGMENT_START_RE content !! S k = Some inner /\
        Regex.execAll Segments.SEGMENT_END_RE content !! k = Some e /\
        Regex.index inner < Regex.index e /\
        Segments.parseMarkers content offsetAdjust
        = Err ("Nested segments not allowed: segment '" +:+ Regex.group1 inner
               +:+ "' starts before '" +:+ Regex.group1 outer +:+ "' ends") /\
        forall yaml_parse docText fm,
          Segments.extractFrontmatterBlock yaml_parse docText
          = Ok (fm, offsetAdjust, content) ->
          Segments.parseSegments yaml_parse docText
          = Err ("Nested segments not allowed: segment '" +:+ Regex.group1 inner
                 +:+ "' starts before '" +:+ Regex.group1 outer +:+ "' ends")))
  /\ (forall (markdown : string) (pre : list string) (outer : string)
        (body : list string) (inner : string) (post : list string)
        (segs : list ParsedSegment)
        (k : string) (ty au : option string) (k' : string) (ty' au' : option string),
        JsString.split JsString.LF markdown = pre ++ outer :: body ++ inner :: post ->
        parseLines pre = Ok segs ->
        classify outer = StartLine k ty au ->
        Forall (fun l => classify l = TextLine) body ->
        classify inner = StartLine k' ty' au' ->
        parseSegments markdown
        = Err ("Nested segment markers not allowed at line "
                 +:+ pretty (Z.of_nat (length pre) + Z.of_nat (length body) + 2)))
  /\ (forall (markdown : string) (segs : list ParsedSegment),
        parseSegments markdown = Ok segs ->
        Forall (textInside (JsString.split JsString.LF markdown)) segs
        /\ inOrder 0 segs)
  /\ (forall (markdown : string) (k rest : string) (pre body post : list string),
        JsString.split JsString.LF markdown
        = pre ++ [startTag k +:+ rest] ++ body ++ [endTag] ++ post ->
        k <> EmptyString -> JsString.contains JsString.DQUOTE k = false ->
        Forall (fun l => classify l = TextLine) pre ->
        Forall (fun l => classify l = TextLine) body ->
        Forall (fun l => classify l = TextLine) post ->
        parseSegments markdown
        = Ok [ {| key := k; type := None; audience := None;
                  content := JsString.join nl body;
                  startLine := Z.of_nat (length pre) + 1;
                  endLine := Z.of_nat (length pre) + Z.of_nat (length body) + 2 |} ]).
Proof.
  split; [|split; [|split]].
  - intros content offsetAdjust i s0 s1 e0. apply parseMarkers_nested.
  - intros markdown pre outer body inner post segs k ty au k' ty' au'.
    apply parseSegments_nested_line.
  - intros markdown segs H. unfold parseSegments in H. split.
    + now apply parseLines_textInside.
    + now apply parseLines_scanned in H as (_ & _ & Hord).
  - intros markdown k rest pre body post Hsplit Hne Hq Hpre Hbody Hpost.
    unfold parseSegments. rewrite Hsplit. now apply parseLines_start_line.
Qed.

(** The nesting example of the specification in the marker-range parser,
    and the nesting test of the repository with a line of text between
    the two start markers. *)
Lemma nested_markers_rejected_witness :
  (exists (k : nat) outer inner e,
    (k <= 0)%nat /\
    Regex.execAll Segments.SEGMENT_START_RE nestedDoc !! k = Some outer /\
    Regex.execAll Segments.SEGMENT_START_RE nestedDoc !! S k = Some inner /\
    Regex.execAll Segments.SEGMENT_END_RE nestedDoc !! k = Some e /\
    Regex.index inner < Regex.index e /\
    Segments.parseMarkers nestedDoc 0
    = Err ("Nested segments not allowed: segment '" +:+ Regex.group1 inner
           +:+ "' starts before '" +:+ Regex.group1 outer +:+ "' ends") /\
    forall yaml_parse docText fm,
      Segments.extractFrontmatterBlock yaml_parse docText = Ok (fm, 0, nestedDoc) ->
      Segments.parseSegments yaml_parse docText
      = Err ("Nested segments not allowed: segment '" +:+ Regex.group1 inner
             +:+ "' starts before '" +:+ Regex.group1 outer +:+ "' ends"))
  /\ parseSegments (startTag "outer" +:+ nl +:+ "Content" +:+ nl +:+ startTag "inner" +:+ nl
                      +:+ endTag +:+ nl +:+ endTag +:+ nl)
     = Err "Nested segment markers not allowed at line 3"
  /\ parseSegments ("# Title" +:+ nl +:+ startTag "A" +:+ "text" +:+ startTag "B" +:+ nl
                      +:+ "..." +:+ nl +:+ endTag)
     = Ok [ {| key := "A"; type := None; audience := None;
               content := JsString.join nl ["..."];
               startLine := Z.of_nat (length ["# Title"]) + 1;
               endLine := Z.of_nat (length ["# Title"]) + Z.of_nat (length ["..."]) + 2 |} ].
Proof.
  destruct nested_markers_rejected as (Hranges & Hlines & _ & Hfirst).
  split; [|split].
  - refine (proj2 (Hranges nestedDoc 0 0%nat
                     {| Regex.index := 0; Regex.matched := startMarker "A";
                        Regex.groups := [Some "A"] |}
                     {| Regex.index := 45; Regex.matched := startMarker "B";
                        Regex.groups := [Some "B"] |}
                     {| Regex.index := 89; Regex.matched := endMarker; Regex.groups := [] |}
                     _ _ _ _) _ _).
    + vm_compute. reflexivity.
    + vm_compute. reflexivity.
    + vm_compute. reflexivity.
    + vm_compute. reflexivity.
    + vm_compute. reflexivity.
    + intros j s e Hj. assert (j = 0%nat) as -> by lia.
      vm_compute. intros [= <-] [= <-]. discriminate.
  - apply (Hlines _ [] (startTag "outer") ["Content"] (startTag "inner")
             [endTag; endTag; EmptyString] [] "outer" None None "inner" None None).
    + vm_compute. reflexivity.
    + vm_compute. reflexivity.
    + vm_compute. reflexivity.
    + repeat constructor.
    + vm_compute. reflexivity.
  - apply (Hfirst _ "A" ("text" +:+ startTag "B") ["# Title"] ["..."] []);
      [vm_compute; reflexivity | discriminate | reflexivity
      | repeat constructor | repeat constructor | constructor].
Defined.

(** C2 as stated fails on the line scanner. The nesting example of the
    specification, written on one line, is read as the one start marker
    [A] and reported as unclosed; [A] and [B] opened on one line and
    closed once on a later line are returned as the single segment [A];
    and where the scanner does report nesting its message names a line,
    not the two keys. *)
Lemma nested_markers_rejected_counterexample :
  parseSegments (startTag "A" +:+ "text" +:+ startTag "B" +:+ "..." +:+ endTag
                   +:+ "text" +:+ endTag)
  = Err "Unclosed segment marker: A"
  /\ parseSegments (startTag "A" +:+ "text" +:+ startTag "B" +:+ nl
                      +:+ "..." +:+ nl +:+ endTag)
     = Ok [ {| key := "A"; type := None; audience := None; content := "...";
               startLine := 1; endLine := 3 |} ]
  /\ parseSegments (startTag "A" +:+ nl +:+ startTag "B" +:+ nl +:+ endTag +:+ nl +:+ endTag)
     = Err "Nested segment markers not allowed at line 2".
Proof. repeat split; vm_compute; reflexivity. Qed.

(** C3, as amended. In the line scanner, let the lines before some line
    parse on their own: if that line is a start marker and only text
    follows it, parsing fails with the unclosed-marker error naming its
    key; if that line is an end marker, parsing fails with the
    unmatched-end-marker error naming its line number; and the two
    messages always differ. The marker-range parser has neither kind:
    each of its errors is the marker-count mismatch, the ordering error
    or a nesting error. Among text without an angle bracket, a start
    marker alone and an end marker alone are both reported as the
    marker-count mismatch, and an end marker followed by a start marker
    that nothing closes as the ordering error. *)
Theorem parseSegments_unclosed_unmatched :
  (forall (markdown : string) (pre : list string) (line : string) (post : list string)
     (segs : list ParsedSegment),
     JsString.split JsString.LF markdown = pre ++ line :: post ->
     parseLines pre = Ok segs ->
     (forall k ty au, classify line = StartLine k ty au ->
        Forall (fun l => classify l = TextLine) post ->
        parseSegments markdown = Err ("Unclosed segment marker: " +:+ k)) /\
     (classify line = EndLine ->
        parseSegments markdown
        = Err ("Unmatched end marker at line " +:+ pretty (Z.of_nat (length pre) + 1))))
  /\ (forall (k : string) (n : Z),
        "Unclosed segment marker: " +:+ k <> "Unmatched end marker at line " +:+ pretty n)
  /\ (forall (content : string) (offsetAdjust : Z) (e : string),
        Segments.parseMarkers content offsetAdjust = Err e ->
        (exists nStart nEnd : nat,
           nStart <> nEnd
           /\ e = "Mismatched segment markers: found " +:+ pretty nStart
                  +:+ " start markers and " +:+ pretty nEnd +:+ " end markers")
        \/ e = "Segment end marker appears before start marker ends"
        \/ exists inner outer,
             e = "Nested segments not allowed: segment '" +:+ inner
                 +:+ "' starts before '" +:+ outer +:+ "' ends")
  /\ (forall (a k b : string) (offsetAdjust : Z),
        JsString.contains "<" a = false -> JsString.contains "<" b = false ->
        k <> EmptyString -> JsString.contains JsString.DQUOTE k = false ->
        JsString.contains "<" k = false ->
        Segments.parseMarkers (a +:+ startMarker k +:+ b) offsetAdjust
        = Err "Mismatched segment markers: found 1 start markers and 0 end markers")
  /\ (forall (a b : string) (offsetAdjust : Z),
        JsString.contains "<" a = false -> JsString.contains "<" b = false ->
        Segments.parseMarkers (a +:+ endMarker +:+ b) offsetAdjust
        = Err "Mismatched segment markers: found 0 start markers and 1 end markers")
  /\ (forall (a b k c : string) (offsetAdjust : Z),
        JsString.contains "<" a = false -> JsString.contains "<" b = false ->
        JsString.contains "<" c = false ->
        k <> EmptyString -> JsString.contains JsString.DQUOTE k = false ->
        JsString.contains "<" k = false ->
        Segments.parseMarkers (a +:+ endMarker +:+ b +:+ startMarker k +:+ c) offsetAdjust
        = Err "Segment end marker appears before start marker ends").
Proof.
  split; [|split; [|split; [|split; [|split]]]].
  - intros markdown pre line post segs. apply parseSegments_line_errors.
  - intros k n. simpl. discriminate.
  - intros content offsetAdjust e. unfold Segments.parseMarkers.
    destruct (length (Regex.execAll Segments.SEGMENT_START_RE content)
              =? length (Regex.execAll Segments.SEGMENT_END_RE content))%nat eqn:E;
      cbn [negb].
    + intros H. right. eapply pairMarkers_errors. exact H.
    + intros [= <-]. left. apply Nat.eqb_neq in E. eauto.
  - intros a k b offsetAdjust Ha Hb Hne Hq Hk.
    unfold Segments.parseMarkers, Regex.execAll.
    rewrite (execAll_from_after_plain _ a _ _ SEGMENT_START_RE_bracket Ha).
    rewrite (execAll_from_after_plain _ a _ _ SEGMENT_END_RE_bracket Ha).
    rewrite execAll_START_startMarker, execAll_END_startMarker by assumption.
    rewrite (execAll_from_plain _ b _ _ SEGMENT_START_RE_bracket Hb).
    rewrite (execAll_from_plain _ b _ _ SEGMENT_END_RE_bracket Hb).
    reflexivity.
  - intros a b offsetAdjust Ha Hb.
    unfold Segments.parseMarkers, Regex.execAll.
    rewrite (execAll_from_after_plain _ a _ _ SEGMENT_START_RE_bracket Ha).
    rewrite (execAll_from_after_plain _ a _ _ SEGMENT_END_RE_bracket Ha).
    rewrite execAll_START_endMarker, execAll_END_endMarker.
    rewrite (execAll_from_plain _ b _ _ SEGMENT_START_RE_bracket Hb).
    rewrite (execAll_from_plain _ b _ _ SEGMENT_END_RE_bracket Hb).
    reflexivity.
  - intros a b k c offsetAdjust Ha Hb Hc Hne Hq Hk.
    unfold Segments.parseMarkers, Regex.execAll.
    rewrite (execAll_from_after_plain _ a _ _ SEGMENT_START_RE_bracket Ha).
    rewrite (execAll_from_after_plain _ a _ _ SEGMENT_END_RE_bracket Ha).
    rewrite execAll_START_endMarker, execAll_END_endMarker.
    rewrite (execAll_from_after_plain _ b _ _ SEGMENT_START_RE_bracket Hb).
    rewrite (execAll_from_after_plain _ b _ _ SEGMENT_END_RE_bracket Hb).
    rewrite execAll_START_startMarker, execAll_END_startMarker by assumption.
    rewrite (execAll_from_plain _ c _ _ SEGMENT_START_RE_bracket Hc).
    rewrite (execAll_from_plain _ c _ _ SEGMENT_END_RE_bracket Hc).
    cbn [length Nat.eqb negb Segments.pairMarkers Regex.index Regex.matched].
    pose proof (len_nonneg a). pose proof (len_nonneg b).
    pose proof (len_nonneg (startMarker k)).
    assert (0 < JsString.len endMarker) by (vm_compute; reflexivity).
    destruct (Z.ltb_spec (0 + JsString.len a)
                (0 + JsString.len a + JsString.len endMarker + JsString.len b
                 + JsString.len (startMarker k))); [reflexivity | lia].
Qed.

(** The two tests of the repository on the line scanner, and the three
    situations in the marker-range parser. *)
Lemma parseSegments_unclosed_unmatched_witness :
  parseSegments (startTag "test" +:+ nl +:+ "Content without end marker" +:+ nl)
  = Err "Unclosed segment marker: test"
  /\ parseSegments ("Some content" +:+ nl +:+ endTag +:+ nl)
     = Err "Unmatched end marker at line 2"
  /\ Segments.parseMarkers ("Intro " +:+ startMarker "a" +:+ " text") 0
     = Err "Mismatched segment markers: found 1 start markers and 0 end markers"
  /\ Segments.parseMarkers ("Intro " +:+ endMarker +:+ " text") 0
     = Err "Mismatched segment markers: found 0 start markers and 1 end markers"
  /\ Segments.parseMarkers
       ("Intro " +:+ endMarker +:+ " text " +:+ startMarker "a" +:+ " more") 0
     = Err "Segment end marker appears before start marker ends".
Proof.
  destruct parseSegments_unclosed_unmatched as (Hline & _ & _ & Hstart & Hend & Hord).
  split; [|split; [|split; [|split]]].
  - refine (proj1 (Hline (startTag "test" +:+ nl +:+ "Content without end marker" +:+ nl)
                     [] (startTag "test") ["Content without end marker"; EmptyString] [] _ _)
                  "test" None None _ _).
    + vm_compute. reflexivity.
    + vm_compute. reflexivity.
    + vm_compute. reflexivity.
    + repeat constructor.
  - refine (proj2 (Hline ("Some content" +:+ nl +:+ endTag +:+ nl)
                     ["Some content"] endTag [EmptyString] [] _ _) _).
    + vm_compute. reflexivity.
    + vm_compute. reflexivity.
    + vm_compute. reflexivity.
  - apply (Hstart "Intro " "a" " text" 0); [reflexivity | reflexivity | discriminate
                                            | reflexivity | reflexivity].
  - apply (Hend "Intro " " text" 0); reflexivity.
  - apply (Hord "Intro " " text " "a" " more" 0);
      [reflexivity | reflexivity | reflexivity | discriminate | reflexivity | reflexivity].
Defined.

(** C3 as stated fails. On one line, an end marker that nothing opened,
    followed by a start marker and its end marker, is reported as
    unclosed; a lone end marker followed on the next line by a start
    marker that nothing closes is reported as unmatched only; and the
    marker-range parser reports a lone start marker and a lone end
    marker as the same marker-count error, and an end marker followed by
    an unclosed start marker as the ordering error. *)
Lemma parseSegments_unclosed_unmatched_counterexample :
  parseSegments (endTag +:+ startTag "a" +:+ endTag)
  = Err "Unclosed segment marker: a"
  /\ parseSegments (endTag +:+ nl +:+ startTag "a")
     = Err "Unmatched end marker at line 1"
  /\ Segments.parseSegments noYaml (startMarker "a")
     = Err "Mismatched segment markers: found 1 start markers and 0 end markers"
  /\ Segments.parseSegments noYaml endMarker
     = Err "Mismatched segment markers: found 0 start markers and 1 end markers"
  /\ Segments.parseSegments noYaml (endMarker +:+ startMarker "a")
     = Err "Segment end marker appears before start marker ends".
Proof. repeat split; vm_compute; reflexivity. Qed.

End StructuralErrors.
